(** * CircuitLab-MNA: the Modified Nodal Analysis engine

    A shallow embedding of [src/js/mnaCore.js] (object [MNACore]) and of
    the helpers of [src/js/matrixBuilder.js] (object [MatrixBuilder]) it
    calls, followed by the properties of the engine.

    Conventions of the embedding.
    - A JavaScript [number] that holds a node number, a node count or a
      matrix index is a [Z]; a [number] that holds an electrical quantity
      (a value, a frequency, a matrix entry) is an exact rational [Qc].
      Arithmetic is exact: rounding of IEEE doubles is not modelled.
    - math.js mixes [number] and [Complex]; here every scalar is a
      complex number [Cx] and a real [r] is [RtoC r].
    - A division by zero, [Infinity] or [NaN] in JavaScript, is 0 here.
      The engine divides by the value of a resistor, which it tests
      first, and by [omega * valor] for an inductor in AC: an inductor
      of value 0 in AC is outside the embedding.
    - [throw new Error(msg)] is the left injection of [Exc]; [try/catch]
      is a [match] on it.
    - math.js (version 11.11.0 by the README of the repository) is not
      part of the repository. Module [math] models the functions the engine calls as
      that library behaves on a [DenseMatrix], errors included:
      [math.size] returns a matrix, [math.transpose] refuses a matrix
      without columns, [math.concat] reads the dimensions off the arrays
      of rows. [math.det] and [math.lusolve] are the exact determinant
      and the exact solution: the rounding of the doubles they compute
      with, which decides the test against 1e-10 near a singular matrix,
      is not modelled. *)

From Stdlib Require Import ZArith QArith Qcanon String DecimalString List Lia
  Field Psatz.
From stdpp Require Import gmap strings list.

(** ** Exceptions *)

Inductive JsError : Type := Error (message : string).

Definition message (e : JsError) : string :=
  match e with Error m => m end.

Definition Exc (A : Type) : Type := (JsError + A)%type.

Definition ok {A} (a : A) : Exc A := inr a.
Definition throw {A} (msg : string) : Exc A := inl (Error msg).

Definition bind {A B} (c : Exc A) (k : A -> Exc B) : Exc B :=
  match c with
  | inl e => inl e
  | inr a => k a
  end.

Notation "'let*' x ':=' c 'in' k" := (bind c (fun x => k))
  (at level 10, x name, c at level 100, k at level 200).

(** [for (const a of l) acc = body(acc, a)], where the body may throw. *)
Fixpoint forOf {A S} (body : S -> A -> Exc S) (l : list A) (s : S) : Exc S :=
  match l with
  | [] => ok s
  | a :: l' => let* s' := body s a in forOf body l' s'
  end.

(** [String.prototype.includes]. *)
Fixpoint includes (needle hay : string) : bool :=
  String.prefix needle hay ||
  match hay with
  | EmptyString => false
  | String _ hay' => includes needle hay'
  end.

(** A number inside a template literal, [`${z}`]. *)
Definition numero (z : Z) : string := NilZero.string_of_int (Z.to_int z).

(** The line feed written [\n] in the source. *)
Definition LF : string := String (Ascii.ascii_of_nat 10) EmptyString.

(** ** Scalars: complex numbers over exact rationals *)

Record Cx : Type := mkCx { re : Qc; im : Qc }.

Definition RtoC (r : Qc) : Cx := mkCx r 0.
Definition Cero : Cx := RtoC 0.
Definition Uno : Cx := RtoC 1.

Definition Cadd (a b : Cx) : Cx := mkCx (re a + re b) (im a + im b).
Definition Copp (a : Cx) : Cx := mkCx (- re a) (- im a).
Definition Csub (a b : Cx) : Cx := mkCx (re a - re b) (im a - im b).
Definition Cmul (a b : Cx) : Cx :=
  mkCx (re a * re b - im a * im b) (re a * im b + im a * re b).
Definition Cnorm2 (a : Cx) : Qc := re a * re a + im a * im a.
Definition Cinv (a : Cx) : Cx :=
  mkCx (re a / Cnorm2 a) (- im a / Cnorm2 a).
Definition Cdiv (a b : Cx) : Cx := Cmul a (Cinv b).

Declare Scope Cx_scope.
Delimit Scope Cx_scope with C.
Bind Scope Cx_scope with Cx.
Infix "+" := Cadd : Cx_scope.
Infix "-" := Csub : Cx_scope.
Infix "*" := Cmul : Cx_scope.
Infix "/" := Cdiv : Cx_scope.
Notation "- x" := (Copp x) : Cx_scope.

Global Instance Cx_eq_dec : EqDecision Cx.
Proof. solve_decision. Defined.

Definition Qc_ltb (a b : Qc) : bool :=
  if Qclt_le_dec a b then true else false.

Definition qc (n : Z) (d : positive) : Qc := Q2Qc (n # d).

(** JavaScript constants. [Math.PI] is the double nearest to pi, the
    rational 884279719003555 / 2^48. *)
Definition Math_PI : Qc := qc 884279719003555 281474976710656.
Definition num_1e12 : Qc := qc 1000000000000 1.
Definition num_1e_10 : Qc := qc 1 10000000000.

(** ** math.js *)

Module math.

(** A [DenseMatrix]: its [_size] and its [_data], an array of rows. *)
Record Matrix : Type := mkMatrix {
  rows : nat;
  cols : nat;
  data : list (list Cx)
}.

Definition entry (M : Matrix) (i j : nat) : Cx :=
  nth j (nth i (data M) []) Cero.

(** [math.zeros(r, c)]. *)
Definition zeros (r c : Z) : Exc Matrix :=
  if ((r <? 0) || (c <? 0))%Z
  then throw "Parameters in function zeros must be positive integers"
  else ok (mkMatrix (Z.to_nat r) (Z.to_nat c)
             (replicate (Z.to_nat r) (replicate (Z.to_nat c) Cero))).

(** [math.size(M)]. math.js keeps its default configuration
    [matrix: 'Matrix'], under which the size of a [DenseMatrix] is a
    [DenseMatrix] again: the two numbers are its [_data]. *)
Record Size : Type := mkSize { _data : list Z }.

Definition size (M : Matrix) : Size :=
  mkSize [Z.of_nat (rows M); Z.of_nat (cols M)].

(** A value that may be [undefined], and [a !== b] and [`${a}`] on such
    values. *)
Definition distintos (a b : option Z) : bool :=
  negb (bool_decide (a = b)).

Definition plantilla (a : option Z) : string :=
  match a with
  | Some z => numero z
  | None => "undefined"
  end.

(** [s[k]] on the object [math.size] returns, and [x.length] on a
    [DenseMatrix]: these objects carry [_data] and [_size] and have no
    property [0], [1] or [length], so both are [undefined]. *)
Definition propiedad (s : Size) (k : nat) : option Z := None.

Definition length_de (x : Matrix) : option Z := None.

Definition in_range (M : Matrix) (i j : Z) : bool :=
  ((0 <=? i) && (i <? Z.of_nat (rows M)) &&
   (0 <=? j) && (j <? Z.of_nat (cols M)))%Z.

(** [math.subset(M, math.index(i, j))] and [M.get([i, j])]. *)
Definition get (M : Matrix) (i j : Z) : Exc Cx :=
  if in_range M i j
  then ok (entry M (Z.to_nat i) (Z.to_nat j))
  else throw "Index out of range".

(** [math.subset(M, math.index(i, j), v)]: a copy of [M] with one entry
    replaced. Every call of the engine is guarded by a range test, so the
    resizing math.js performs on an index past the end is not modelled. *)
Definition set (M : Matrix) (i j : Z) (v : Cx) : Exc Matrix :=
  if in_range M i j
  then ok (mkMatrix (rows M) (cols M)
             (alter (fun r => <[Z.to_nat j := v]> r) (Z.to_nat i) (data M)))
  else throw "Index out of range".

(** The messages of math.js's [DimensionError] and [IndexError]. *)
Definition DimensionError (actual expected : Z) : string :=
  "Dimension mismatch (" +:+ numero actual +:+ " != " +:+
  numero expected +:+ ")".

Definition IndexError (index max : Z) : string :=
  if (index <? 0)%Z
  then "Index out of range (" +:+ numero index +:+ " < 0)"
  else "Index out of range (" +:+ numero index +:+ " > " +:+
       numero (max - 1) +:+ ")".

(** The number of dimensions math.js reads off an array of rows (the
    length of [arraySize]): the array without rows, [[]], has one. *)
Definition dimensiones (d : list (list Cx)) : Z :=
  match d with
  | [] => 1
  | _ :: _ => 2
  end.

(** [math.matrix(d)]: the size is read off [d], on its first row, and
    every row is checked against it. The matrix without rows has the size
    [[0]]; it is written with 0 columns here. *)
Definition matrix (d : list (list Cx)) : Exc Matrix :=
  match d with
  | [] => ok (mkMatrix 0 0 [])
  | r :: _ =>
      match find (fun r' => negb (length r' =? length r)%nat) d with
      | Some r' =>
          throw (DimensionError (Z.of_nat (length r')) (Z.of_nat (length r)))
      | None => ok (mkMatrix (length d) (length r) d)
      end
  end.

(** [math.concat(A, B, dim)]: [dim = 1] puts [B] to the right of [A],
    [dim = 0] puts it below. math.js works on the arrays of rows: both
    must have as many dimensions, [dim] must be one of them, and the
    result is made a matrix again. A matrix without rows has the array
    [[]], of one dimension. *)
Definition concat (A B : Matrix) (dim : Z) : Exc Matrix :=
  let dimA := (dimensiones (data A) - 1)%Z in
  let dimB := (dimensiones (data B) - 1)%Z in
  if negb (dimB =? dimA)%Z
  then throw (DimensionError (dimA + 1) (dimB + 1))
  else if ((dim <? 0) || (dimB <? dim))%Z
  then throw (IndexError dim (dimB + 1))
  else if (0 <? dim)%Z then
    if negb (length (data A) =? length (data B))%nat
    then throw (DimensionError (Z.of_nat (length (data A)))
                               (Z.of_nat (length (data B))))
    else matrix (zip_with app (data A) (data B))
  else matrix (data A ++ data B).

(** [math.transpose(M)]. *)
Definition transpose (M : Matrix) : Exc Matrix :=
  if (cols M =? 0)%nat
  then throw ("Cannot transpose a 2D matrix with no columns (size: [" +:+
              numero (Z.of_nat (rows M)) +:+ ", 0])")
  else ok (mkMatrix (cols M) (rows M)
             (map (fun j => map (fun r => nth j r Cero) (data M))
                  (seq 0 (cols M)))).

(** [math.add], [math.multiply], [math.complex]. *)
Definition add (a b : Cx) : Cx := (a + b)%C.
Definition multiply (a b : Cx) : Cx := (a * b)%C.
Definition complex (x y : Qc) : Cx := mkCx x y.

(** [math.abs(z) < eps] for [0 <= eps]: the moduli are compared through
    their squares, which needs no square root. *)
Definition abs_lt (z : Cx) (eps : Qc) : bool :=
  Qc_ltb (Cnorm2 z) (eps * eps).

(** *** Elimination with partial pivoting

    [math.det] and [math.lusolve] eliminate with pivoting. Over exact
    arithmetic the determinant and the solution do not depend on the
    order of the eliminations; they are computed here by Gaussian
    elimination, the pivot of a column being the first entry of largest
    modulus. *)

Definition hd0 (r : list Cx) : Cx := nth 0 r Cero.

(** Position and squared modulus of the pivot among the heads of [rs]. *)
Fixpoint pivote (rs : list (list Cx)) : option (nat * Qc) :=
  match rs with
  | [] => None
  | r :: rs' =>
      match pivote rs' with
      | None => Some (0%nat, Cnorm2 (hd0 r))
      | Some (k, v) =>
          if Qc_ltb (Cnorm2 (hd0 r)) v then Some (S k, v)
          else Some (0%nat, Cnorm2 (hd0 r))
      end
  end.

(** Row [r] minus the multiple of the pivot row [p] that clears its head;
    the head is dropped and [w] entries are kept. *)
Definition elim (w : nat) (p r : list Cx) : list Cx :=
  map (fun k => (nth (S k) r Cero - (hd0 r / hd0 p) * nth (S k) p Cero)%C)
      (seq 0 w).

Fixpoint signo (k : nat) : Cx :=
  match k with
  | O => Uno
  | S k' => (- signo k')%C
  end.

Fixpoint det_rows (n : nat) (rs : list (list Cx)) : Cx :=
  match n with
  | O => Uno
  | S n' =>
      match pivote rs with
      | None => Cero
      | Some (k, v) =>
          if decide (v = 0%Qc) then Cero
          else
            let p := nth k rs [] in
            (signo k * hd0 p * det_rows n' (map (elim n' p) (delete k rs)))%C
      end
  end.

(** [math.det(M)]; the determinant of a matrix without columns is 1. *)
Definition det (M : Matrix) : Exc Cx :=
  if (rows M =? cols M)%nat
  then ok (det_rows (rows M) (data M))
  else if (cols M =? 0)%nat then ok Uno
  else throw ("Matrix must be square (size: [" +:+ numero (Z.of_nat (rows M)) +:+
              ", " +:+ numero (Z.of_nat (cols M)) +:+ "])").

Fixpoint dot (u v : list Cx) : Cx :=
  match u, v with
  | a :: u', b :: v' => (a * b + dot u' v')%C
  | _, _ => Cero
  end.

(** Rows carry [n] coefficients followed by the right-hand side. *)
Fixpoint solve_rows (n : nat) (rs : list (list Cx)) : option (list Cx) :=
  match n with
  | O => Some []
  | S n' =>
      match pivote rs with
      | None => None
      | Some (k, v) =>
          if decide (v = 0%Qc) then None
          else
            let p := nth k rs [] in
            match solve_rows n' (map (elim n p) (delete k rs)) with
            | None => None
            | Some xs =>
                let coef := map (fun j => nth (S j) p Cero) (seq 0 n') in
                Some (((nth n p Cero - dot coef xs) / hd0 p)%C :: xs)
            end
      end
  end.

(** [math.lusolve(A, b)]: the column [x] with [A x = b]. *)
Definition lusolve (A b : Matrix) : Exc Matrix :=
  if negb (rows A =? cols A)%nat
  then throw ("Matrix must be square (size: [" +:+ numero (Z.of_nat (rows A)) +:+
              ", " +:+ numero (Z.of_nat (cols A)) +:+ "])")
  else if negb ((rows b =? rows A)%nat && (cols b =? 1)%nat)
  then throw "Dimension mismatch. Matrix columns must match vector length."
  else
    match solve_rows (rows A)
            (zip_with (fun r z => r ++ [hd0 z]) (data A) (data b)) with
    | None => throw "Linear system cannot be solved since matrix is singular"
    | Some xs => ok (mkMatrix (rows A) 1 (map (fun x => [x]) xs))
    end.


End math.

(** ** src/js/matrixBuilder.js *)

Module MatrixBuilder.
Import math.

(** The [!matriz] tests of the source guard against [null] and
    [undefined], which a [Matrix] here never is. In
    [dims._data ? dims._data[0] : dims[0]] the array [dims._data] is an
    object, hence true: the size is read from [_data]. *)

Definition establecerElemento (matriz : Matrix) (fila columna : Z) (valor : Cx)
  : Exc Matrix :=
  let dims := size matriz in
  let numFilas := nth 0 (_data dims) 0%Z in
  let numColumnas := nth 1 (_data dims) 0%Z in
  if ((fila <? 0) || (numFilas <=? fila))%Z then
    throw ("Índice de fila " +:+ numero fila +:+ " fuera de rango [0, " +:+
           numero (numFilas - 1)%Z +:+ "]")
  else if ((columna <? 0) || (numColumnas <=? columna))%Z then
    throw ("Índice de columna " +:+ numero columna +:+
           " fuera de rango [0, " +:+ numero (numColumnas - 1)%Z +:+ "]")
  else set matriz fila columna valor.

Definition sumarElemento (matriz : Matrix) (fila columna : Z) (valor : Cx)
  : Exc Matrix :=
  let dims := size matriz in
  let numFilas := nth 0 (_data dims) 0%Z in
  let numColumnas := nth 1 (_data dims) 0%Z in
  if ((fila <? 0) || (numFilas <=? fila))%Z then
    throw ("Índice de fila " +:+ numero fila +:+ " fuera de rango [0, " +:+
           numero (numFilas - 1)%Z +:+ "]")
  else if ((columna <? 0) || (numColumnas <=? columna))%Z then
    throw ("Índice de columna " +:+ numero columna +:+
           " fuera de rango [0, " +:+ numero (numColumnas - 1)%Z +:+ "]")
  else
    let* valorActual := get matriz fila columna in
    let nuevoValor := add valorActual valor in
    set matriz fila columna nuevoValor.

Definition crearMatrizVacia (filas columnas : Z) : Exc Matrix :=
  if ((filas <=? 0) || (columnas <=? 0))%Z
  then throw "Las dimensiones de la matriz deben ser positivas"
  else zeros filas columnas.

Definition obtenerElemento (matriz : Matrix) (fila columna : Z) : Exc Cx :=
  let dims := size matriz in
  let numFilas := nth 0 (_data dims) 0%Z in
  let numColumnas := nth 1 (_data dims) 0%Z in
  if ((fila <? 0) || (numFilas <=? fila))%Z then
    throw ("Índice de fila " +:+ numero fila +:+ " fuera de rango [0, " +:+
           numero (numFilas - 1)%Z +:+ "]")
  else if ((columna <? 0) || (numColumnas <=? columna))%Z then
    throw ("Índice de columna " +:+ numero columna +:+
           " fuera de rango [0, " +:+ numero (numColumnas - 1)%Z +:+ "]")
  else get matriz fila columna.

Definition concatenarHorizontal (matriz1 matriz2 : Matrix) : Exc Matrix :=
  let dims1 := size matriz1 in
  let dims2 := size matriz2 in
  let filas1 := nth 0 (_data dims1) 0%Z in
  let filas2 := nth 0 (_data dims2) 0%Z in
  if negb (filas1 =? filas2)%Z then
    throw ("Las matrices deben tener el mismo número de filas para " +:+
           "concatenación horizontal (" +:+ numero filas1 +:+ " vs " +:+
           numero filas2 +:+ ")")
  else concat matriz1 matriz2 1.

Definition concatenarVertical (matriz1 matriz2 : Matrix) : Exc Matrix :=
  let dims1 := size matriz1 in
  let dims2 := size matriz2 in
  let cols1 := nth 1 (_data dims1) 0%Z in
  let cols2 := nth 1 (_data dims2) 0%Z in
  if negb (cols1 =? cols2)%Z then
    throw ("Las matrices deben tener el mismo número de columnas para " +:+
           "concatenación vertical (" +:+ numero cols1 +:+ " vs " +:+
           numero cols2 +:+ ")")
  else concat matriz1 matriz2 0.

(** The object [{filas, columnas}]; [dims[1] || 1] turns a count of 0
    columns into 1. *)
Definition obtenerDimensiones (matriz : Matrix) : Z * Z :=
  let dims := size matriz in
  let filas := nth 0 (_data dims) 0%Z in
  let columnas := if (nth 1 (_data dims) 0 =? 0)%Z then 1%Z
                  else nth 1 (_data dims) 0%Z in
  (filas, columnas).

End MatrixBuilder.

(** ** src/js/mnaCore.js *)

(** A circuit element, the objects of the array [elementos]. *)
Record Elemento : Type := mkElemento {
  tipo : string;
  nombre : string;
  nodoPositivo : Z;
  nodoNegativo : Z;
  valor : Qc
}.

Module MNACore.
Import math.

Record Matrices : Type := mkMatrices {
  m_A : Matrix; m_x : Matrix; m_z : Matrix;
  m_G : Matrix; m_B : Matrix; m_C : Matrix; m_D : Matrix
}.

Record Info : Type := mkInfo {
  numNodos : Z;
  numNodosSinTierra : Z;
  numFuentesVoltaje : nat;
  numFuentesCorriente : nat;
  numResistores : nat;
  numCapacitores : nat;
  numInductores : nat;
  frequency : Qc;
  tipoAnalisis : string;
  determinante : Cx
}.

(** The object [analizarCircuito] returns; a property the source leaves
    out of one of its two object literals is [None]. *)
Record Resultado : Type := mkResultado {
  exito : bool;
  error : option string;
  voltajes : gmap Z Cx;
  corrientes : gmap string Cx;
  matrices : option Matrices;
  info : option Info
}.

Definition esTipo (t : string) (e : Elemento) : bool := String.eqb (tipo e) t.

Definition nodoAIndice (nodo groundNode : Z) : Z :=
  if (nodo =? groundNode)%Z then (-1)%Z
  else if (nodo <? groundNode)%Z then nodo
  else (nodo - 1)%Z.

(** The [switch] of [construirMatrizG] that computes [conductancia];
    [omega] is the constant of that name of [construirMatrizG], which
    [estampar] receives from it. For an inductor of value 0 in AC the
    source divides by zero. *)
Definition conductanciaDe (elemento : Elemento) (frequency omega : Qc)
  : Exc Cx :=
  if esTipo "R" elemento then
    if decide (valor elemento = 0%Qc)
    then throw ("Resistor " +:+ nombre elemento +:+
                " tiene valor cero (cortocircuito)")
    else ok (RtoC (1 / valor elemento))
  else if esTipo "C" elemento then
    if decide (frequency = 0%Qc) then ok Cero
    else ok (complex 0 (omega * valor elemento))
  else if esTipo "L" elemento then
    if decide (frequency = 0%Qc) then ok (RtoC num_1e12)
    else ok (complex 0 (- (1) / (omega * valor elemento)))
  else ok Cero.

(** The body of the [for] loop of [construirMatrizG]. *)
Definition estampar (groundNode : Z) (frequency omega : Qc)
    (G : Matrix) (elemento : Elemento) : Exc Matrix :=
  let nodo1 := nodoPositivo elemento in
  let nodo2 := nodoNegativo elemento in
  let* conductancia := conductanciaDe elemento frequency omega in
  let i := nodoAIndice nodo1 groundNode in
  let j := nodoAIndice nodo2 groundNode in
  let* G := (if (0 <=? i)%Z
             then MatrixBuilder.sumarElemento G i i conductancia
             else ok G) in
  let* G := (if (0 <=? j)%Z
             then MatrixBuilder.sumarElemento G j j conductancia
             else ok G) in
  if ((0 <=? i) && (0 <=? j))%Z then
    let* G := MatrixBuilder.sumarElemento G i j
                (multiply (RtoC (- (1))) conductancia) in
    MatrixBuilder.sumarElemento G j i (multiply (RtoC (- (1))) conductancia)
  else ok G.

Definition construirMatrizG (elementos : list Elemento)
    (numNodes groundNode : Z) (frequency : Qc) : Exc Matrix :=
  let n := (numNodes - 1)%Z in
  let* G := zeros n n in
  let omega := (2 * Math_PI * frequency)%Qc in
  let elementosPasivos :=
    List.filter (fun e => esTipo "R" e || esTipo "C" e || esTipo "L" e)
      elementos in
  forOf (estampar groundNode frequency omega) elementosPasivos G.

(** [for (let j = 0; j < m; j++)] over [l]: the elements with their index. *)
Definition indexados {A} (l : list A) : list (Z * A) :=
  combine (map Z.of_nat (seq 0 (length l))) l.

(** The body of the [for] loop of [construirMatrizB], at index [j]. *)
Definition incidir (groundNode : Z) (B : Matrix) (jf : Z * Elemento)
  : Exc Matrix :=
  let '(j, fuente) := jf in
  let nodoPositivo := nodoPositivo fuente in
  let nodoNegativo := nodoNegativo fuente in
  let iPosIndice := nodoAIndice nodoPositivo groundNode in
  let iNegIndice := nodoAIndice nodoNegativo groundNode in
  let* B := (if (0 <=? iPosIndice)%Z
             then MatrixBuilder.establecerElemento B iPosIndice j Uno
             else ok B) in
  if (0 <=? iNegIndice)%Z
  then MatrixBuilder.establecerElemento B iNegIndice j (RtoC (- (1)))
  else ok B.

Definition construirMatrizB (elementos : list Elemento)
    (numNodes groundNode : Z) : Exc Matrix :=
  let n := (numNodes - 1)%Z in
  let fuentesVoltaje := List.filter (esTipo "V") elementos in
  let m := length fuentesVoltaje in
  if (m =? 0)%nat then zeros n 0
  else
    let* B := zeros n (Z.of_nat m) in
    forOf (incidir groundNode) (indexados fuentesVoltaje) B.

Definition construirMatrizC (B : Matrix) : Exc Matrix := transpose B.

Definition construirMatrizD (numFuentesVoltaje : nat) : Exc Matrix :=
  let m := Z.of_nat numFuentesVoltaje in
  zeros m m.

Definition ensamblarMatrizA (G B C D : Matrix) : Exc Matrix :=
  let* filaSuperior := concat G B 1 in
  let* filaInferior := concat C D 1 in
  concat filaSuperior filaInferior 0.

(** The body of the [for] loop of [construirVectorI]. *)
Definition inyectar (groundNode : Z) (i : Matrix) (fuente : Elemento)
  : Exc Matrix :=
  let nodoPositivo := nodoPositivo fuente in
  let nodoNegativo := nodoNegativo fuente in
  let corriente := RtoC (valor fuente) in
  let iPos := nodoAIndice nodoPositivo groundNode in
  let iNeg := nodoAIndice nodoNegativo groundNode in
  let* i := (if (0 <=? iPos)%Z
             then MatrixBuilder.sumarElemento i iPos 0 corriente
             else ok i) in
  if (0 <=? iNeg)%Z
  then MatrixBuilder.sumarElemento i iNeg 0
         (multiply (RtoC (- (1))) corriente)
  else ok i.

Definition construirVectorI (elementos : list Elemento)
    (numNodes groundNode : Z) : Exc Matrix :=
  let n := (numNodes - 1)%Z in
  let* i := zeros n 1 in
  let fuentesCorriente := List.filter (esTipo "I") elementos in
  forOf (inyectar groundNode) fuentesCorriente i.

Definition construirVectorE (elementos : list Elemento) : Exc Matrix :=
  let fuentesVoltaje := List.filter (esTipo "V") elementos in
  let m := length fuentesVoltaje in
  if (m =? 0)%nat then zeros 0 1
  else
    let* e := zeros (Z.of_nat m) 1 in
    forOf (fun e jf => set e (fst jf) 0 (RtoC (valor (snd jf))))
      (indexados fuentesVoltaje) e.

Definition ensamblarVectorZ (i e : Matrix) : Exc Matrix :=
  concat i e 0.

Definition mensajeSingular : string :=
  "Matriz singular detectada (det ≈ 0). " +:+
  "Posibles causas:" +:+ LF +:+
  "  - Nodo sin conexión a tierra" +:+ LF +:+
  "  - Lazo de fuentes de voltaje" +:+ LF +:+
  "  - Cortocircuito que viola LKV" +:+ LF +:+
  "  - Circuito mal definido".

(** The [try] block of [resolverSistema]. The two tests on the sizes read
    [sizeA[0]], [sizeA[1]] and [sizeZ[0]] on the objects [math.size]
    returns, and the last test reads [x.length] on a [DenseMatrix]. *)
Definition resolverSistema_try (A z : Matrix) : Exc Matrix :=
  let sizeA := size A in
  let* _ := (if distintos (propiedad sizeA 0) (propiedad sizeA 1)
             then throw ("Matriz A no es cuadrada: " +:+
                         plantilla (propiedad sizeA 0) +:+ "x" +:+
                         plantilla (propiedad sizeA 1))
             else ok tt) in
  let sizeZ := size z in
  let* _ := (if distintos (propiedad sizeA 0) (propiedad sizeZ 0)
             then throw ("Dimensiones incompatibles: A es " +:+
                         plantilla (propiedad sizeA 0) +:+ "x" +:+
                         plantilla (propiedad sizeA 1) +:+ ", z es " +:+
                         plantilla (propiedad sizeZ 0) +:+ "x" +:+
                         plantilla (propiedad sizeZ 1))
             else ok tt) in
  let* det := det A in
  let* _ := (if abs_lt det num_1e_10
             then throw mensajeSingular
             else ok tt) in
  let* x := lusolve A z in
  let* _ := (if bool_decide (length_de x = Some 0%Z)
             then throw "No se pudo obtener solución del sistema"
             else ok tt) in
  ok x.

(** [resolverSistema]: the [try] block and its [catch] clause. *)
Definition resolverSistema (A z : Matrix) : Exc Matrix :=
  match resolverSistema_try A z with
  | inr x => ok x
  | inl error =>
      if includes "Singular matrix" (message error) then
        throw ("Error: Matriz singular en MNA. " +:+
               "El circuito no puede ser resuelto. " +:+
               "Verifique conexiones y nodo de tierra.")
      else if includes "Dimensions" (message error) then
        throw ("Error dimensional en el sistema MNA: " +:+ message error)
      else
        throw ("Error al resolver sistema MNA: " +:+ message error)
  end.

(** *** The connectivity scan of [analizarCircuito]

    [visitar] is the body of the [for] loop over [elementos], [pasada]
    one round of the [while (cambio)] loop. The state is the set
    [nodosConectados] and the flag [cambio]. *)
Definition visitar (st : gset Z * bool) (elem : Elemento) : gset Z * bool :=
  let '(nodosConectados, cambio) := st in
  if bool_decide (nodoPositivo elem ∈ nodosConectados) &&
     negb (bool_decide (nodoNegativo elem ∈ nodosConectados))
  then ({[nodoNegativo elem]} ∪ nodosConectados, true)
  else if bool_decide (nodoNegativo elem ∈ nodosConectados) &&
          negb (bool_decide (nodoPositivo elem ∈ nodosConectados))
  then ({[nodoPositivo elem]} ∪ nodosConectados, true)
  else (nodosConectados, cambio).

Definition pasada (elementos : list Elemento) (nodosConectados : gset Z)
  : gset Z * bool :=
  fold_left visitar elementos (nodosConectados, false).

(** [while (cambio)], run for at most [rondas] rounds. *)
Fixpoint mientras (rondas : nat) (elementos : list Elemento)
    (nodosConectados : gset Z) : gset Z :=
  match rondas with
  | O => nodosConectados
  | S rondas' =>
      let '(nodos, cambio) := pasada elementos nodosConectados in
      if cambio then mientras rondas' elementos nodos else nodos
  end.

(** Every round but the last adds a terminal of some element, so
    [2 * length elementos + 1] rounds are enough (lemma
    [mientras_estable] below). *)
Definition nodosConectados (elementos : list Elemento) (groundNode : Z)
  : gset Z :=
  mientras (S (2 * length elementos)) elementos {[groundNode]}.

(** The guards that open the [try] block of [analizarCircuito]. *)
Definition validar (elementos : list Elemento)
    (numNodes groundNode : Z) (frequency : Qc) : Exc unit :=
  let* _ := (if (length elementos =? 0)%nat
             then throw "No hay elementos en el circuito" else ok tt) in
  let* _ := (if (numNodes <? 2)%Z
             then throw
               "El circuito debe tener al menos 2 nodos (incluyendo tierra)"
             else ok tt) in
  let* _ := (if ((groundNode <? 0) || (numNodes <=? groundNode))%Z
             then throw ("Nodo de tierra inválido: " +:+ numero groundNode)
             else ok tt) in
  if Qc_ltb frequency 0
  then throw "La frecuencia no puede ser negativa" else ok tt.

(** What the call writes with [console.warn]: the scan runs once the
    guards are passed, and nothing before it or after it writes. *)
Definition consola (elementos : list Elemento) (numNodes groundNode : Z)
    (frequency : Qc) : list string :=
  match validar elementos numNodes groundNode frequency with
  | inl _ => []
  | inr _ =>
      if (Z.of_nat (base.size (nodosConectados elementos groundNode))
          <? numNodes)%Z
      then ["Advertencia: Algunos nodos no están conectados a tierra"]
      else []
  end.

(** The expression [(i < groundNode) ? i : i + 1] of the extraction loop. *)
Definition indiceANodo (i groundNode : Z) : Z :=
  if (i <? groundNode)%Z then i else (i + 1)%Z.

(** The [try] block of [analizarCircuito]. The connectivity scan that
    follows the guards changes no variable the rest of the block reads:
    its only effect is the warning of [consola]. *)
Definition analizarCircuito_try (elementos : list Elemento)
    (numNodes groundNode : Z) (frequency : Qc) : Exc Resultado :=
  let* _ := validar elementos numNodes groundNode frequency in
  let fuentesVoltaje := List.filter (esTipo "V") elementos in
  let fuentesCorriente := List.filter (esTipo "I") elementos in
  let resistores := List.filter (esTipo "R") elementos in
  let capacitores := List.filter (esTipo "C") elementos in
  let inductores := List.filter (esTipo "L") elementos in
  let n := (numNodes - 1)%Z in
  let m := length fuentesVoltaje in
  let* G := construirMatrizG elementos numNodes groundNode frequency in
  let* B := construirMatrizB elementos numNodes groundNode in
  let* C := construirMatrizC B in
  let* D := construirMatrizD m in
  let* A := ensamblarMatrizA G B C D in
  let* i := construirVectorI elementos numNodes groundNode in
  let* e := construirVectorE elementos in
  let* z := ensamblarVectorZ i e in
  let* x := resolverSistema A z in
  let* voltajes :=
    forOf (fun (voltajes : gmap Z Cx) i =>
        let nodoReal := indiceANodo i groundNode in
        let* voltaje := get x i 0 in
        ok (<[nodoReal := voltaje]> voltajes))
      (map Z.of_nat (seq 0 (Z.to_nat n))) ∅ in
  let voltajes := <[groundNode := Cero]> voltajes in
  let* corrientes :=
    forOf (fun (corrientes : gmap string Cx) '(j, fuente) =>
        let* corriente := get x (n + j)%Z 0 in
        ok (<[nombre fuente := corriente]> corrientes))
      (indexados fuentesVoltaje) ∅ in
  let* determinante := det A in
  ok {| exito := true;
        error := None;
        voltajes := voltajes;
        corrientes := corrientes;
        matrices := Some (mkMatrices A x z G B C D);
        info := Some {| numNodos := numNodes;
                        numNodosSinTierra := n;
                        numFuentesVoltaje := m;
                        numFuentesCorriente := length fuentesCorriente;
                        numResistores := length resistores;
                        numCapacitores := length capacitores;
                        numInductores := length inductores;
                        frequency := frequency;
                        tipoAnalisis :=
                          if decide (frequency = 0%Qc) then "DC" else "AC";
                        determinante := determinante |} |}.

(** [analizarCircuito]: the [try] block and its [catch] clause. *)
Definition analizarCircuito (elementos : list Elemento)
    (numNodes groundNode : Z) (frequency : Qc) : Resultado :=
  match analizarCircuito_try elementos numNodes groundNode frequency with
  | inr resultado => resultado
  | inl error =>
      {| exito := false;
         error := Some (message error);
         voltajes := ∅;
         corrientes := ∅;
         matrices := None;
         info := None |}
  end.




End MNACore.

Import math MatrixBuilder MNACore.

(** ** The divider circuit of the specification *)

Definition divisor : list Elemento :=
  [ mkElemento "V" "V1" 1 0 (qc 10 1);
    mkElemento "R" "R1" 1 2 (qc 1000 1);
    mkElemento "R" "R2" 2 0 (qc 1000 1) ].

(** A source and a resistor between nodes 1 and 0 of a circuit of three
    nodes: nothing is connected to node 2. *)
Definition circuito_aislado : list Elemento :=
  [ mkElemento "V" "V1" 1 0 (qc 10 1);
    mkElemento "R" "R1" 1 0 (qc 1000 1) ].

(** A current source and a resistor between nodes 1 and 0: a circuit
    without voltage source. *)
Definition sin_fuente_de_voltaje : list Elemento :=
  [ mkElemento "I" "I1" 1 0 (qc 1 1000);
    mkElemento "R" "R1" 1 0 (qc 1000 1) ].

(** The divider with a current source from node 0 to node 2 beside
    it. *)
Definition divisor_con_corriente : list Elemento :=
  divisor ++ [ mkElemento "I" "I1" 2 0 (qc 1 1000) ].

(** The object built by the [catch] clause of [analizarCircuito]. *)
Definition fallo (msg : string) : Resultado :=
  {| exito := false; error := Some msg; voltajes := ∅; corrientes := ∅;
     matrices := None; info := None |}.

(** ** Vocabulary of the statements *)

(** A matrix whose [_data] agrees with its [_size]. *)
Definition bien_formada (M : Matrix) : Prop :=
  length (data M) = rows M /\
  Forall (fun r => length r = cols M) (data M).

(** Column [k] of an array of rows, and the array with one entry
    replaced. *)
Definition columna (k : nat) (d : list (list Cx)) : list Cx :=
  map (fun r => nth k r Cero) d.

Definition poner (d : list (list Cx)) (a b : nat) (v : Cx)
  : list (list Cx) :=
  alter (fun r => <[b := v]> r) a d.

(** [c] is not the zero vector and the combination of the rows of [d]
    with the coefficients [c] vanishes on the first [n] columns. *)
Definition anula (n : nat) (c : list Cx) (d : list (list Cx)) : Prop :=
  ~ Forall (fun x => x = Cero) c /\
  forall k, (k < n)%nat -> dot c (columna k d) = Cero.

(** *** The stamping rule of the specification

    The conductance block as the specification words it: from the zero
    matrix, each passive element of admittance [y] between the compacted
    indices [i] and [j] adds [y] at [(i, i)] when [i] is present, adds [y]
    at [(j, j)] when [j] is present, and subtracts [y] at [(i, j)] and
    [(j, i)] when both are present. A terminal is present when it is not
    the reference node. *)

Definition conductancia_referencia (e : Elemento) (f : Qc) : Cx :=
  if String.eqb (tipo e) "R" then RtoC (1 / valor e)
  else if String.eqb (tipo e) "C" then
    if decide (f = 0%Qc) then Cero else mkCx 0 (2 * Math_PI * f * valor e)
  else if String.eqb (tipo e) "L" then
    if decide (f = 0%Qc) then RtoC num_1e12
    else mkCx 0 (- (1 / (2 * Math_PI * f * valor e)))
  else Cero.

Definition presente (nodo groundNode : Z) : bool :=
  negb (nodo =? groundNode)%Z.

Definition es_pasivo (e : Elemento) : bool :=
  String.eqb (tipo e) "R" || String.eqb (tipo e) "C" ||
  String.eqb (tipo e) "L".

(** [G[i][j] += y] and [G[i][j] -= y]; an index outside the matrix
    designates no entry. *)
Definition sumar_en (G : list (list Cx)) (i j : Z) (y : Cx)
  : list (list Cx) :=
  if ((0 <=? i) && (0 <=? j))%Z
  then alter (alter (fun x => (x + y)%C) (Z.to_nat j)) (Z.to_nat i) G
  else G.

Definition restar_en (G : list (list Cx)) (i j : Z) (y : Cx)
  : list (list Cx) :=
  if ((0 <=? i) && (0 <=? j))%Z
  then alter (alter (fun x => (x - y)%C) (Z.to_nat j)) (Z.to_nat i) G
  else G.

Definition estampa_referencia (groundNode : Z) (f : Qc)
    (G : list (list Cx)) (e : Elemento) : list (list Cx) :=
  let y := conductancia_referencia e f in
  let i := nodoAIndice (nodoPositivo e) groundNode in
  let j := nodoAIndice (nodoNegativo e) groundNode in
  let G := if presente (nodoPositivo e) groundNode
           then sumar_en G i i y else G in
  let G := if presente (nodoNegativo e) groundNode
           then sumar_en G j j y else G in
  if presente (nodoPositivo e) groundNode &&
     presente (nodoNegativo e) groundNode
  then restar_en (restar_en G i j y) j i y
  else G.

(** The same rule for an element of a given admittance [y]. *)
Definition estampa_con (y : Cx) (groundNode : Z) (G : list (list Cx))
    (e : Elemento) : list (list Cx) :=
  let i := nodoAIndice (nodoPositivo e) groundNode in
  let j := nodoAIndice (nodoNegativo e) groundNode in
  let G := if presente (nodoPositivo e) groundNode
           then sumar_en G i i y else G in
  let G := if presente (nodoNegativo e) groundNode
           then sumar_en G j j y else G in
  if presente (nodoPositivo e) groundNode &&
     presente (nodoNegativo e) groundNode
  then restar_en (restar_en G i j y) j i y
  else G.

Definition G_referencia (elementos : list Elemento)
    (numNodes groundNode : Z) (f : Qc) : Matrix :=
  let n := Z.to_nat (numNodes - 1) in
  mkMatrix n n
    (fold_left (estampa_referencia groundNode f)
       (List.filter es_pasivo elementos)
       (replicate n (replicate n Cero))).

(** The terminals of [e] are nodes of a circuit of [numNodes] nodes. *)
Definition terminales_validos (numNodes : Z) (e : Elemento) : Prop :=
  (0 <= nodoPositivo e < numNodes)%Z /\
  (0 <= nodoNegativo e < numNodes)%Z.

(** A circuit whose passive elements can be stamped: the terminals are
    nodes of the circuit and no resistor has value 0. *)
Definition estampable (numNodes : Z) (e : Elemento) : Prop :=
  es_pasivo e = true ->
  terminales_validos numNodes e /\ (tipo e = "R"%string -> valor e <> 0%Qc).

(** *** Connectivity *)

(** A node is reachable from the reference node when a chain of elements,
    of any kind and in either direction, joins them. *)
Inductive alcanzable (elementos : list Elemento) (groundNode : Z)
  : Z -> Prop :=
  | alcanzable_tierra : alcanzable elementos groundNode groundNode
  | alcanzable_negativo e :
      In e elementos ->
      alcanzable elementos groundNode (nodoPositivo e) ->
      alcanzable elementos groundNode (nodoNegativo e)
  | alcanzable_positivo e :
      In e elementos ->
      alcanzable elementos groundNode (nodoNegativo e) ->
      alcanzable elementos groundNode (nodoPositivo e).

(** The terminals of the elements, with repetitions, and how many of them
    are outside the set [X]: the measure that bounds the rounds of
    [mientras]. *)
Definition terminales (elementos : list Elemento) : list Z :=
  flat_map (fun e => [nodoPositivo e; nodoNegativo e]) elementos.

Definition faltan (elementos : list Elemento) (X : gset Z) : nat :=
  length (List.filter (fun t => negb (bool_decide (t ∈ X)))
            (terminales elementos)).

(** No element joins a node of [X] to a node outside [X]. *)
Definition cerrado (elementos : list Elemento) (X : gset Z) : Prop :=
  forall e, In e elementos -> nodoPositivo e ∈ X <-> nodoNegativo e ∈ X.

(** The elements and the circuits of the data model of the
    specification: every terminal a node of the circuit, the two terminals
    of an element distinct, the value of a resistor, capacitor or inductor
    positive; at least two nodes, a reference node among them and a
    frequency that is not negative. *)
Definition elemento_valido (numNodes : Z) (e : Elemento) : Prop :=
  terminales_validos numNodes e /\
  nodoPositivo e <> nodoNegativo e /\
  (es_pasivo e = true -> (0 < valor e)%Qc).

Definition circuito_valido (elementos : list Elemento)
    (numNodes groundNode : Z) (f : Qc) : Prop :=
  (2 <= numNodes)%Z /\ (0 <= groundNode < numNodes)%Z /\ (0 <= f)%Qc /\
  Forall (elemento_valido numNodes) elementos.

(** The coefficient of each row of the conductance block in the
    combination that vanishes when a node is cut off: 0 for a node of
    [X], 1 for a node outside. *)
Definition indicador (X : gset Z) (groundNode : Z) (n : nat) : list Cx :=
  map (fun a => if bool_decide (indiceANodo (Z.of_nat a) groundNode ∈ X)
                then Cero else Uno)
      (seq 0 n).

(** [indexados] from the index [s] on. *)
Definition numerados {A} (s : nat) (l : list A) : list (Z * A) :=
  combine (map Z.of_nat (seq s (length l))) l.

(** An array of [n] rows of [c] entries. *)
Definition forma (n c : nat) (d : list (list Cx)) : Prop :=
  length d = n /\ Forall (fun r => length r = c) d.

(** Whether [o] holds the scalar [a + b j]. *)
Definition vale (o : option Cx) (a b : Q) : bool :=
  match o with
  | Some c => Qeq_bool (re c) a && Qeq_bool (im c) b
  | None => false
  end.

(** Whether the character [c] occurs in [s]. *)
Fixpoint ocurre (c : Ascii.ascii) (s : string) : bool :=
  match s with
  | EmptyString => false
  | String a s' => Ascii.eqb c a || ocurre c s'
  end.

(** *** Vocabulary of the further properties *)


(** The entry of the incidence block in row [i] and in the column of the
    voltage source [fuente]: -1 in the row of the negative terminal, +1 in
    the row of the positive terminal, 0 elsewhere. The reference node has
    no row. The negative terminal is written last. *)
Definition incidencia (groundNode : Z) (fuente : Elemento) (i : nat) : Cx :=
  if decide (Z.of_nat i = nodoAIndice (nodoNegativo fuente) groundNode)
  then RtoC (- (1))
  else if decide (Z.of_nat i = nodoAIndice (nodoPositivo fuente) groundNode)
  then Uno
  else Cero.

(** What the loops of [construirMatrizB] and [construirVectorE] do to the
    array of rows. *)
Definition incidir_datos (groundNode : Z) (d : list (list Cx))
    (jf : Z * Elemento) : list (list Cx) :=
  let iPos := nodoAIndice (nodoPositivo (snd jf)) groundNode in
  let iNeg := nodoAIndice (nodoNegativo (snd jf)) groundNode in
  let d := if (0 <=? iPos)%Z
           then poner d (Z.to_nat iPos) (Z.to_nat (fst jf)) Uno else d in
  if (0 <=? iNeg)%Z
  then poner d (Z.to_nat iNeg) (Z.to_nat (fst jf)) (RtoC (- (1))) else d.

Definition fijar_datos (d : list (list Cx)) (jf : Z * Elemento)
  : list (list Cx) :=
  poner d (Z.to_nat (fst jf)) 0 (RtoC (valor (snd jf))).

(** The sum of a list of scalars. *)
Definition suma (l : list Cx) : Cx := fold_right Cadd Cero l.

(** The current the source [fuente] brings into the node of row [k]: its
    value when the node is its positive terminal, minus its value when
    the node is its negative terminal. *)
Definition inyeccion (groundNode : Z) (k : nat) (fuente : Elemento) : Cx :=
  ((if decide (Z.of_nat k = nodoAIndice (nodoPositivo fuente) groundNode)
    then RtoC (valor fuente) else Cero) -
   (if decide (Z.of_nat k = nodoAIndice (nodoNegativo fuente) groundNode)
    then RtoC (valor fuente) else Cero))%C.

(** The voltage the result gives a node and the current it gives a
    voltage source; 0 where the result has no entry. *)
Definition voltaje (r : Resultado) (nodo : Z) : Cx :=
  default Cero (voltajes r !! nodo).

Definition corriente (r : Resultado) (fuente : Elemento) : Cx :=
  default Cero (corrientes r !! nombre fuente).


(** The potential of a node in a column of node voltages: the entry of
    its row, 0 for the reference node. *)
Definition potencial (v : list Cx) (groundNode nodo : Z) : Cx :=
  if decide (nodo = groundNode) then Cero
  else nth (Z.to_nat (nodoAIndice nodo groundNode)) v Cero.

(** The kinds of element the engine knows. *)
Definition tipo_conocido (e : Elemento) : bool :=
  esTipo "R" e || esTipo "C" e || esTipo "L" e || esTipo "V" e ||
  esTipo "I" e.

(** The element with its negative terminal numbers replaced by the
    reference node. *)
Definition a_tierra (groundNode : Z) (e : Elemento) : Elemento :=
  mkElemento (tipo e) (nombre e)
    (if (nodoPositivo e <? 0)%Z then groundNode else nodoPositivo e)
    (if (nodoNegativo e <? 0)%Z then groundNode else nodoNegativo e)
    (valor e).

(** A scalar without imaginary part, and an array of such scalars. *)
Definition es_real (c : Cx) : Prop := im c = 0%Qc.

Definition datos_reales (d : list (list Cx)) : Prop :=
  Forall (Forall es_real) d.

(** * Properties *)

(** ** Exceptions and scalars *)

Lemma bind_inr {A B} (c : Exc A) (k : A -> Exc B) (b : B) :
  bind c k = inr b -> exists a, c = inr a /\ k a = inr b.
Proof. destruct c as [e|a]; simpl; [discriminate | eauto]. Qed.

Lemma bind_ok {A B} (a : A) (k : A -> Exc B) : bind (ok a) k = k a.
Proof. reflexivity. Qed.

Ltac inv_bind H :=
  let a := fresh "a" in
  let Ha := fresh "Ha" in
  apply bind_inr in H; destruct H as (a & Ha & H).

Lemma Qc_ltb_true (a b : Qc) : Qc_ltb a b = true <-> (a < b)%Qc.
Proof.
  unfold Qc_ltb. destruct (Qclt_le_dec a b) as [H|H]; split; intros; try done.
  exfalso. eapply Qclt_not_le; eauto.
Qed.

(** ** The node-index mapping *)

Ltac casos_nodo :=
  unfold nodoAIndice, indiceANodo in *;
  repeat match goal with
         | |- context [Z.eqb ?a ?b] => destruct (Z.eqb_spec a b)
         | |- context [Z.ltb ?a ?b] => destruct (Z.ltb_spec a b)
         | H : context [Z.eqb ?a ?b] |- _ => destruct (Z.eqb_spec a b)
         | H : context [Z.ltb ?a ?b] |- _ => destruct (Z.ltb_spec a b)
         end; try lia.

Lemma nodoAIndice_inyectiva (groundNode nodo nodo' : Z) :
  nodo <> groundNode -> nodo' <> groundNode ->
  nodoAIndice nodo groundNode = nodoAIndice nodo' groundNode ->
  nodo = nodo'.
Proof. intros. casos_nodo. Qed.

Lemma indiceANodo_nodoAIndice (groundNode nodo : Z) :
  nodo <> groundNode ->
  indiceANodo (nodoAIndice nodo groundNode) groundNode = nodo.
Proof. intros. casos_nodo. Qed.

Lemma nodoAIndice_indiceANodo (groundNode i : Z) :
  indiceANodo i groundNode <> groundNode /\
  nodoAIndice (indiceANodo i groundNode) groundNode = i.
Proof. split; casos_nodo. Qed.

(** C9. [nodoAIndice] sends the reference node to -1, keeps the number of
    a node below it and lowers by one the number of a node above it; it
    is injective on the other nodes, and the expression of the extraction
    loop, [indiceANodo], is its inverse. *)
Theorem nodoAIndice_inversa (groundNode : Z) :
  nodoAIndice groundNode groundNode = (-1)%Z /\
  (forall nodo, (nodo < groundNode)%Z -> nodoAIndice nodo groundNode = nodo) /\
  (forall nodo, (groundNode < nodo)%Z ->
     nodoAIndice nodo groundNode = (nodo - 1)%Z) /\
  (forall nodo nodo', nodo <> groundNode -> nodo' <> groundNode ->
     nodoAIndice nodo groundNode = nodoAIndice nodo' groundNode ->
     nodo = nodo') /\
  (forall nodo, nodo <> groundNode ->
     indiceANodo (nodoAIndice nodo groundNode) groundNode = nodo) /\
  (forall i, indiceANodo i groundNode <> groundNode /\
     nodoAIndice (indiceANodo i groundNode) groundNode = i).
Proof.
  split; [casos_nodo|]. split; [intros; casos_nodo|].
  split; [intros; casos_nodo|].
  split; [apply nodoAIndice_inyectiva|].
  split; [apply indiceANodo_nodoAIndice|apply nodoAIndice_indiceANodo].
Qed.

Lemma nodoAIndice_inversa_witness :
  indiceANodo (nodoAIndice 3 2) 2 = 3%Z /\ nodoAIndice 1 2 = 1%Z.
Proof.
  destruct (nodoAIndice_inversa 2) as (_ & Hlt & _ & _ & Hinv & _).
  split; [apply Hinv; lia | apply Hlt; lia].
Defined.

(** ** The result object *)

Lemma analizarCircuito_try_inr elementos numNodes groundNode f r :
  analizarCircuito_try elementos numNodes groundNode f = inr r ->
  exito r = true /\ error r = None /\
  voltajes r !! groundNode = Some Cero.
Proof.
  unfold analizarCircuito_try. intros H.
  repeat inv_bind H.
  injection H as <-. simpl. repeat split.
  apply lookup_insert_eq.
Qed.

(** C7. [analizarCircuito] always returns an object. An error raised
    anywhere in its [try] block is returned as the failure object: flag
    [exito] false, the message of the error, empty [voltajes] and
    [corrientes], [matrices] null. A result with [exito] false carries no
    numeric result. *)
Theorem analizarCircuito_no_propaga elementos numNodes groundNode f :
  match analizarCircuito_try elementos numNodes groundNode f with
  | inl e =>
      analizarCircuito elementos numNodes groundNode f = fallo (message e)
  | inr r =>
      analizarCircuito elementos numNodes groundNode f = r /\
      exito r = true /\ error r = None
  end /\
  (exito (analizarCircuito elementos numNodes groundNode f) = false ->
   voltajes (analizarCircuito elementos numNodes groundNode f) = ∅ /\
   corrientes (analizarCircuito elementos numNodes groundNode f) = ∅ /\
   matrices (analizarCircuito elementos numNodes groundNode f) = None /\
   is_Some (error (analizarCircuito elementos numNodes groundNode f))).
Proof.
  unfold analizarCircuito.
  destruct (analizarCircuito_try elementos numNodes groundNode f)
    as [e|r] eqn:Htry.
  - split; [reflexivity|]. simpl. eauto.
  - apply analizarCircuito_try_inr in Htry as (Hex & Herr & _).
    split; [done|]. rewrite Hex. discriminate.
Qed.

Lemma analizarCircuito_no_propaga_witness :
  analizarCircuito [] 2 0 0 = fallo "No hay elementos en el circuito" /\
  voltajes (analizarCircuito [] 2 0 0) = ∅.
Proof.
  pose proof (analizarCircuito_no_propaga [] 2 0 0) as [H1 H2].
  split.
  - exact H1.
  - apply H2. reflexivity.
Defined.

(** C8. On every circuit that [analizarCircuito] solves, the voltage
    reported for the reference node is 0: it is the last assignment to
    [voltajes], not a value read from the solution. *)
Theorem voltaje_tierra_cero elementos numNodes groundNode f :
  exito (analizarCircuito elementos numNodes groundNode f) = true ->
  voltajes (analizarCircuito elementos numNodes groundNode f) !! groundNode
  = Some Cero.
Proof.
  unfold analizarCircuito.
  destruct (analizarCircuito_try elementos numNodes groundNode f)
    as [e|r] eqn:Htry; [discriminate|].
  intros _. by apply analizarCircuito_try_inr in Htry as (_ & _ & Hv).
Qed.

(** ** The field of scalars *)

Lemma Cx_eq (a b : Cx) : re a = re b -> im a = im b -> a = b.
Proof. destruct a, b; simpl; congruence. Qed.

Lemma Qc_suma_cuadrados (a b : Qc) :
  (a * a + b * b = 0)%Qc -> a = 0%Qc /\ b = 0%Qc.
Proof.
  intros H.
  assert (Hq : (this a * this a + this b * this b == 0)%Q).
  { apply (f_equal this) in H. simpl in H.
    rewrite <- (Qred_correct (this a * this a)),
            <- (Qred_correct (this b * this b)),
            <- (Qred_correct (Qred _ + Qred _)), H. reflexivity. }
  split; apply Qc_is_canon; change (this (Q2Qc 0)) with 0%Q; nra.
Qed.

Lemma Cnorm2_cero (a : Cx) : Cnorm2 a = 0%Qc -> a = Cero.
Proof.
  intros H. apply Qc_suma_cuadrados in H as [Hr Hi].
  by apply Cx_eq.
Qed.

Lemma Cx_ring_theory : ring_theory Cero Uno Cadd Cmul Csub Copp eq.
Proof. constructor; intros; apply Cx_eq; simpl; ring. Qed.

Lemma Cx_field_theory :
  field_theory Cero Uno Cadd Cmul Csub Copp Cdiv Cinv eq.
Proof.
  constructor.
  - exact Cx_ring_theory.
  - intros H. apply (f_equal (fun c => this (re c))) in H. discriminate H.
  - reflexivity.
  - intros p Hp. apply Cx_eq; simpl; unfold Cnorm2.
    + field. intros H. apply Hp, Cnorm2_cero, H.
    + field. intros H. apply Hp, Cnorm2_cero, H.
Qed.

Add Field Cx_field : Cx_field_theory.

Lemma Cmul_integral (a b : Cx) : (a * b)%C = Cero -> b <> Cero -> a = Cero.
Proof.
  intros H Hb. transitivity (a * b / b)%C; [field; done|].
  rewrite H. field. done.
Qed.

Lemma Cadd_cero (a b : Cx) : (a + b)%C = Cero -> b = (Cero - a)%C.
Proof.
  intros H. transitivity (a + b - a)%C; [ring|]. by rewrite H.
Qed.

Lemma menos_uno : RtoC (- (1)) = (Cero - Uno)%C.
Proof. by apply Cx_eq. Qed.

(** ** Elimination *)

Lemma dot_ceros (u v : list Cx) : Forall (fun x => x = Cero) u -> dot u v = Cero.
Proof.
  intros H. revert v. induction H as [|x u -> _ IH]; intros [|b v]; simpl;
    try done.
  rewrite IH. ring.
Qed.

Lemma dot_comm (u v : list Cx) : dot u v = dot v u.
Proof.
  revert v. induction u as [|a u IH]; intros [|b v]; simpl; try done.
  rewrite IH. ring.
Qed.

Lemma dot_app (u1 u2 v1 v2 : list Cx) :
  length u1 = length v1 ->
  dot (u1 ++ u2) (v1 ++ v2) = (dot u1 v1 + dot u2 v2)%C.
Proof.
  revert v1. induction u1 as [|a u1 IH]; intros [|b v1] Hl; simpl in *;
    try discriminate.
  - ring.
  - rewrite IH by lia. ring.
Qed.

Lemma dot_map_lin {A} (c : list Cx) (f g : A -> Cx) (t : Cx) (l : list A) :
  dot c (map (fun r => (f r - g r * t)%C) l) =
  (dot c (map f l) - t * dot c (map g l))%C.
Proof.
  revert l. induction c as [|a c IH]; intros [|r l]; simpl; try ring.
  rewrite IH. ring.
Qed.

Lemma dot_delete {A} (f : A -> Cx) (d : A) (k : nat) (c : list Cx)
    (l : list A) :
  (k < length l)%nat -> length c = length l ->
  dot c (map f l) =
  (nth k c Cero * f (nth k l d) + dot (delete k c) (map f (delete k l)))%C.
Proof.
  revert c l. induction k as [|k IH]; intros [|a c] [|r l] Hk Hl;
    simpl in *; try lia; try done.
  rewrite (IH c l) by lia. ring.
Qed.

Lemma pivote_Some (rs : list (list Cx)) (k : nat) (v : Qc) :
  pivote rs = Some (k, v) ->
  (k < length rs)%nat /\ v = Cnorm2 (hd0 (nth k rs [])).
Proof.
  revert k v. induction rs as [|r rs IH]; intros k v; simpl; [done|].
  destruct (pivote rs) as [[k' v']|].
  - destruct (Qc_ltb _ _); intros [= <- <-].
    + destruct (IH k' v' eq_refl). split; [lia|done].
    + split; [lia|done].
  - intros [= <- <-]. split; [lia|done].
Qed.

Lemma nth_map_seq {A} (g : nat -> A) (n j : nat) (d : A) :
  (j < n)%nat -> nth j (map g (seq 0 n)) d = g j.
Proof.
  intros Hj. apply nth_lookup_Some.
  rewrite list_lookup_fmap, lookup_seq_lt by done. done.
Qed.

Lemma nth_columna (k a : nat) (d : list (list Cx)) :
  nth a (columna k d) Cero = nth k (nth a d []) Cero.
Proof.
  unfold columna. rewrite !nth_lookup, list_lookup_fmap.
  destruct (d !! a); simpl; [by rewrite nth_lookup|]. by destruct k.
Qed.

Lemma columna_elim (w j : nat) (p : list Cx) (rs : list (list Cx)) :
  (j < w)%nat ->
  columna j (map (elim w p) rs) =
  map (fun r => (nth (S j) r Cero - hd0 r * (nth (S j) p Cero / hd0 p))%C) rs.
Proof.
  intros Hj. unfold columna. rewrite map_map. apply map_ext. intros r.
  unfold elim. rewrite nth_map_seq by done. unfold Cdiv. ring.
Qed.

Lemma ceros_delete (k : nat) (c : list Cx) :
  Forall (fun x => x = Cero) (delete k c) -> nth k c Cero = Cero ->
  Forall (fun x => x = Cero) c.
Proof.
  revert c. induction k as [|k IH]; intros [|a c]; simpl; try done.
  - intros H ->. by constructor.
  - intros H Hk. inversion H; subst. constructor; [done|]. by apply IH.
Qed.

(** One elimination step keeps a vanishing combination of the rows. *)
Lemma anula_elim (n k : nat) (c : list Cx) (rs : list (list Cx)) :
  length rs = S n -> length c = S n -> (k < S n)%nat ->
  hd0 (nth k rs []) <> Cero ->
  anula (S n) c rs ->
  anula n (delete k c) (map (elim n (nth k rs [])) (delete k rs)).
Proof.
  intros Hrs Hc Hk Hp [Hnz Hcol].
  set (p := nth k rs []) in *.
  assert (Hsplit : forall j, (j < S n)%nat ->
            dot (delete k c) (columna j (delete k rs)) =
            (Cero - nth k c Cero * nth j p Cero)%C).
  { intros j Hj. specialize (Hcol j Hj). unfold columna in *.
    rewrite (dot_delete _ [] k) in Hcol by lia.
    fold p in Hcol. by apply Cadd_cero in Hcol. }
  split.
  - intros Hall. apply Hnz. apply (ceros_delete k); [done|].
    pose proof (Hsplit 0%nat ltac:(lia)) as H0.
    rewrite dot_ceros in H0 by done.
    apply (Cmul_integral _ (hd0 p)); [|done].
    unfold hd0. transitivity (Cero - (Cero - nth k c Cero * nth 0 p Cero))%C; [ring|].
    rewrite <- H0. ring.
  - intros j Hj. rewrite columna_elim by done.
    rewrite (dot_map_lin _ (fun r => nth (S j) r Cero) hd0).
    pose proof (Hsplit (S j) ltac:(lia)) as H1.
    pose proof (Hsplit 0%nat ltac:(lia)) as H0.
    unfold columna, hd0 in *. rewrite H1, H0. fold (hd0 p). field. done.
Qed.

(** A matrix whose rows are linearly dependent has determinant 0. *)
Lemma det_rows_singular (n : nat) (c : list Cx) (rs : list (list Cx)) :
  length rs = n -> length c = n -> anula n c rs -> det_rows n rs = Cero.
Proof.
  revert c rs. induction n as [|n IH]; intros c rs Hrs Hc Han.
  - destruct c; [|discriminate]. destruct Han as [Hnz _].
    exfalso. apply Hnz. constructor.
  - simpl. destruct (pivote rs) as [[k v]|] eqn:Hpiv; [|done].
    destruct (decide (v = 0%Qc)) as [|Hv]; [done|].
    apply pivote_Some in Hpiv as [Hk ->].
    assert (Hp : hd0 (nth k rs []) <> Cero).
    { intros Hp. apply Hv. rewrite Hp. apply Qc_is_canon. reflexivity. }
    rewrite (IH (delete k c)).
    + ring.
    + rewrite length_map, length_delete; [lia|].
      apply lookup_lt_is_Some. lia.
    + rewrite length_delete; [lia|]. apply lookup_lt_is_Some. lia.
    + apply anula_elim; auto; lia.
Qed.

(** The solver of the model returns a solution: every equation of a
    square system holds at the vector [solve_rows] computes. *)
Lemma In_delete {A} (k : nat) (l : list A) (d x : A) :
  (k < length l)%nat -> In x l -> x = nth k l d \/ In x (delete k l).
Proof.
  revert l. induction k as [|k IH]; intros [|y l] Hk Hx; simpl in *;
    try lia.
  - destruct Hx; auto.
  - destruct Hx as [->|Hx]; [right; by left|].
    destruct (IH l ltac:(lia) Hx); auto.
Qed.

Lemma dot_map_lin_l {A} (v : list Cx) (f g : A -> Cx) (t : Cx)
    (l : list A) :
  dot (map (fun r => (f r - t * g r)%C) l) v =
  (dot (map f l) v - t * dot (map g l) v)%C.
Proof.
  revert v. induction l as [|a l IH]; intros [|x v]; simpl; try ring.
  rewrite IH. ring.
Qed.

Lemma solve_rows_correcto (n : nat) (rs : list (list Cx)) (xs : list Cx) :
  length rs = n -> solve_rows n rs = Some xs ->
  length xs = n /\
  forall r, In r rs ->
    dot (map (fun j => nth j r Cero) (seq 0 n)) xs = nth n r Cero.
Proof.
  revert rs xs. induction n as [|n IH]; intros rs xs Hrs H.
  - injection H as <-. split; [done|]. by destruct rs.
  - cbn [solve_rows] in H.
    destruct (pivote rs) as [[k v]|] eqn:Hpiv; [|discriminate].
    destruct (decide (v = 0%Qc)) as [|Hv]; [discriminate|].
    apply pivote_Some in Hpiv as [Hk ->].
    set (p := nth k rs []) in *.
    assert (Hp : hd0 p <> Cero).
    { intros Hp. apply Hv. rewrite Hp. apply Qc_is_canon. reflexivity. }
    destruct (solve_rows n _) as [ys|] eqn:Hys; [|discriminate].
    injection H as <-.
    apply IH in Hys as [Hlen Hys];
      [|rewrite length_map, length_delete; [lia|apply lookup_lt_is_Some; lia]].
    split; [simpl; lia|].
    assert (Hshift : forall r : list Cx,
      map (fun j => nth j r Cero) (seq 0 (S n)) =
      hd0 r :: map (fun j => nth (S j) r Cero) (seq 0 n)).
    { intros r. simpl. by rewrite <- seq_shift, map_map. }
    intros r Hr. rewrite Hshift. cbn [dot].
    destruct (In_delete k rs [] r Hk Hr) as [->|Hrest].
    + fold p. field. done.
    + specialize (Hys (elim (S n) p r) (in_map _ _ _ Hrest)).
      assert (Hcoef : map (fun j => nth j (elim (S n) p r) Cero) (seq 0 n) =
                map (fun j => (nth (S j) r Cero -
                               hd0 r / hd0 p * nth (S j) p Cero)%C) (seq 0 n)).
      { apply map_ext_in. intros j Hj%in_seq. unfold elim.
        by rewrite nth_map_seq by lia. }
      rewrite Hcoef in Hys. unfold elim in Hys at 1.
      rewrite nth_map_seq in Hys by lia.
      rewrite (dot_map_lin_l ys (fun j => nth (S j) r Cero)
                 (fun j => nth (S j) p Cero)) in Hys.
      transitivity
        (hd0 r / hd0 p *
           (hd0 p * ((nth (S n) p Cero -
                      dot (map (fun j => nth (S j) p Cero) (seq 0 n)) ys)
                     / hd0 p) +
            dot (map (fun j => nth (S j) p Cero) (seq 0 n)) ys) +
         (dot (map (fun j => nth (S j) r Cero) (seq 0 n)) ys -
          hd0 r / hd0 p *
            dot (map (fun j => nth (S j) p Cero) (seq 0 n)) ys))%C;
        [field; done|].
      rewrite Hys. field. done.
Qed.

(** ** Messages *)

Lemma ocurre_append (c : Ascii.ascii) (s t : string) :
  ocurre c (s +:+ t) = ocurre c s || ocurre c t.
Proof.
  induction s as [|a s IH]; simpl; [done|]. rewrite IH. apply orb_assoc.
Qed.

Lemma includes_sin_inicial (c : Ascii.ascii) (n hay : string) :
  ocurre c hay = false -> includes (String c n) hay = false.
Proof.
  induction hay as [|a hay IH]; simpl; [done|].
  intros [Hca Hoc]%orb_false_elim.
  rewrite IH by done.
  destruct (Ascii.ascii_dec c a) as [->|_]; [|done].
  by rewrite Ascii.eqb_refl in Hca.
Qed.

Lemma ocurre_numero (c : Ascii.ascii) (z : Z) :
  ocurre c "0123456789-" = false -> ocurre c (numero z) = false.
Proof.
  intros H. simpl in H.
  repeat (apply orb_false_elim in H as [? H]).
  assert (Hu : forall d, ocurre c (NilEmpty.string_of_uint d) = false).
  { induction d; simpl; rewrite ?IHd; try done;
      by match goal with Hd : _ = false |- _ => rewrite Hd end. }
  assert (Hz : forall d, ocurre c (NilZero.string_of_uint d) = false).
  { intros d. unfold NilZero.string_of_uint.
    destruct d; try apply Hu. simpl. by rewrite orb_false_r. }
  unfold numero. destruct (Z.to_int z); simpl; rewrite ?Hz; try done.
  by rewrite orb_false_r.
Qed.

Ltac sin_caracter :=
  simpl; rewrite ?ocurre_append; simpl; rewrite ?ocurre_numero by done; done.

Lemma resolverSistema_catch (A z : Matrix) (msg : string) :
  resolverSistema_try A z = throw msg ->
  includes "Singular matrix" msg = false ->
  includes "Dimensions" msg = false ->
  resolverSistema A z = throw ("Error al resolver sistema MNA: " +:+ msg).
Proof.
  unfold resolverSistema. intros -> HS HD. simpl. by rewrite HS, HD.
Qed.

(** ** The linear solver *)

(** The two tests on the sizes and the test on the solution never fire:
    on the objects math.js returns, [sizeA[0]], [sizeA[1]], [sizeZ[0]]
    and [x.length] are all [undefined]. *)
Lemma resolverSistema_try_pruebas (A z : Matrix) :
  resolverSistema_try A z =
  let* d := det A in
  let* _ := (if abs_lt d num_1e_10 then throw mensajeSingular else ok tt) in
  lusolve A z.
Proof.
  unfold resolverSistema_try. simpl.
  destruct (det A) as [e|d]; simpl; [done|].
  destruct (abs_lt d num_1e_10); simpl; [done|].
  by destruct (lusolve A z).
Qed.

Lemma resolverSistema_singular (A z : Matrix) :
  forall d, det A = ok d -> abs_lt d num_1e_10 = true ->
  resolverSistema A z =
  throw ("Error al resolver sistema MNA: " +:+ mensajeSingular).
Proof.
  intros d Hd Habs.
  apply resolverSistema_catch; [|done|done].
  rewrite resolverSistema_try_pruebas, Hd. simpl. by rewrite Habs.
Qed.

Lemma det_singular (A : Matrix) (c : list Cx) :
  rows A = cols A -> length (data A) = rows A -> length c = rows A ->
  anula (rows A) c (data A) -> det A = ok Cero.
Proof.
  intros Hsq Hlen Hc Han. unfold det. rewrite Hsq, Nat.eqb_refl.
  f_equal. rewrite <- Hsq. by apply (det_rows_singular _ c).
Qed.

Lemma map_nth_seq (r : list Cx) (z : list Cx) :
  map (fun j => nth j (r ++ z) Cero) (seq 0 (length r)) = r.
Proof.
  apply list_eq. intros j. rewrite list_lookup_fmap.
  destruct (decide (j < length r)%nat) as [Hj|Hj].
  - rewrite lookup_seq_lt by done. simpl.
    rewrite app_nth1 by done.
    destruct (lookup_lt_is_Some_2 r j Hj) as [x Hx].
    by rewrite Hx, (nth_lookup_Some _ _ _ _ Hx).
  - rewrite lookup_seq_ge by lia. simpl. symmetry.
    apply lookup_ge_None. lia.
Qed.

(** [math.lusolve] of the model solves the system: row by row,
    [A x = b]. *)
Lemma lusolve_correcto (A b x : Matrix) :
  bien_formada A -> length (data b) = rows b ->
  lusolve A b = ok x ->
  rows x = rows A /\ cols x = 1%nat /\
  forall i, (i < rows A)%nat ->
    dot (nth i (data A) []) (columna 0 (data x)) = hd0 (nth i (data b) []).
Proof.
  intros [HlA HrA] Hlb. unfold lusolve.
  destruct (Nat.eqb_spec (rows A) (cols A)) as [Hsq|]; [|discriminate].
  destruct (Nat.eqb_spec (rows b) (rows A)) as [Hb|]; [|discriminate].
  destruct (cols b =? 1)%nat; [|discriminate]. simpl.
  destruct (solve_rows _ _) as [xs|] eqn:Hxs; [|discriminate].
  intros [= <-]. simpl. split; [done|]. split; [done|].
  apply solve_rows_correcto in Hxs as [_ Hxs];
    [|rewrite length_zip_with; lia].
  intros i Hi.
  destruct (lookup_lt_is_Some_2 (data A) i) as [r Hr]; [lia|].
  destruct (lookup_lt_is_Some_2 (data b) i) as [z Hz]; [lia|].
  rewrite (nth_lookup_Some _ _ _ _ Hr), (nth_lookup_Some _ _ _ _ Hz).
  assert (Hlen : length r = rows A).
  { rewrite Hsq. by apply (proj1 (Forall_lookup _ _) HrA i). }
  specialize (Hxs (r ++ [hd0 z])).
  rewrite <- Hlen, map_nth_seq in Hxs.
  rewrite app_nth2, Nat.sub_diag in Hxs by lia. simpl in Hxs.
  replace (columna 0 (map (fun x0 => [x0]) xs)) with xs.
  - apply Hxs. apply list_elem_of_In, list_elem_of_lookup. exists i.
    by rewrite lookup_zip_with, Hr, Hz.
  - unfold columna. rewrite map_map. simpl. by rewrite map_id.
Qed.

(** The message of math.js for a matrix that is not square. *)
Lemma no_cuadrada_sin (c : Ascii.ascii) (r k : Z) (n : string) :
  ocurre c "Matrix must be square (size: [, ])0123456789-" = false ->
  includes (String c n)
    ("Matrix must be square (size: [" +:+ numero r +:+ ", " +:+
     numero k +:+ "])") = false.
Proof.
  intros H. apply includes_sin_inicial.
  assert (Hd : ocurre c "0123456789-" = false).
  { simpl in H. repeat (apply orb_false_elim in H as [? H]).
    simpl. repeat (apply orb_false_intro; [done|]). done. }
  rewrite !ocurre_append, !ocurre_numero by done.
  simpl in H |- *. repeat (apply orb_false_elim in H as [? H]).
  repeat match goal with
         | Hx : Ascii.eqb c _ = false |- _ => rewrite ?Hx; clear Hx
         end.
  reflexivity.
Qed.

(** A needle with a character that the text lacks does not occur in it. *)
Lemma prefix_ocurre (c : Ascii.ascii) (n hay : string) :
  String.prefix n hay = true -> ocurre c n = true -> ocurre c hay = true.
Proof.
  revert hay. induction n as [|a n IH]; intros [|b hay]; simpl; try done.
  destruct (Ascii.ascii_dec a b) as [<-|]; [|done].
  intros Hp [Hc|Hc]%orb_prop; apply orb_true_intro.
  - by left.
  - right. by apply IH.
Qed.

Lemma includes_sin_caracter (c : Ascii.ascii) (n hay : string) :
  ocurre c n = true -> ocurre c hay = false -> includes n hay = false.
Proof.
  intros Hn. induction hay as [|a hay IH]; intros Hh.
  - destruct n; [done|]. reflexivity.
  - simpl in Hh. apply orb_false_elim in Hh as [Ha Hh].
    change (includes n (String a hay))
      with (String.prefix n (String a hay) || includes n hay).
    rewrite IH by done. rewrite orb_false_r.
    destruct (String.prefix n (String a hay)) eqn:Hp; [|done].
    apply (prefix_ocurre c) in Hp; [|done]. simpl in Hp.
    rewrite Ha, Hh in Hp. discriminate.
Qed.

(** The errors the [try] block of [resolverSistema] can raise: the one
    of the singular system and three of math.js. *)
Lemma resolverSistema_try_inl (A z : Matrix) (msg : string) :
  resolverSistema_try A z = throw msg ->
  msg = mensajeSingular \/
  msg = "Dimension mismatch. Matrix columns must match vector length."%string
  \/
  msg = "Linear system cannot be solved since matrix is singular"%string \/
  msg = ("Matrix must be square (size: [" +:+ numero (Z.of_nat (rows A)) +:+
         ", " +:+ numero (Z.of_nat (cols A)) +:+ "])").
Proof.
  rewrite resolverSistema_try_pruebas. unfold det, lusolve.
  destruct (rows A =? cols A)%nat; simpl.
  - destruct (abs_lt _ _); simpl; [intros [= <-]; auto|].
    destruct (_ && _)%bool; simpl; [|intros [= <-]; auto].
    destruct (solve_rows _ _); [discriminate|]. intros [= <-]. auto.
  - destruct (cols A =? 0)%nat; simpl; [|intros [= <-]; auto].
    change (abs_lt Uno num_1e_10) with false. simpl. intros [= <-]; auto.
Qed.

(** [resolverSistema] rethrows each of them behind the same prefix. *)
Lemma resolverSistema_inl (A z : Matrix) (msg : string) :
  resolverSistema A z = throw msg ->
  exists msg', resolverSistema_try A z = throw msg' /\
    msg = ("Error al resolver sistema MNA: " +:+ msg').
Proof.
  intros H.
  destruct (resolverSistema_try A z) as [err|x] eqn:Htry.
  2:{ unfold resolverSistema in H. rewrite Htry in H. discriminate. }
  destruct err as [msg']. exists msg'. split; [done|].
  assert (Hc : resolverSistema A z =
               throw ("Error al resolver sistema MNA: " +:+ msg')).
  { apply resolverSistema_catch; [done| |];
      destruct (resolverSistema_try_inl A z msg' Htry)
        as [-> | [-> | [-> | ->] ] ];
      try reflexivity; by apply no_cuadrada_sin. }
  rewrite Hc in H. by injection H as <-.
Qed.

(** C4. The two tests of [resolverSistema] on the sizes never fire, so
    its errors 'Matriz A no es cuadrada' and 'Dimensiones incompatibles'
    are never raised. On a matrix that is not square the error is the one
    of [math.det], rethrown as a plain solver error; on a square matrix
    that has a row, with a right-hand side of another height, it is the
    error of the singular system or the one of [math.lusolve]. *)
Theorem resolverSistema_pruebas_muertas (A z : Matrix) :
  (rows A <> cols A -> cols A <> 0%nat ->
   resolverSistema A z =
   throw ("Error al resolver sistema MNA: Matrix must be square (size: ["
          +:+ numero (Z.of_nat (rows A)) +:+ ", " +:+
          numero (Z.of_nat (cols A)) +:+ "])")) /\
  (rows A = cols A -> (0 < rows A)%nat -> rows z <> rows A ->
   resolverSistema A z =
     throw ("Error al resolver sistema MNA: " +:+ mensajeSingular) \/
   resolverSistema A z =
     throw ("Error al resolver sistema MNA: " +:+
            "Dimension mismatch. Matrix columns must match vector length."))
  /\
  (forall msg, resolverSistema A z = throw msg ->
     includes "Matriz A no es cuadrada" msg = false /\
     includes "Dimensiones incompatibles" msg = false).
Proof.
  split; [|split].
  - intros Hns Hc.
    apply resolverSistema_catch; [|by apply no_cuadrada_sin..].
    rewrite resolverSistema_try_pruebas. unfold det.
    destruct (Nat.eqb_spec (rows A) (cols A)); [done|].
    by destruct (Nat.eqb_spec (cols A) 0).
  - intros Hsq _ Hz.
    destruct (det A) as [e|d] eqn:Hd.
    { unfold det in Hd. rewrite Hsq, Nat.eqb_refl in Hd. discriminate. }
    destruct (abs_lt d num_1e_10) eqn:Habs.
    + left. by apply (resolverSistema_singular A z d).
    + right. apply resolverSistema_catch; [|done|done].
      rewrite resolverSistema_try_pruebas, Hd. simpl. rewrite Habs. simpl.
      unfold lusolve. rewrite Hsq, Nat.eqb_refl. simpl.
      destruct (Nat.eqb_spec (rows z) (cols A)); [congruence|done].
  - intros msg (msg' & Htry & ->)%resolverSistema_inl.
    destruct (resolverSistema_try_inl A z msg' Htry) as [-> | [-> | [-> | ->] ] ];
      try (split; reflexivity).
    split; [apply (includes_sin_caracter (Ascii.ascii_of_nat 110)); [done|]
           |apply includes_sin_inicial]; sin_caracter.
Qed.

Lemma resolverSistema_pruebas_muertas_witness :
  resolverSistema
    (mkMatrix 2 3 [[Uno; Uno; Uno]; [Cero; Uno; Uno]])
    (mkMatrix 2 1 [[Uno]; [Uno]]) =
  throw "Error al resolver sistema MNA: Matrix must be square (size: [2, 3])".
Proof.
  apply (resolverSistema_pruebas_muertas
           (mkMatrix 2 3 [[Uno; Uno; Uno]; [Cero; Uno; Uno]])
           (mkMatrix 2 1 [[Uno]; [Uno]])); simpl; lia.
Defined.

(** ** The divider circuit *)

Lemma vale_correcto (o : option Cx) (a b : Q) :
  vale o a b = true -> o = Some (mkCx (Q2Qc a) (Q2Qc b)).
Proof.
  destruct o as [c|]; simpl; [|discriminate].
  intros [Hr Hi]%andb_prop. f_equal.
  apply Qeq_bool_iff in Hr, Hi.
  apply Cx_eq; apply Qc_is_canon; simpl; by rewrite Qred_correct.
Qed.

(** C1. On the divider (V1 = 10 from node 1 to node 0, R1 = 1000 from 1
    to 2, R2 = 1000 from 2 to 0, reference node 0, DC) [analizarCircuito]
    succeeds with 10 at node 1, 5 at node 2 and -0.005 through V1. *)
Theorem divisor_resuelto :
  exito (analizarCircuito divisor 3 0 0) = true /\
  voltajes (analizarCircuito divisor 3 0 0) !! 1%Z = Some (RtoC (qc 10 1)) /\
  voltajes (analizarCircuito divisor 3 0 0) !! 2%Z = Some (RtoC (qc 5 1)) /\
  corrientes (analizarCircuito divisor 3 0 0) !! "V1"%string =
    Some (RtoC (qc (-5) 1000)).
Proof.
  split; [by vm_compute|].
  split; [|split]; apply vale_correcto; by vm_compute.
Qed.

Lemma voltaje_tierra_cero_witness :
  voltajes (analizarCircuito divisor 3 0 0) !! 0%Z = Some Cero.
Proof.
  apply voltaje_tierra_cero. vm_compute. reflexivity.
Defined.

(** ** Matrices *)

Lemma zeros_inr (r c : Z) (M : Matrix) :
  zeros r c = inr M ->
  (0 <= r)%Z /\ (0 <= c)%Z /\
  M = mkMatrix (Z.to_nat r) (Z.to_nat c)
        (replicate (Z.to_nat r) (replicate (Z.to_nat c) Cero)).
Proof.
  unfold zeros.
  destruct (Z.ltb_spec r 0), (Z.ltb_spec c 0); simpl; try discriminate.
  intros [= <-]. done.
Qed.

Lemma zeros_ok (r c : Z) :
  (0 <= r)%Z -> (0 <= c)%Z ->
  zeros r c = ok (mkMatrix (Z.to_nat r) (Z.to_nat c)
                    (replicate (Z.to_nat r) (replicate (Z.to_nat c) Cero))).
Proof.
  intros Hr Hc. unfold zeros.
  destruct (Z.ltb_spec r 0), (Z.ltb_spec c 0); simpl; try lia. done.
Qed.

Lemma in_range_true (M : Matrix) (i j : Z) :
  in_range M i j = true <->
  exists a b, i = Z.of_nat a /\ j = Z.of_nat b /\
              (a < rows M)%nat /\ (b < cols M)%nat.
Proof.
  unfold in_range. rewrite !andb_true_iff, !Z.leb_le, !Z.ltb_lt. split.
  - intros (((Hi & Hi') & Hj) & Hj').
    exists (Z.to_nat i), (Z.to_nat j). lia.
  - intros (a & b & -> & -> & Ha & Hb). lia.
Qed.

Lemma set_inr (M : Matrix) (i j : Z) (v : Cx) (M' : Matrix) :
  set M i j v = inr M' ->
  exists a b, i = Z.of_nat a /\ j = Z.of_nat b /\
    (a < rows M)%nat /\ (b < cols M)%nat /\
    M' = mkMatrix (rows M) (cols M) (poner (data M) a b v).
Proof.
  unfold set. destruct (in_range M i j) eqn:Hr; [|discriminate].
  apply in_range_true in Hr as (a & b & -> & -> & Ha & Hb).
  intros [= <-]. exists a, b. by rewrite !Nat2Z.id.
Qed.

Lemma set_ok (M : Matrix) (a b : nat) (v : Cx) :
  (a < rows M)%nat -> (b < cols M)%nat ->
  set M (Z.of_nat a) (Z.of_nat b) v =
  ok (mkMatrix (rows M) (cols M) (poner (data M) a b v)).
Proof.
  intros Ha Hb. unfold set.
  replace (in_range M (Z.of_nat a) (Z.of_nat b)) with true.
  - by rewrite !Nat2Z.id.
  - symmetry. apply in_range_true. by exists a, b.
Qed.

Lemma rango_falso (x n : Z) :
  ((x <? 0) || (n <=? x))%Z = false <-> (0 <= x < n)%Z.
Proof. rewrite orb_false_iff, Z.ltb_ge, Z.leb_gt. lia. Qed.

Lemma sumarElemento_inr (M : Matrix) (i j : Z) (v : Cx) (M' : Matrix) :
  sumarElemento M i j v = inr M' ->
  exists a b, i = Z.of_nat a /\ j = Z.of_nat b /\
    (a < rows M)%nat /\ (b < cols M)%nat /\
    M' = mkMatrix (rows M) (cols M)
           (poner (data M) a b (entry M a b + v)%C).
Proof.
  unfold sumarElemento, size. simpl.
  destruct ((i <? 0) || _)%Z; [discriminate|].
  destruct ((j <? 0) || _)%Z; [discriminate|].
  unfold get. destruct (in_range M i j) eqn:Hr; [|discriminate].
  simpl. intros H. apply set_inr in H as (a & b & -> & -> & Ha & Hb & ->).
  exists a, b. by rewrite !Nat2Z.id.
Qed.

Lemma sumarElemento_ok (M : Matrix) (a b : nat) (v : Cx) :
  (a < rows M)%nat -> (b < cols M)%nat ->
  sumarElemento M (Z.of_nat a) (Z.of_nat b) v =
  ok (mkMatrix (rows M) (cols M) (poner (data M) a b (entry M a b + v)%C)).
Proof.
  intros Ha Hb. unfold sumarElemento, size. simpl.
  rewrite (proj2 (rango_falso _ _)) by lia.
  rewrite (proj2 (rango_falso _ _)) by lia.
  unfold get. replace (in_range M (Z.of_nat a) (Z.of_nat b)) with true.
  - simpl. rewrite !Nat2Z.id. by apply set_ok.
  - symmetry. apply in_range_true. by exists a, b.
Qed.

Lemma establecerElemento_ok (M : Matrix) (a b : nat) (v : Cx) :
  (a < rows M)%nat -> (b < cols M)%nat ->
  establecerElemento M (Z.of_nat a) (Z.of_nat b) v =
  ok (mkMatrix (rows M) (cols M) (poner (data M) a b v)).
Proof.
  intros Ha Hb. unfold establecerElemento, size. simpl.
  rewrite (proj2 (rango_falso _ _)) by lia.
  rewrite (proj2 (rango_falso _ _)) by lia.
  by apply set_ok.
Qed.

(** Replacing an entry by itself plus [v] is adding [v] to it. *)
Lemma poner_suma (d : list (list Cx)) (a b : nat) (v : Cx) :
  poner d a b (nth b (nth a d []) Cero + v)%C =
  alter (alter (fun x => (x + v)%C) b) a d.
Proof.
  unfold poner. apply list_alter_ext; [|done].
  intros r Hr. rewrite (nth_lookup_Some _ _ _ _ Hr).
  rewrite list_insert_alter. apply list_alter_ext; [|done].
  intros x Hx. by rewrite (nth_lookup_Some _ _ _ _ Hx).
Qed.

Lemma sumarElemento_sumar_en (M : Matrix) (i j : Z) (v : Cx) (M' : Matrix) :
  sumarElemento M i j v = inr M' ->
  M' = mkMatrix (rows M) (cols M) (sumar_en (data M) i j v).
Proof.
  intros H. apply sumarElemento_inr in H as (a & b & -> & -> & _ & _ & ->).
  unfold sumar_en, entry.
  rewrite (proj2 (Z.leb_le 0 (Z.of_nat a))), (proj2 (Z.leb_le 0 (Z.of_nat b)))
    by lia.
  simpl. by rewrite !Nat2Z.id, poner_suma.
Qed.

Lemma sumar_menos (d : list (list Cx)) (i j : Z) (y : Cx) :
  sumar_en d i j (multiply (RtoC (- (1))) y) = restar_en d i j y.
Proof.
  unfold sumar_en, restar_en. destruct (_ && _)%Z; [|done].
  apply list_alter_ext; [|done]. intros r _.
  apply list_alter_ext; [|done]. intros x _.
  apply Cx_eq; simpl; ring.
Qed.

Lemma sumar_en_negativo (d : list (list Cx)) (i j : Z) (y : Cx) :
  (i < 0)%Z \/ (j < 0)%Z -> sumar_en d i j y = d /\ restar_en d i j y = d.
Proof.
  intros H. unfold sumar_en, restar_en.
  destruct (Z.leb_spec 0 i), (Z.leb_spec 0 j); simpl; try done; lia.
Qed.

Lemma nodoAIndice_presente (nodo groundNode : Z) :
  (0 <= nodoAIndice nodo groundNode)%Z -> presente nodo groundNode = true.
Proof.
  unfold nodoAIndice, presente.
  destruct (Z.eqb_spec nodo groundNode); [lia|done].
Qed.

(** ** The conductance block *)

Lemma conductanciaDe_inr (e : Elemento) (f : Qc) (y : Cx) :
  conductanciaDe e f (2 * Math_PI * f) = inr y -> y = conductancia_referencia e f.
Proof.
  unfold conductanciaDe, conductancia_referencia, esTipo, complex.
  destruct (String.eqb (tipo e) "R").
  { destruct (decide (valor e = 0%Qc)); [discriminate|]. by intros [= <-]. }
  destruct (String.eqb (tipo e) "C").
  { destruct (decide (f = 0%Qc)); by intros [= <-]. }
  destruct (String.eqb (tipo e) "L"); [|by intros [= <-]].
  destruct (decide (f = 0%Qc)); intros [= <-]; [done|].
  apply Cx_eq; simpl; [done|]. unfold Qcdiv. ring.
Qed.

Lemma conductanciaDe_ok (e : Elemento) (f omega : Qc) :
  (tipo e = "R"%string -> valor e <> 0%Qc) ->
  exists y, conductanciaDe e f omega = ok y.
Proof.
  intros HR. unfold conductanciaDe, esTipo.
  destruct (String.eqb_spec (tipo e) "R").
  { destruct (decide (valor e = 0%Qc)); [by apply HR in e0|eauto]. }
  destruct (String.eqb (tipo e) "C").
  { destruct (decide (f = 0%Qc)); eauto. }
  destruct (String.eqb (tipo e) "L"); [|eauto].
  destruct (decide (f = 0%Qc)); eauto.
Qed.

Lemma estampar_inr (groundNode : Z) (f : Qc) (G : Matrix) (e : Elemento)
    (G' : Matrix) :
  estampar groundNode f (2 * Math_PI * f) G e = inr G' ->
  G' = mkMatrix (rows G) (cols G)
         (estampa_referencia groundNode f (data G) e).
Proof.
  unfold estampar, estampa_referencia. intros H.
  inv_bind H. apply conductanciaDe_inr in Ha as ->.
  set (y := conductancia_referencia e f) in *.
  set (i := nodoAIndice (nodoPositivo e) groundNode) in *.
  set (j := nodoAIndice (nodoNegativo e) groundNode) in *.
  inv_bind H. rename a into G1. inv_bind H. rename a into G2.
  assert (H1 : G1 = mkMatrix (rows G) (cols G)
                 (if presente (nodoPositivo e) groundNode
                  then sumar_en (data G) i i y else data G)).
  { destruct (Z.leb_spec 0 i) as [Hi|Hi].
    - rewrite nodoAIndice_presente by done.
      by apply sumarElemento_sumar_en.
    - injection Ha as <-. destruct G; simpl.
      rewrite (proj1 (sumar_en_negativo _ i i y (or_introl Hi))).
      by destruct (presente _ _). }
  assert (H2 : G2 = mkMatrix (rows G) (cols G)
                 (if presente (nodoNegativo e) groundNode
                  then sumar_en (data G1) j j y else data G1)).
  { rewrite H1 in Ha0 at 1. destruct (Z.leb_spec 0 j) as [Hj|Hj].
    - rewrite nodoAIndice_presente by done.
      apply sumarElemento_sumar_en in Ha0. by rewrite H1 in *.
    - injection Ha0 as <-. simpl.
      rewrite (proj1 (sumar_en_negativo _ j j y (or_introl Hj))).
      rewrite H1. by destruct (presente (nodoNegativo e) _). }
  rewrite H1 in H2. simpl in H2.
  destruct (Z.leb_spec 0 i) as [Hi|Hi], (Z.leb_spec 0 j) as [Hj|Hj];
    simpl in H.
  - inv_bind H. apply sumarElemento_sumar_en in Ha1, H.
    rewrite sumar_menos in Ha1, H. subst a G'. simpl.
    rewrite H2. simpl. by rewrite !nodoAIndice_presente by done.
  - injection H as <-. rewrite H2. f_equal.
    rewrite (proj2 (sumar_en_negativo _ j i y (or_introl Hj))).
    rewrite (proj2 (sumar_en_negativo _ i j y (or_intror Hj))).
    by destruct (_ && _).
  - injection H as <-. rewrite H2. f_equal.
    rewrite (proj2 (sumar_en_negativo _ j i y (or_intror Hi))).
    rewrite (proj2 (sumar_en_negativo _ i j y (or_introl Hi))).
    by destruct (_ && _).
  - injection H as <-. rewrite H2. f_equal.
    rewrite (proj2 (sumar_en_negativo _ j i y (or_intror Hi))).
    rewrite (proj2 (sumar_en_negativo _ i j y (or_introl Hi))).
    by destruct (_ && _).
Qed.

Lemma forOf_fold_left {A} (body : Matrix -> A -> Exc Matrix)
    (F : list (list Cx) -> A -> list (list Cx)) (l : list A) :
  (forall M a M', body M a = inr M' ->
     M' = mkMatrix (rows M) (cols M) (F (data M) a)) ->
  forall M M', forOf body l M = inr M' ->
    M' = mkMatrix (rows M) (cols M) (fold_left F l (data M)).
Proof.
  intros Hbody. induction l as [|a l IH]; intros M M' H; simpl in *.
  - injection H as <-. by destruct M.
  - inv_bind H. apply Hbody in Ha as ->. by apply IH in H as ->.
Qed.

Lemma construirMatrizG_inr elementos numNodes groundNode f G :
  construirMatrizG elementos numNodes groundNode f = ok G ->
  (1 <= numNodes)%Z /\ G = G_referencia elementos numNodes groundNode f.
Proof.
  unfold construirMatrizG, G_referencia. intros H.
  inv_bind H. apply zeros_inr in Ha as (Hn & _ & ->).
  split; [lia|].
  by apply (forOf_fold_left _ (estampa_referencia groundNode f)) in H;
    [|apply estampar_inr].
Qed.

Lemma nodoAIndice_rango (nodo groundNode numNodes : Z) :
  (0 <= nodo < numNodes)%Z -> (0 <= groundNode < numNodes)%Z ->
  (-1 <= nodoAIndice nodo groundNode < numNodes - 1)%Z.
Proof.
  unfold nodoAIndice. intros Hn Hg.
  destruct (Z.eqb_spec nodo groundNode), (Z.ltb_spec nodo groundNode); lia.
Qed.

Lemma sumarElemento_okZ (M : Matrix) (i j : Z) (v : Cx) :
  (0 <= i < Z.of_nat (rows M))%Z -> (0 <= j < Z.of_nat (cols M))%Z ->
  exists M', sumarElemento M i j v = ok M' /\
             rows M' = rows M /\ cols M' = cols M.
Proof.
  intros Hi Hj.
  exists (mkMatrix (rows M) (cols M)
            (poner (data M) (Z.to_nat i) (Z.to_nat j)
               (entry M (Z.to_nat i) (Z.to_nat j) + v)%C)).
  split; [|done].
  rewrite <- (Z2Nat.id i) at 1 by lia. rewrite <- (Z2Nat.id j) at 1 by lia.
  apply sumarElemento_ok; lia.
Qed.

Lemma forOf_ok {A S} (P : S -> Prop) (Q : A -> Prop)
    (body : S -> A -> Exc S) (l : list A) :
  (forall s a, P s -> Q a -> exists s', body s a = ok s' /\ P s') ->
  Forall Q l ->
  forall s, P s -> exists s', forOf body l s = ok s' /\ P s'.
Proof.
  intros Hbody Hl. induction Hl as [|a l Ha _ IH]; intros s Hs; simpl.
  - eauto.
  - destruct (Hbody s a Hs Ha) as (s' & -> & Hs'). simpl. by apply IH.
Qed.

Lemma estampar_ok (groundNode numNodes : Z) (f omega : Qc) (G : Matrix)
    (e : Elemento) :
  (0 <= groundNode < numNodes)%Z ->
  terminales_validos numNodes e ->
  (tipo e = "R"%string -> valor e <> 0%Qc) ->
  rows G = Z.to_nat (numNodes - 1) /\ cols G = Z.to_nat (numNodes - 1) ->
  exists G', estampar groundNode f omega G e = ok G' /\
    (rows G' = Z.to_nat (numNodes - 1) /\ cols G' = Z.to_nat (numNodes - 1)).
Proof.
  intros Hg [Hp Hn] HR [Hr Hc]. unfold estampar.
  destruct (conductanciaDe_ok e f omega HR) as [y ->]. simpl.
  pose proof (nodoAIndice_rango _ _ _ Hp Hg) as Hi.
  pose proof (nodoAIndice_rango _ _ _ Hn Hg) as Hj.
  set (i := nodoAIndice (nodoPositivo e) groundNode) in *.
  set (j := nodoAIndice (nodoNegativo e) groundNode) in *.
  assert (H1 : exists G1,
    (if (0 <=? i)%Z then sumarElemento G i i y else ok G) = ok G1 /\
    rows G1 = rows G /\ cols G1 = cols G).
  { destruct (Z.leb_spec 0 i); [|by eauto]. apply sumarElemento_okZ; lia. }
  destruct H1 as (G1 & -> & Hr1 & Hc1). simpl.
  assert (H2 : exists G2,
    (if (0 <=? j)%Z then sumarElemento G1 j j y else ok G1) = ok G2 /\
    rows G2 = rows G /\ cols G2 = cols G).
  { destruct (Z.leb_spec 0 j).
    - destruct (sumarElemento_okZ G1 j j y) as (G2 & ? & ? & ?); try lia.
      exists G2. split; [done|]. split; congruence.
    - by eauto. }
  destruct H2 as (G2 & -> & Hr2 & Hc2). simpl.
  destruct (Z.leb_spec 0 i), (Z.leb_spec 0 j); simpl;
    try (exists G2; split; [done|]; split; congruence).
  destruct (sumarElemento_okZ G2 i j (multiply (RtoC (- (1))) y))
    as (G3 & -> & Hr3 & Hc3); try lia.
  simpl.
  destruct (sumarElemento_okZ G3 j i (multiply (RtoC (- (1))) y))
    as (G4 & -> & Hr4 & Hc4); try lia.
  exists G4. split; [done|]. split; congruence.
Qed.

Lemma construirMatrizG_ok elementos numNodes groundNode f :
  (1 <= numNodes)%Z -> (0 <= groundNode < numNodes)%Z ->
  Forall (estampable numNodes) elementos ->
  construirMatrizG elementos numNodes groundNode f =
  ok (G_referencia elementos numNodes groundNode f).
Proof.
  intros Hn Hg Hel.
  destruct (construirMatrizG elementos numNodes groundNode f) as [err|G]
    eqn:HG.
  - exfalso. unfold construirMatrizG in HG.
    rewrite zeros_ok in HG by lia. simpl in HG.
    destruct (forOf_ok
      (fun G : Matrix => rows G = Z.to_nat (numNodes - 1) /\
                         cols G = Z.to_nat (numNodes - 1))
      (fun e => terminales_validos numNodes e /\
                (tipo e = "R"%string -> valor e <> 0%Qc))
      (estampar groundNode f (2 * Math_PI * f))
      (List.filter (fun e => esTipo "R" e || esTipo "C" e || esTipo "L" e)
         elementos)) with (s := mkMatrix (Z.to_nat (numNodes - 1))
           (Z.to_nat (numNodes - 1))
           (replicate (Z.to_nat (numNodes - 1))
              (replicate (Z.to_nat (numNodes - 1)) Cero)))
      as (G' & HG' & _).
    + intros G e HG0 [He HR]. by apply (estampar_ok _ numNodes).
    + rewrite List.Forall_forall in Hel. apply List.Forall_forall.
      intros e [He Hpas]%filter_In. by apply Hel.
    + done.
    + cbv zeta in HG. rewrite HG' in HG. discriminate.
  - f_equal. by apply construirMatrizG_inr in HG as [_ ->].
Qed.

(** C2. The matrix that [construirMatrizG] returns is the matrix of the
    stamping rule of the specification, [G_referencia]; and on a circuit
    whose passive elements can be stamped it does return it. *)
Theorem construirMatrizG_estampado elementos numNodes groundNode f :
  (forall G, construirMatrizG elementos numNodes groundNode f = ok G ->
     G = G_referencia elementos numNodes groundNode f) /\
  ((1 <= numNodes)%Z -> (0 <= groundNode < numNodes)%Z ->
   Forall (estampable numNodes) elementos ->
   construirMatrizG elementos numNodes groundNode f =
   ok (G_referencia elementos numNodes groundNode f)).
Proof.
  split.
  - intros G HG. by apply construirMatrizG_inr in HG as [_ ->].
  - apply construirMatrizG_ok.
Qed.

Lemma construirMatrizG_estampado_witness :
  construirMatrizG divisor 3 0 0 = ok (G_referencia divisor 3 0 0).
Proof.
  apply (construirMatrizG_estampado divisor 3 0 0); [lia|lia|].
  repeat constructor; simpl; try lia; try discriminate.
Defined.

(** ** Degenerate elements *)

Lemma forOf_app {A S} (body : S -> A -> Exc S) (l1 l2 : list A) (s : S) :
  forOf body (l1 ++ l2) s =
  (let* s' := forOf body l1 s in forOf body l2 s').
Proof.
  revert s. induction l1 as [|a l1 IH]; intros s; simpl; [done|].
  destruct (body s a); simpl; [done|]. apply IH.
Qed.

(** C5, as the claim states it, fails: a resistor of negative value, a
    capacitor of value 0 and an inductor of negative value are stamped
    like any other element and [construirMatrizG] returns a matrix. *)
Lemma resistor_negativo_estampado :
  let r := mkElemento "R" "R1" 1 0 (qc (-5) 1) in
  let c := mkElemento "C" "C1" 1 0 0 in
  let l := mkElemento "L" "L1" 1 0 (qc (-1) 1) in
  (valor r < 0)%Qc /\ valor c = 0%Qc /\ (valor l < 0)%Qc /\
  (exists G, construirMatrizG [r] 2 0 0 = ok G /\
             vale (Some (entry G 0 0)) (-1 # 5) 0 = true) /\
  (exists G, construirMatrizG [c] 2 0 (qc 50 1) = ok G /\
             vale (Some (entry G 0 0)) 0 0 = true) /\
  (exists G, construirMatrizG [l] 2 0 0 = ok G /\
             vale (Some (entry G 0 0)) 1000000000000 0 = true).
Proof.
  split; [reflexivity|]. split; [reflexivity|]. split; [reflexivity|].
  repeat split; eexists;
    (split;
     [ apply construirMatrizG_ok; [lia|lia|];
       repeat constructor; simpl; try lia; discriminate
     | by vm_compute ]).
Qed.

(** C5, amended. A resistor of value exactly 0 makes [construirMatrizG]
    fail: its stamp raises the error before any entry is changed, so no
    matrix is returned; when the elements before it are stamped without
    error, the error raised is the one that names the resistor. *)
Theorem resistor_cero_rechazado (pre post : list Elemento) (r : Elemento)
    (numNodes groundNode : Z) (f : Qc) :
  tipo r = "R"%string -> valor r = 0%Qc ->
  (forall G omega,
     estampar groundNode f omega G r =
     throw ("Resistor " +:+ nombre r +:+ " tiene valor cero (cortocircuito)"))
  /\
  (exists err,
     construirMatrizG (pre ++ r :: post) numNodes groundNode f = inl err) /\
  (forall G0, construirMatrizG pre numNodes groundNode f = ok G0 ->
     construirMatrizG (pre ++ r :: post) numNodes groundNode f =
     throw ("Resistor " +:+ nombre r +:+ " tiene valor cero (cortocircuito)")).
Proof.
  intros Ht Hv.
  assert (Hst : forall G omega,
     estampar groundNode f omega G r =
     throw ("Resistor " +:+ nombre r +:+ " tiene valor cero (cortocircuito)")).
  { intros G omega. unfold estampar, conductanciaDe, esTipo.
    rewrite Ht. simpl. destruct (decide (valor r = 0%Qc)); done. }
  assert (Hfil :
    List.filter (fun e => esTipo "R" e || esTipo "C" e || esTipo "L" e)
      (pre ++ r :: post) =
    List.filter (fun e => esTipo "R" e || esTipo "C" e || esTipo "L" e) pre
    ++ r :: List.filter
              (fun e => esTipo "R" e || esTipo "C" e || esTipo "L" e) post).
  { rewrite List.filter_app. simpl. unfold esTipo at 4. by rewrite Ht. }
  split; [done|].
  unfold construirMatrizG. rewrite Hfil.
  destruct (zeros (numNodes - 1) (numNodes - 1)) as [e0|Z0]; simpl.
  { split; [eauto|discriminate]. }
  rewrite forOf_app.
  destruct (forOf _ _ Z0) as [e1|G1]; simpl.
  { split; [eauto|discriminate]. }
  rewrite Hst. simpl. split; [eauto|done].
Qed.

Lemma resistor_cero_rechazado_witness :
  construirMatrizG
    [mkElemento "R" "R1" 1 2 (qc 1000 1); mkElemento "R" "R2" 2 0 0] 3 0 0 =
  throw "Resistor R2 tiene valor cero (cortocircuito)".
Proof.
  destruct (resistor_cero_rechazado [mkElemento "R" "R1" 1 2 (qc 1000 1)] []
              (mkElemento "R" "R2" 2 0 0) 3 0 0 eq_refl eq_refl)
    as (_ & _ & H).
  apply (H (G_referencia [mkElemento "R" "R1" 1 2 (qc 1000 1)] 3 0 0)).
  apply construirMatrizG_ok; [lia|lia|].
  repeat constructor; simpl; try lia; discriminate.
Defined.

(** ** Admittances *)

(** [construirMatrizG] stamps the passive elements in the order of the
    list: a passive element put at the end is stamped last, on the matrix
    of the elements before it. *)
Lemma construirMatrizG_ultimo elementos e numNodes groundNode f G :
  construirMatrizG elementos numNodes groundNode f = ok G ->
  es_pasivo e = true ->
  construirMatrizG (elementos ++ [e]) numNodes groundNode f =
  estampar groundNode f (2 * Math_PI * f) G e.
Proof.
  unfold construirMatrizG. intros H Hp. inv_bind H. rewrite Ha, bind_ok.
  cbv zeta in H |- *.
  rewrite List.filter_app, forOf_app, H, bind_ok. cbn [List.filter].
  replace (esTipo "R" e || esTipo "C" e || esTipo "L" e) with true
    by (symmetry; exact Hp).
  cbn [forOf]. by destruct (estampar _ _ _ _ _).
Qed.

Lemma construirMatrizG_estampa elementos e numNodes groundNode f G :
  construirMatrizG elementos numNodes groundNode f = ok G ->
  (0 <= groundNode < numNodes)%Z -> terminales_validos numNodes e ->
  es_pasivo e = true -> (tipo e = "R"%string -> valor e <> 0%Qc) ->
  construirMatrizG (elementos ++ [e]) numNodes groundNode f =
  ok (mkMatrix (rows G) (cols G)
        (estampa_con (conductancia_referencia e f) groundNode (data G) e)).
Proof.
  intros HG Hg Ht Hp Hv.
  rewrite (construirMatrizG_ultimo _ _ _ _ _ G) by done.
  pose proof HG as [_ HG']%construirMatrizG_inr.
  destruct (estampar_ok groundNode numNodes f (2 * Math_PI * f) G e)
    as (G' & HG'' & _); try done.
  { by rewrite HG'. }
  rewrite HG''. by apply estampar_inr in HG'' as ->.
Qed.

(** C3. The admittance [construirMatrizG] stamps for a capacitor is 0 at
    frequency 0 and [j 2 pi f valor] at another frequency [f]; for an
    inductor of a value other than 0, at a frequency [f] other than 0, it
    is [-j / (2 pi f valor)]. Both are purely imaginary. The element is
    taken at the end of the list, where its stamp is the last one, on the
    matrix [G] of the elements before it. For an inductor of value 0 the
    source divides by zero, which the exact scalars do not model. *)
Theorem conductancia_reactiva elementos e numNodes groundNode f G :
  construirMatrizG elementos numNodes groundNode f = ok G ->
  (0 <= groundNode < numNodes)%Z -> terminales_validos numNodes e ->
  let estampado y :=
    ok (mkMatrix (rows G) (cols G) (estampa_con y groundNode (data G) e)) in
  (tipo e = "C"%string -> f = 0%Qc ->
     construirMatrizG (elementos ++ [e]) numNodes groundNode f =
     estampado Cero) /\
  (tipo e = "C"%string -> f <> 0%Qc ->
     construirMatrizG (elementos ++ [e]) numNodes groundNode f =
     estampado (mkCx 0 (2 * Math_PI * f * valor e))) /\
  (tipo e = "L"%string -> f <> 0%Qc -> valor e <> 0%Qc ->
     construirMatrizG (elementos ++ [e]) numNodes groundNode f =
     estampado (mkCx 0 (- (1 / (2 * Math_PI * f * valor e))))).
Proof.
  intros HG Hg Ht estampado.
  assert (H : forall t, tipo e = t -> (t = "C" \/ t = "L")%string ->
    construirMatrizG (elementos ++ [e]) numNodes groundNode f =
    estampado (conductancia_referencia e f)).
  { intros t Ht' Hcl. apply construirMatrizG_estampa; try done.
    - unfold es_pasivo. rewrite Ht'. by destruct Hcl as [->| ->].
    - rewrite Ht'. by destruct Hcl as [->| ->]. }
  split; [|split].
  - intros HC Hf. rewrite (H _ HC) by auto.
    unfold conductancia_referencia. rewrite HC. simpl.
    by rewrite decide_True by done.
  - intros HC Hf. rewrite (H _ HC) by auto.
    unfold conductancia_referencia. rewrite HC. simpl.
    by rewrite decide_False by done.
  - intros HL Hf _. rewrite (H _ HL) by auto.
    unfold conductancia_referencia. rewrite HL. simpl.
    by rewrite decide_False by done.
Qed.

Lemma conductancia_reactiva_witness :
  construirMatrizG
    ([mkElemento "R" "R1" 1 2 (qc 1000 1)] ++
     [mkElemento "L" "L1" 2 0 (qc 1 100)]) 3 0 (qc 50 1) =
  ok (mkMatrix 2 2
        (estampa_con (mkCx 0 (- (1 / (2 * Math_PI * qc 50 1 * qc 1 100)))) 0
           (data (G_referencia [mkElemento "R" "R1" 1 2 (qc 1000 1)] 3 0
                    (qc 50 1)))
           (mkElemento "L" "L1" 2 0 (qc 1 100)))).
Proof.
  apply (conductancia_reactiva [mkElemento "R" "R1" 1 2 (qc 1000 1)]
           (mkElemento "L" "L1" 2 0 (qc 1 100)) 3 0 (qc 50 1)
           (G_referencia [mkElemento "R" "R1" 1 2 (qc 1000 1)] 3 0 (qc 50 1))).
  - apply construirMatrizG_ok; [lia|lia|].
    repeat constructor; simpl; try lia; try discriminate.
  - lia.
  - split; simpl; lia.
  - reflexivity.
  - discriminate.
  - discriminate.
Defined.

(** ** Shapes *)

Lemma forma_alter (n c : nat) (d : list (list Cx)) (g : Cx -> Cx)
    (a b : nat) :
  forma n c d -> forma n c (alter (alter g b) a d).
Proof.
  intros [Hl Hr]. split; [by rewrite length_alter|].
  apply Forall_alter; [done|]. intros r _ <-. apply length_alter.
Qed.

Lemma forma_estampa_referencia (n c : nat) (groundNode : Z) (f : Qc)
    (d : list (list Cx)) (e : Elemento) :
  forma n c d -> forma n c (estampa_referencia groundNode f d e).
Proof.
  intros Hd. unfold estampa_referencia, sumar_en, restar_en.
  repeat match goal with
         | |- context [if ?b then _ else _] => destruct b
         end; repeat apply forma_alter; done.
Qed.

Lemma G_referencia_forma elementos numNodes groundNode f :
  forma (Z.to_nat (numNodes - 1)) (Z.to_nat (numNodes - 1))
    (data (G_referencia elementos numNodes groundNode f)).
Proof.
  unfold G_referencia. simpl.
  generalize (List.filter es_pasivo elementos). intros l.
  assert (H0 : forma (Z.to_nat (numNodes - 1)) (Z.to_nat (numNodes - 1))
                 (replicate (Z.to_nat (numNodes - 1))
                    (replicate (Z.to_nat (numNodes - 1)) Cero))).
  { split; [apply length_replicate|].
    apply Forall_replicate, length_replicate. }
  revert H0. generalize (replicate (Z.to_nat (numNodes - 1))
                           (replicate (Z.to_nat (numNodes - 1)) Cero)).
  induction l as [|e l IH]; intros d Hd; simpl; [done|].
  by apply IH, forma_estampa_referencia.
Qed.

Lemma forOf_inv {A S} (P : S -> Prop) (body : S -> A -> Exc S)
    (l : list A) :
  (forall s a s', P s -> body s a = inr s' -> P s') ->
  forall s s', P s -> forOf body l s = inr s' -> P s'.
Proof.
  intros Hbody. induction l as [|a l IH]; intros s s' Hs H; simpl in H.
  - by injection H as <-.
  - inv_bind H. eapply IH; [|done]. by eapply Hbody.
Qed.

Lemma construirVectorI_inr elementos numNodes groundNode i :
  construirVectorI elementos numNodes groundNode = ok i ->
  rows i = Z.to_nat (numNodes - 1) /\ cols i = 1%nat.
Proof.
  unfold construirVectorI. intros H. inv_bind H.
  apply zeros_inr in Ha as (_ & _ & ->).
  revert H. apply (forOf_inv (fun M => rows M = _ /\ cols M = 1%nat));
    [|done].
  intros M e M' [Hr Hc] H. unfold inyectar in H. inv_bind H.
  assert (rows a = rows M /\ cols a = cols M) as [Hr1 Hc1].
  { destruct (0 <=? _)%Z; [|by injection Ha as <-].
    by apply sumarElemento_inr in Ha as (? & ? & _ & _ & _ & _ & ->). }
  destruct (0 <=? _)%Z in H; [|injection H as <-; split; congruence].
  apply sumarElemento_inr in H as (? & ? & _ & _ & _ & _ & ->).
  simpl. split; congruence.
Qed.


Lemma validar_inr elementos numNodes groundNode f (u : unit) :
  validar elementos numNodes groundNode f = inr u ->
  elementos <> [] /\ (2 <= numNodes)%Z /\ (0 <= groundNode < numNodes)%Z /\
  (0 <= f)%Qc.
Proof.
  unfold validar. intros H.
  destruct elementos as [|e0 elementos']; [discriminate|].
  destruct (Z.ltb_spec numNodes 2); [discriminate|].
  destruct (Z.ltb_spec groundNode 0); [discriminate|].
  destruct (Z.leb_spec numNodes groundNode); [discriminate|].
  simpl in H. unfold Qc_ltb in H.
  destruct (Qclt_le_dec f 0); [discriminate|].
  repeat split; (done || lia).
Qed.

Lemma validar_ok elementos numNodes groundNode f :
  elementos <> [] -> (2 <= numNodes)%Z -> (0 <= groundNode < numNodes)%Z ->
  (0 <= f)%Qc ->
  validar elementos numNodes groundNode f = ok tt.
Proof.
  intros Hne Hn Hg Hf. unfold validar.
  destruct elementos as [|e0 elementos']; [done|].
  rewrite (proj2 (Z.ltb_ge numNodes 2)) by lia.
  rewrite (proj2 (Z.ltb_ge groundNode 0)) by lia.
  rewrite (proj2 (Z.leb_gt numNodes groundNode)) by lia.
  simpl. unfold Qc_ltb. destruct (Qclt_le_dec f 0) as [Hlt|_]; [|done].
  exfalso. by eapply Qclt_not_le.
Qed.

(** ** [math.concat] and [math.transpose] *)

Lemma find_ninguno {A} (p : A -> bool) (l : list A) :
  Forall (fun x => p x = false) l -> find p l = None.
Proof. induction 1 as [|x l Hx _ IH]; simpl; [done|]. by rewrite Hx. Qed.

(** [math.matrix] on an array with at least one row, all of a length. *)
Lemma matrix_forma (n c : nat) (d : list (list Cx)) :
  forma n c d -> (0 < n)%nat -> matrix d = ok (mkMatrix n c d).
Proof.
  intros [Hl Hr] Hn. destruct d as [|r d]; simpl in Hl; [lia|].
  unfold matrix.
  assert (Hc : length r = c) by (by inversion Hr).
  rewrite find_ninguno; [by rewrite Hc, <- Hl|].
  eapply Forall_impl; [exact Hr|]. intros r' Hr'. simpl in Hr'.
  rewrite Hr', Hc. by rewrite Nat.eqb_refl.
Qed.

Lemma dimensiones_filas (M : Matrix) :
  length (data M) = rows M ->
  dimensiones (data M) = if (rows M =? 0)%nat then 1%Z else 2%Z.
Proof. intros <-. by destruct (data M). Qed.

Lemma nth_zip_app (dA dB : list (list Cx)) (i : nat) :
  length dA = length dB ->
  nth i (zip_with app dA dB) [] = nth i dA [] ++ nth i dB [].
Proof.
  revert dB i. induction dA as [|r dA IH]; intros [|r' dB] [|i] Hl;
    simpl in *; try done. apply IH. lia.
Qed.

Lemma forma_zip_app (n c c' : nat) (dA dB : list (list Cx)) :
  forma n c dA -> forma n c' dB -> forma n (c + c') (zip_with app dA dB).
Proof.
  intros [HlA HrA] [HlB HrB]. split.
  - rewrite length_zip_with. lia.
  - apply Forall_lookup. intros i r Hr.
    apply lookup_zip_with_Some in Hr as (x & y & -> & Hx & Hy).
    rewrite length_app.
    rewrite (proj1 (Forall_lookup _ _) HrA i x Hx).
    by rewrite (proj1 (Forall_lookup _ _) HrB i y Hy).
Qed.

Lemma forma_app (n n' c : nat) (dA dB : list (list Cx)) :
  forma n c dA -> forma n' c dB -> forma (n + n') c (dA ++ dB).
Proof.
  intros [HlA HrA] [HlB HrB]. split.
  - rewrite length_app. lia.
  - by apply Forall_app.
Qed.

Lemma forma_fila (n c : nat) (d : list (list Cx)) (i : nat) :
  forma n c d -> (i < n)%nat -> length (nth i d []) = c.
Proof.
  intros [Hl Hr] Hi.
  destruct (lookup_lt_is_Some_2 d i) as [r Hri]; [lia|].
  rewrite (nth_lookup_Some _ _ _ _ Hri).
  by apply (proj1 (Forall_lookup _ _) Hr i).
Qed.

Lemma entrada_ceros (n c i j : nat) :
  nth j (nth i (replicate n (replicate c Cero)) []) Cero = Cero.
Proof.
  destruct (decide (i < n)%nat).
  - rewrite (nth_lookup_Some _ _ _ (replicate c Cero))
      by (by apply lookup_replicate_2).
    destruct (decide (j < c)%nat).
    + apply nth_lookup_Some. by apply lookup_replicate_2.
    + apply nth_overflow. rewrite length_replicate. lia.
  - rewrite (nth_overflow (replicate n _)) by (rewrite length_replicate; lia).
    by destruct j.
Qed.

Lemma forma_ceros (n c : nat) : forma n c (replicate n (replicate c Cero)).
Proof.
  split; [apply length_replicate|].
  apply Forall_replicate, length_replicate.
Qed.

(** On matrices that have a row, [math.concat] returns when the sides
    fit: the array of the result is the one of the two arrays side by
    side, or one above the other. *)
Lemma concat_lado (A B : Matrix) :
  bien_formada A -> bien_formada B -> rows A = rows B -> (0 < rows A)%nat ->
  concat A B 1 =
  ok (mkMatrix (rows A) (cols A + cols B) (zip_with app (data A) (data B))).
Proof.
  intros HA HB Heq Hpos. unfold concat.
  rewrite !dimensiones_filas by (by destruct HA, HB).
  rewrite <- Heq. destruct (Nat.eqb_spec (rows A) 0) as [|_]; [lia|].
  simpl. destruct HA as [HlA HrA], HB as [HlB HrB].
  rewrite HlA, HlB, <- Heq, Nat.eqb_refl. simpl.
  apply matrix_forma; [|done].
  apply forma_zip_app; split; (done || lia).
Qed.

Lemma concat_debajo (A B : Matrix) :
  bien_formada A -> bien_formada B -> cols A = cols B ->
  (0 < rows A)%nat -> (0 < rows B)%nat ->
  concat A B 0 =
  ok (mkMatrix (rows A + rows B) (cols A) (data A ++ data B)).
Proof.
  intros HA HB Heq HposA HposB. unfold concat.
  rewrite !dimensiones_filas by (by destruct HA, HB).
  destruct (Nat.eqb_spec (rows A) 0) as [|_]; [lia|].
  destruct (Nat.eqb_spec (rows B) 0) as [|_]; [lia|].
  simpl. apply matrix_forma; [|lia].
  apply forma_app; [done|]. rewrite Heq. exact HB.
Qed.

(** A side without rows makes [math.concat] raise: its array has one
    dimension, which is fewer than the other side has or than [dim = 1]
    asks for. Below a matrix that has a row, or above it, a matrix
    without rows is refused too. *)
Lemma concat_sin_filas (A B : Matrix) (dim : Z) :
  length (data A) = rows A -> length (data B) = rows B ->
  (rows A = 0%nat \/ rows B = 0%nat) ->
  (dim = 1%Z \/ (dim = 0%Z /\ rows A <> rows B)) ->
  exists msg, concat A B dim = throw msg.
Proof.
  intros HlA HlB H0 Hdim. unfold concat.
  rewrite !dimensiones_filas by done.
  destruct (Nat.eqb_spec (rows A) 0) as [HA|HA],
           (Nat.eqb_spec (rows B) 0) as [HB|HB]; simpl; try by eexists.
  - destruct Hdim as [->|[-> Hne]]; [by eexists|lia].
  - lia.
Qed.

(** The errors of these two cases, as math.js words them. *)
Lemma concat_sobre_vacia (A B : Matrix) (dim : Z) :
  length (data A) = rows A -> length (data B) = rows B ->
  (0 < rows A)%nat -> rows B = 0%nat ->
  concat A B dim = throw "Dimension mismatch (2 != 1)".
Proof.
  intros HlA HlB HA HB. unfold concat.
  rewrite !dimensiones_filas by done. rewrite HB.
  by destruct (Nat.eqb_spec (rows A) 0) as [|_]; [lia|].
Qed.

Lemma concat_vacias_lado (A B : Matrix) :
  length (data A) = rows A -> length (data B) = rows B ->
  rows A = 0%nat -> rows B = 0%nat ->
  concat A B 1 = throw "Index out of range (1 > 0)".
Proof.
  intros HlA HlB HA HB. unfold concat.
  rewrite !dimensiones_filas by done. by rewrite HA, HB.
Qed.

Lemma entrada_concat_lado (A B : Matrix) (i j : nat) :
  bien_formada A -> bien_formada B -> rows A = rows B -> (i < rows A)%nat ->
  nth j (nth i (zip_with app (data A) (data B)) []) Cero =
  if decide (j < cols A)%nat then entry A i j else entry B i (j - cols A).
Proof.
  intros HA HB Heq Hi. unfold entry.
  rewrite nth_zip_app by (destruct HA, HB; lia).
  pose proof (forma_fila _ _ _ i HA Hi) as Hlen.
  destruct (decide (j < cols A)%nat).
  - by rewrite app_nth1 by lia.
  - by rewrite app_nth2, Hlen by lia.
Qed.

Lemma entrada_concat_debajo (A B : Matrix) (i j : nat) :
  bien_formada A ->
  nth j (nth i (data A ++ data B) []) Cero =
  if decide (i < rows A)%nat then entry A i j else entry B (i - rows A) j.
Proof.
  intros [HlA _]. unfold entry.
  destruct (decide (i < rows A)%nat).
  - by rewrite app_nth1 by lia.
  - by rewrite app_nth2, HlA by lia.
Qed.

Lemma concat_derecha (A B : Matrix) :
  bien_formada A -> bien_formada B -> rows A = rows B -> (0 < rows A)%nat ->
  exists M, concat A B 1 = ok M /\ bien_formada M /\
    rows M = rows A /\ cols M = (cols A + cols B)%nat /\
    forall i j, (i < rows A)%nat ->
      entry M i j =
      if decide (j < cols A)%nat then entry A i j
      else entry B i (j - cols A).
Proof.
  intros HA HB Heq Hpos. rewrite concat_lado by done.
  eexists. split; [done|].
  assert (HB' : forma (rows A) (cols B) (data B))
    by (rewrite Heq; exact HB).
  split; [by apply forma_zip_app|]. simpl. split; [done|]. split; [done|].
  intros i j Hi. by apply entrada_concat_lado.
Qed.

Lemma concat_abajo (A B : Matrix) :
  bien_formada A -> bien_formada B -> cols A = cols B ->
  (0 < rows A)%nat -> (0 < rows B)%nat ->
  exists M, concat A B 0 = ok M /\ bien_formada M /\
    rows M = (rows A + rows B)%nat /\ cols M = cols A /\
    forall i j,
      entry M i j =
      if decide (i < rows A)%nat then entry A i j
      else entry B (i - rows A) j.
Proof.
  intros HA HB Heq HposA HposB. rewrite concat_debajo by done.
  eexists. split; [done|].
  assert (HB' : forma (rows B) (cols A) (data B))
    by (rewrite Heq; exact HB).
  split; [by apply forma_app|]. simpl. split; [done|]. split; [done|].
  intros i j. by apply entrada_concat_debajo.
Qed.

(** [math.transpose] refuses a matrix without columns and returns the
    transposed matrix otherwise. *)
Lemma transpose_sin_columnas (B : Matrix) :
  cols B = 0%nat ->
  transpose B =
  throw ("Cannot transpose a 2D matrix with no columns (size: [" +:+
         numero (Z.of_nat (rows B)) +:+ ", 0])").
Proof. intros H. unfold transpose. by rewrite H. Qed.

Lemma transpose_ok (B : Matrix) :
  (0 < cols B)%nat ->
  transpose B =
  ok (mkMatrix (cols B) (rows B)
        (map (fun j => map (fun r => nth j r Cero) (data B))
             (seq 0 (cols B)))).
Proof.
  intros H. unfold transpose.
  by destruct (Nat.eqb_spec (cols B) 0) as [|_]; [lia|].
Qed.

Lemma transpose_inr (B C : Matrix) :
  transpose B = ok C ->
  (0 < cols B)%nat /\
  C = mkMatrix (cols B) (rows B)
        (map (fun j => map (fun r => nth j r Cero) (data B))
             (seq 0 (cols B))).
Proof.
  unfold transpose. destruct (Nat.eqb_spec (cols B) 0); [discriminate|].
  intros [= <-]. split; [lia|done].
Qed.

Lemma entrada_transpose (B C : Matrix) (i j : nat) :
  transpose B = ok C ->
  (j < cols B)%nat -> entry C j i = entry B i j.
Proof.
  intros [_ ->]%transpose_inr Hj. unfold entry. simpl.
  rewrite (nth_map_seq (fun j => map (fun r => nth j r Cero) (data B)))
    by done.
  apply (nth_columna j i).
Qed.

Lemma transpose_bien_formada (B C : Matrix) :
  transpose B = ok C -> bien_formada B ->
  bien_formada C /\ rows C = cols B /\ cols C = rows B.
Proof.
  intros [_ ->]%transpose_inr [Hl Hr]. split; [|done]. split; simpl.
  - by rewrite length_map, length_seq.
  - apply Forall_map, Forall_forall. intros j _. simpl.
    by rewrite length_map.
Qed.

(** ** Circuits without voltage sources *)

Lemma construirVectorI_filas elementos numNodes groundNode i :
  construirVectorI elementos numNodes groundNode = ok i ->
  length (data i) = rows i.
Proof.
  unfold construirVectorI. intros H. inv_bind H.
  apply zeros_inr in Ha as (_ & _ & ->).
  revert H. apply (forOf_inv (fun M => length (data M) = rows M)).
  2:{ simpl. by rewrite length_replicate. }
  intros M e M' Hl H. unfold inyectar in H. inv_bind H.
  assert (length (data a) = rows a) as Hl1.
  { destruct (0 <=? _)%Z; [|by injection Ha as <-].
    apply sumarElemento_inr in Ha as (? & ? & _ & _ & _ & _ & ->).
    simpl. unfold poner. by rewrite length_alter. }
  destruct (0 <=? _)%Z in H; [|by injection H as <-].
  apply sumarElemento_inr in H as (? & ? & _ & _ & _ & _ & ->).
  simpl. unfold poner. by rewrite length_alter.
Qed.

Lemma construirMatrizB_sin_fuentes elementos numNodes groundNode :
  List.filter (esTipo "V") elementos = [] -> (1 <= numNodes)%Z ->
  construirMatrizB elementos numNodes groundNode =
  ok (mkMatrix (Z.to_nat (numNodes - 1)) 0
        (replicate (Z.to_nat (numNodes - 1)) [])).
Proof.
  intros HV Hn. unfold construirMatrizB. rewrite HV. simpl.
  by rewrite zeros_ok by lia.
Qed.

(** Without voltage source the [try] block of [analizarCircuito] stops
    at [construirMatrizC], when nothing stopped it before. *)
Lemma analizarCircuito_try_sin_fuentes elementos numNodes groundNode f :
  List.filter (esTipo "V") elementos = [] ->
  exists msg,
    analizarCircuito_try elementos numNodes groundNode f = throw msg /\
    forall G,
      validar elementos numNodes groundNode f = ok tt ->
      construirMatrizG elementos numNodes groundNode f = ok G ->
      msg = ("Cannot transpose a 2D matrix with no columns (size: [" +:+
             numero (numNodes - 1) +:+ ", 0])").
Proof.
  intros HV. unfold analizarCircuito_try.
  destruct (validar elementos numNodes groundNode f) as [[msg]|[]] eqn:Hval.
  { exists msg. split; [done|]. intros G [=]. }
  apply validar_inr in Hval as (_ & Hn & _ & _).
  destruct (construirMatrizG elementos numNodes groundNode f)
    as [[msg]|G] eqn:HG.
  { exists msg. split; [done|]. intros G' _ [=]. }
  rewrite !bind_ok, (construirMatrizB_sin_fuentes _ _ _ HV) by lia.
  rewrite bind_ok. unfold construirMatrizC.
  rewrite transpose_sin_columnas by done. simpl.
  rewrite Z2Nat.id by lia. eexists. split; [done|]. done.
Qed.

(** C10. Without voltage source [construirMatrizB] returns the matrix of
    [numNodes - 1] rows and no column and [construirVectorE] the vector
    of no row, but no system is assembled from them: [math.transpose]
    refuses the matrix without columns, so [construirMatrizC] raises, and
    [math.concat] refuses the vector without rows, so [ensamblarVectorZ]
    would raise too. [analizarCircuito] fails on every circuit without
    voltage source, with the error of [math.transpose] when the guards are
    passed and the conductance block is built. *)
Theorem sin_fuentes_de_voltaje_falla elementos numNodes groundNode f :
  List.filter (esTipo "V") elementos = [] ->
  ((2 <= numNodes)%Z ->
   exists B,
     construirMatrizB elementos numNodes groundNode = ok B /\
     rows B = Z.to_nat (numNodes - 1) /\ cols B = 0%nat /\
     construirMatrizC B =
     throw ("Cannot transpose a 2D matrix with no columns (size: [" +:+
            numero (numNodes - 1) +:+ ", 0])")) /\
  construirVectorE elementos = ok (mkMatrix 0 1 []) /\
  ((2 <= numNodes)%Z ->
   forall i, construirVectorI elementos numNodes groundNode = ok i ->
     ensamblarVectorZ i (mkMatrix 0 1 []) =
     throw "Dimension mismatch (2 != 1)") /\
  exito (analizarCircuito elementos numNodes groundNode f) = false /\
  (elementos <> [] -> (2 <= numNodes)%Z -> (0 <= groundNode < numNodes)%Z ->
   (0 <= f)%Qc ->
   forall G, construirMatrizG elementos numNodes groundNode f = ok G ->
     analizarCircuito elementos numNodes groundNode f =
     fallo ("Cannot transpose a 2D matrix with no columns (size: [" +:+
            numero (numNodes - 1) +:+ ", 0])")).
Proof.
  intros HV.
  destruct (analizarCircuito_try_sin_fuentes elementos numNodes groundNode f
              HV) as (msg & Htry & Hmsg).
  split; [|split; [|split; [|split]]].
  - intros Hn. eexists.
    split; [apply construirMatrizB_sin_fuentes; [done|lia]|].
    split; [done|]. split; [done|].
    unfold construirMatrizC. rewrite transpose_sin_columnas by done.
    simpl. by rewrite Z2Nat.id by lia.
  - unfold construirVectorE. by rewrite HV.
  - intros Hn i Hi. unfold ensamblarVectorZ.
    pose proof Hi as [Hr Hc]%construirVectorI_inr.
    apply concat_sobre_vacia; [|done|lia|done].
    by apply construirVectorI_filas in Hi.
  - unfold analizarCircuito. by rewrite Htry.
  - intros Hne Hn Hg Hf G HG. unfold analizarCircuito. rewrite Htry.
    rewrite (Hmsg G); [done| |done]. by apply validar_ok.
Qed.

Lemma sin_fuentes_de_voltaje_falla_witness :
  analizarCircuito sin_fuente_de_voltaje 2 0 0 =
  fallo "Cannot transpose a 2D matrix with no columns (size: [1, 0])".
Proof.
  destruct (sin_fuentes_de_voltaje_falla sin_fuente_de_voltaje 2 0 0 eq_refl)
    as (_ & _ & _ & _ & H).
  destruct (construirMatrizG sin_fuente_de_voltaje 2 0 0) as [e|G] eqn:HG;
    [by vm_compute in HG|].
  apply (H ltac:(discriminate) ltac:(lia) ltac:(lia) ltac:(done) G eq_refl).
Defined.

(** ** The connectivity scan *)

Lemma faltan_mono (elementos : list Elemento) (X Y : gset Z) :
  X ⊆ Y -> (faltan elementos Y <= faltan elementos X)%nat.
Proof.
  intros HXY. unfold faltan.
  induction (terminales elementos) as [|t ts IH]; simpl; [done|].
  destruct (bool_decide_reflect (t ∈ X)) as [HX|HX]; simpl.
  - rewrite bool_decide_eq_true_2 by set_solver. done.
  - destruct (bool_decide (t ∈ Y)); simpl; lia.
Qed.

Lemma faltan_menos (elementos : list Elemento) (X : gset Z) (t : Z) :
  In t (terminales elementos) -> t ∉ X ->
  (faltan elementos ({[t]} ∪ X) < faltan elementos X)%nat.
Proof.
  intros Ht HX. unfold faltan.
  induction (terminales elementos) as [|t' ts IH]; simpl; [done|].
  destruct Ht as [->|Ht].
  - rewrite bool_decide_eq_true_2 by set_solver.
    rewrite bool_decide_eq_false_2 by done. simpl.
    pose proof (faltan_mono elementos X ({[t]} ∪ X)) as Hm.
    assert (Hle : (length (List.filter
                     (fun t0 => negb (bool_decide (t0 ∈ {[t]} ∪ X))) ts)
                   <= length (List.filter
                     (fun t0 => negb (bool_decide (t0 ∈ X))) ts))%nat).
    { clear. induction ts as [|s ts IH]; simpl; [done|].
      destruct (bool_decide_reflect (s ∈ X)) as [HX|HX]; simpl.
      - rewrite bool_decide_eq_true_2 by set_solver. done.
      - destruct (bool_decide (s ∈ {[t]} ∪ X)); simpl; lia. }
    lia.
  - specialize (IH Ht).
    destruct (bool_decide_reflect (t' ∈ X)) as [HX'|HX']; simpl.
    + rewrite bool_decide_eq_true_2 by set_solver. done.
    + destruct (bool_decide (t' ∈ {[t]} ∪ X)); simpl; lia.
Qed.

Lemma terminales_In (elementos : list Elemento) (e : Elemento) :
  In e elementos ->
  In (nodoPositivo e) (terminales elementos) /\
  In (nodoNegativo e) (terminales elementos).
Proof.
  intros He. unfold terminales. rewrite !in_flat_map.
  split; exists e; simpl; auto.
Qed.

(** One step of the scan either leaves the state alone, and then the
    element does not leave the set, or adds a terminal that was missing
    and is joined to the set. *)
Lemma visitar_caso (elementos : list Elemento) (groundNode : Z)
    (X : gset Z) (cambio : bool) (e : Elemento) :
  In e elementos ->
  (visitar (X, cambio) e = (X, cambio) /\
   ((nodoPositivo e ∈ X) <-> (nodoNegativo e ∈ X))) \/
  (exists t, visitar (X, cambio) e = ({[t]} ∪ X, true) /\
     (t ∉ X) /\ In t (terminales elementos) /\
     ((forall n, n ∈ X -> alcanzable elementos groundNode n) ->
      alcanzable elementos groundNode t)).
Proof.
  intros He. unfold visitar.
  destruct (terminales_In _ _ He) as [Hp Hn].
  destruct (bool_decide_reflect (nodoPositivo e ∈ X)) as [HP|HP],
           (bool_decide_reflect (nodoNegativo e ∈ X)) as [HN|HN]; simpl.
  - left. done.
  - right. exists (nodoNegativo e). repeat split; try done.
    intros Hal. apply alcanzable_negativo; auto.
  - right. exists (nodoPositivo e). repeat split; try done.
    intros Hal. apply alcanzable_positivo; auto.
  - left. done.
Qed.

Lemma pasada_invariante (elementos : list Elemento) (groundNode : Z)
    (l : list Elemento) :
  (forall e, In e l -> In e elementos) ->
  forall X cambio X' cambio',
  fold_left visitar l (X, cambio) = (X', cambio') ->
  X ⊆ X' /\
  (faltan elementos X' <= faltan elementos X)%nat /\
  (cambio' = false ->
     cambio = false /\ X' = X /\
     forall e, In e l -> nodoPositivo e ∈ X <-> nodoNegativo e ∈ X) /\
  (cambio' = true ->
     cambio = true \/ (faltan elementos X' < faltan elementos X)%nat) /\
  ((forall n, n ∈ X -> alcanzable elementos groundNode n) ->
   forall n, n ∈ X' -> alcanzable elementos groundNode n).
Proof.
  induction l as [|e l IH]; intros Hl X cambio X' cambio' H.
  - injection H as <- <-. repeat split; try done.
    + intros ->. by left.
  - change (fold_left visitar l (visitar (X, cambio) e) = (X', cambio')) in H.
    destruct (visitar_caso elementos groundNode X cambio e)
      as [[Hv Hiff]|(t & Hv & HtX & Ht & Halc)];
      [apply Hl; by left| |]; rewrite Hv in H;
      apply IH in H as (Hsub & Hfal & Hfalse & Htrue & Hreach);
      try (intros e' He'; apply Hl; by right).
    + split; [done|]. split; [done|]. split; [|by split].
      intros Hc. destruct (Hfalse Hc) as (Hc0 & HX & Hall).
      split; [done|]. split; [done|].
      intros e' [<-|He']; [done|by apply Hall].
    + pose proof (faltan_menos elementos X t Ht HtX) as Hlt.
      split; [by etransitivity; [apply union_subseteq_r|]|].
      split; [lia|]. split; [|split].
      * intros Hc. by destruct (Hfalse Hc) as [? _].
      * intros _. right. lia.
      * intros HX n Hn. apply Hreach; [|done].
        intros n' [->%elem_of_singleton|Hn']%elem_of_union; auto.
Qed.

(** With enough rounds [mientras] stops on a round that changed nothing:
    its result is closed under the elements; it only ever holds nodes
    reachable from the ones it started with. *)
Lemma mientras_estable (elementos : list Elemento) (groundNode : Z)
    (rondas : nat) (X : gset Z) :
  (faltan elementos X < rondas)%nat ->
  (forall n, n ∈ X -> alcanzable elementos groundNode n) ->
  X ⊆ mientras rondas elementos X /\
  cerrado elementos (mientras rondas elementos X) /\
  (forall n, n ∈ mientras rondas elementos X ->
     alcanzable elementos groundNode n).
Proof.
  revert X. induction rondas as [|rondas IH]; intros X Hf HX; [lia|].
  simpl. unfold pasada.
  destruct (fold_left visitar elementos (X, false)) as [X' cambio] eqn:Hp.
  apply (pasada_invariante elementos groundNode) in Hp
    as (Hsub & Hfal & Hfalse & Htrue & Hreach); [|done].
  destruct cambio.
  - destruct (Htrue eq_refl) as [?|Hlt]; [discriminate|].
    destruct (IH X') as (Hsub' & Hcer & Hal); [lia|by apply Hreach|].
    split; [by etransitivity|done].
  - destruct (Hfalse eq_refl) as (_ & -> & Hcer).
    repeat split; try done; by apply Hcer.
Qed.

Lemma faltan_cota (elementos : list Elemento) (X : gset Z) :
  (faltan elementos X <= 2 * length elementos)%nat.
Proof.
  unfold faltan. etransitivity; [apply filter_length_le|].
  unfold terminales. induction elementos as [|e l IH]; simpl; lia.
Qed.

(** The set the scan computes is the set of reachable nodes. *)
Lemma nodosConectados_alcanzable (elementos : list Elemento)
    (groundNode n : Z) :
  n ∈ nodosConectados elementos groundNode <->
  alcanzable elementos groundNode n.
Proof.
  unfold nodosConectados.
  destruct (mientras_estable elementos groundNode
              (S (2 * length elementos)) {[groundNode]})
    as (Hsub & Hcer & Hal).
  { pose proof (faltan_cota elementos {[groundNode]}). lia. }
  { intros n' ->%elem_of_singleton. constructor. }
  split; [apply Hal|].
  induction 1 as [|e He _ IH|e He _ IH].
  - set_solver.
  - by apply Hcer.
  - by apply Hcer.
Qed.

Lemma nodosConectados_cerrado (elementos : list Elemento) (groundNode : Z) :
  cerrado elementos (nodosConectados elementos groundNode).
Proof.
  intros e He. rewrite !nodosConectados_alcanzable. split; intros H.
  - by apply alcanzable_negativo.
  - by apply alcanzable_positivo.
Qed.

(** ** A cut-off node makes the system singular *)

Lemma columna_alter (n c : nat) (d : list (list Cx)) (g : Cx -> Cx)
    (a b k : nat) :
  forma n c d -> (b < c)%nat ->
  columna k (alter (alter g b) a d) =
  if decide (k = b) then alter g a (columna k d) else columna k d.
Proof.
  intros [_ Hr] Hb. unfold columna.
  destruct (decide (k = b)) as [->|Hkb].
  - apply (list_fmap_alter (fun r => nth b r Cero)).
    eapply Forall_impl; [exact Hr|]. intros r Hlen. simpl in *.
    rewrite !nth_lookup, list_lookup_alter_eq.
    destruct (lookup_lt_is_Some_2 r b) as [x ->]; [lia|done].
  - transitivity (alter id a (map (fun r => nth k r Cero) d));
      [|by apply list_alter_id].
    apply (list_fmap_alter (fun r => nth k r Cero)).
    apply Forall_true. intros r.
    by rewrite !nth_lookup, list_lookup_alter_ne.
Qed.

Lemma dot_alter (c col : list Cx) (g : Cx -> Cx) (a : nat) :
  (a < length col)%nat ->
  dot c (alter g a col) =
  (dot c col + nth a c Cero * (g (nth a col Cero) - nth a col Cero))%C.
Proof.
  revert c col. change (@alter nat Cx (list Cx) _) with (@list_alter Cx).
  induction a as [|a IH]; intros [|x c] [|y col] Ha;
    simpl in *; try lia; try ring.
  rewrite IH by lia. ring.
Qed.

Lemma length_columna (k : nat) (d : list (list Cx)) :
  length (columna k d) = length d.
Proof. apply length_map. Qed.

(** The effect of changing one entry on the combination of a column. *)
Lemma combinacion_alter (n c' : nat) (c : list Cx) (d : list (list Cx))
    (g : Cx -> Cx) (a b k : nat) :
  forma n c' d -> (a < n)%nat -> (b < c')%nat ->
  dot c (columna k (alter (alter g b) a d)) =
  (dot c (columna k d) +
   (if decide (k = b)
    then nth a c Cero * (g (nth b (nth a d []) Cero) - nth b (nth a d []) Cero)
    else Cero))%C.
Proof.
  intros Hd Ha Hb. rewrite (columna_alter n c') by done.
  destruct (decide (k = b)) as [->|_]; [|ring].
  rewrite dot_alter by (rewrite length_columna; destruct Hd; lia).
  by rewrite nth_columna.
Qed.

Lemma combinacion_sumar_en (n : nat) (c : list Cx) (d : list (list Cx))
    (i j : Z) (y : Cx) (k : nat) :
  forma n n d -> (0 <= i < Z.of_nat n)%Z -> (0 <= j < Z.of_nat n)%Z ->
  dot c (columna k (sumar_en d i j y)) =
  (dot c (columna k d) +
   (if decide (k = Z.to_nat j) then nth (Z.to_nat i) c Cero * y else Cero))%C /\
  dot c (columna k (restar_en d i j y)) =
  (dot c (columna k d) -
   (if decide (k = Z.to_nat j) then nth (Z.to_nat i) c Cero * y else Cero))%C.
Proof.
  intros Hd Hi Hj. unfold sumar_en, restar_en.
  rewrite (proj2 (Z.leb_le 0 i)), (proj2 (Z.leb_le 0 j)) by lia. simpl.
  rewrite !(combinacion_alter n n) by (done || lia).
  destruct (decide (k = Z.to_nat j)); split; ring.
Qed.

Lemma forma_sumar_en (n : nat) (d : list (list Cx)) (i j : Z) (y : Cx) :
  forma n n d -> forma n n (sumar_en d i j y) /\ forma n n (restar_en d i j y).
Proof.
  intros Hd. unfold sumar_en, restar_en.
  destruct (_ && _)%Z; split; try done; by apply forma_alter.
Qed.

Lemma columna_ceros (k n c : nat) :
  Forall (fun x => x = Cero) (columna k (replicate n (replicate c Cero))).
Proof.
  unfold columna. apply Forall_fmap, Forall_replicate. simpl.
  rewrite nth_lookup. destruct (replicate c Cero !! k) as [x|] eqn:Hx; [|done].
  by apply lookup_replicate in Hx as [-> _].
Qed.

Lemma nth_ceros (col : list Cx) (a : nat) :
  Forall (fun x => x = Cero) col -> nth a col Cero = Cero.
Proof.
  intros H. rewrite nth_lookup. destruct (col !! a) as [x|] eqn:Hx; [|done].
  by apply (proj1 (Forall_lookup _ _) H) in Hx.
Qed.

(** *** The incidence block *)

Lemma poner_alter (d : list (list Cx)) (a b : nat) (v : Cx) :
  poner d a b v = alter (alter (fun _ => v) b) a d.
Proof.
  unfold poner. apply list_alter_ext; [|done]. intros r _.
  apply list_insert_alter.
Qed.

Lemma forma_poner (n c : nat) (d : list (list Cx)) (a b : nat) (v : Cx) :
  forma n c d -> forma n c (poner d a b v).
Proof. rewrite poner_alter. apply forma_alter. Qed.

Lemma columna_poner (n c : nat) (d : list (list Cx)) (a b k : nat) (v : Cx) :
  forma n c d -> (b < c)%nat ->
  columna k (poner d a b v) =
  if decide (k = b) then <[a := v]> (columna k d) else columna k d.
Proof.
  intros Hd Hb. rewrite poner_alter, (columna_alter n c) by done.
  destruct (decide (k = b)); [by rewrite list_insert_alter|done].
Qed.

Lemma combinacion_poner (n c' : nat) (c : list Cx) (d : list (list Cx))
    (a b k : nat) (v : Cx) :
  forma n c' d -> (a < n)%nat -> (b < c')%nat ->
  dot c (columna k (poner d a b v)) =
  (dot c (columna k d) +
   (if decide (k = b) then nth a c Cero * (v - nth a (columna b d) Cero)
    else Cero))%C.
Proof.
  intros Hd Ha Hb.
  by rewrite poner_alter, (combinacion_alter n c'), nth_columna.
Qed.

Lemma establecerElemento_okZ (n m : nat) (d : list (list Cx)) (i : Z)
    (j : nat) (v : Cx) :
  (0 <= i < Z.of_nat n)%Z -> (j < m)%nat ->
  establecerElemento (mkMatrix n m d) i (Z.of_nat j) v =
  ok (mkMatrix n m (poner d (Z.to_nat i) j v)).
Proof.
  intros Hi Hj. rewrite <- (Z2Nat.id i) at 1 by lia.
  apply (establecerElemento_ok (mkMatrix n m d)); simpl; lia.
Qed.

(** *** The cut

    [X] is a set of nodes that holds the reference node; the rows of the
    nodes outside [X] are combined with coefficient 1, the others with
    coefficient 0. *)
Section Corte.

Variable X : gset Z.
Variables groundNode numNodes : Z.
Hypothesis Hg : (0 <= groundNode < numNodes)%Z.
Hypothesis HgX : groundNode ∈ X.

Local Abbreviation dim := (Z.to_nat (numNodes - 1)).
Local Abbreviation coef := (indicador X groundNode dim).

Lemma indicador_nodo (nodo : Z) :
  (0 <= nodo < numNodes)%Z -> nodo <> groundNode ->
  (0 <= nodoAIndice nodo groundNode < Z.of_nat dim)%Z /\
  nth (Z.to_nat (nodoAIndice nodo groundNode)) coef Cero =
  if bool_decide (nodo ∈ X) then Cero else Uno.
Proof.
  intros Hn Hne.
  pose proof (nodoAIndice_rango _ _ _ Hn Hg) as Hr.
  assert (Hi : (0 <= nodoAIndice nodo groundNode)%Z).
  { unfold nodoAIndice in *.
    destruct (Z.eqb_spec nodo groundNode), (Z.ltb_spec nodo groundNode); lia. }
  split; [lia|]. unfold indicador.
  rewrite nth_map_seq by lia. rewrite Z2Nat.id by done.
  by rewrite indiceANodo_nodoAIndice.
Qed.

Lemma indicador_no_nulo (u : Z) :
  (0 <= u < numNodes)%Z -> u ∉ X -> ~ Forall (fun x => x = Cero) coef.
Proof.
  intros Hu HuX Hall.
  assert (Hne : u <> groundNode) by (intros ->; done).
  destruct (indicador_nodo u Hu Hne) as [_ Hc].
  rewrite nth_ceros in Hc by done.
  rewrite bool_decide_eq_false_2 in Hc by done.
  apply (f_equal (fun c => this (re c))) in Hc. discriminate Hc.
Qed.

Lemma indicador_iguales (e : Elemento) :
  terminales_validos numNodes e ->
  nodoPositivo e <> groundNode -> nodoNegativo e <> groundNode ->
  (nodoPositivo e ∈ X <-> nodoNegativo e ∈ X) ->
  nth (Z.to_nat (nodoAIndice (nodoPositivo e) groundNode)) coef Cero =
  nth (Z.to_nat (nodoAIndice (nodoNegativo e) groundNode)) coef Cero.
Proof.
  intros [Hp Hn] Hpg Hng Hiff.
  rewrite (proj2 (indicador_nodo _ Hp Hpg)), (proj2 (indicador_nodo _ Hn Hng)).
  destruct (bool_decide_reflect (nodoPositivo e ∈ X)) as [HP|HP].
  - by rewrite bool_decide_eq_true_2 by by apply Hiff.
  - rewrite bool_decide_eq_false_2; [done|]. intros HN. by apply HP, Hiff.
Qed.

(** Stamping an element that does not leave [X] keeps the combination of
    every column at 0. *)
Lemma estampa_anula (f : Qc) (d : list (list Cx)) (e : Elemento) :
  terminales_validos numNodes e ->
  (nodoPositivo e ∈ X <-> nodoNegativo e ∈ X) ->
  forma dim dim d ->
  (forall k, dot coef (columna k d) = Cero) ->
  forall k, dot coef (columna k (estampa_referencia groundNode f d e)) = Cero.
Proof.
  intros Hval Hiff Hd H0 k. pose proof Hval as [Hp Hn].
  unfold estampa_referencia, presente.
  set (y := conductancia_referencia e f).
  destruct (Z.eqb_spec (nodoPositivo e) groundNode) as [Hpg|Hpg],
           (Z.eqb_spec (nodoNegativo e) groundNode) as [Hng|Hng]; simpl.
  - apply H0.
  - destruct (indicador_nodo _ Hn Hng) as [Hj Hcj].
    rewrite (proj1 (combinacion_sumar_en _ _ d _ _ y k Hd Hj Hj)), H0, Hcj.
    rewrite bool_decide_eq_true_2 by (apply Hiff; by rewrite Hpg).
    destruct (decide _); ring.
  - destruct (indicador_nodo _ Hp Hpg) as [Hi Hci].
    rewrite (proj1 (combinacion_sumar_en _ _ d _ _ y k Hd Hi Hi)), H0, Hci.
    rewrite bool_decide_eq_true_2 by (apply Hiff; by rewrite Hng).
    destruct (decide _); ring.
  - destruct (indicador_nodo _ Hp Hpg) as [Hi _].
    destruct (indicador_nodo _ Hn Hng) as [Hj _].
    pose proof (indicador_iguales e Hval Hpg Hng Hiff) as Hcij.
    set (i := nodoAIndice (nodoPositivo e) groundNode) in *.
    set (j := nodoAIndice (nodoNegativo e) groundNode) in *.
    pose proof (proj1 (forma_sumar_en _ d i i y Hd)) as Hd1.
    pose proof (proj1 (forma_sumar_en _ _ j j y Hd1)) as Hd2.
    pose proof (proj2 (forma_sumar_en _ _ i j y Hd2)) as Hd3.
    rewrite (proj2 (combinacion_sumar_en _ coef _ j i y k Hd3 Hj Hi)).
    rewrite (proj2 (combinacion_sumar_en _ coef _ i j y k Hd2 Hi Hj)).
    rewrite (proj1 (combinacion_sumar_en _ coef _ j j y k Hd1 Hj Hj)).
    rewrite (proj1 (combinacion_sumar_en _ coef _ i i y k Hd Hi Hi)).
    rewrite H0, Hcij.
    destruct (decide (k = Z.to_nat i)), (decide (k = Z.to_nat j)); ring.
Qed.

Lemma G_referencia_anula elementos f :
  cerrado elementos X ->
  Forall (terminales_validos numNodes) elementos ->
  forall k,
    dot coef
      (columna k (data (G_referencia elementos numNodes groundNode f)))
    = Cero.
Proof.
  intros Hcer Hval. unfold G_referencia. simpl.
  assert (Hl : forall e, In e (List.filter es_pasivo elementos) ->
                 In e elementos) by (intros e [He _]%filter_In; done).
  revert Hl. generalize (List.filter es_pasivo elementos). intros l Hl.
  assert (H0 : forma dim dim (replicate dim (replicate dim Cero)) /\
               forall k, dot coef
                           (columna k (replicate dim (replicate dim Cero)))
                         = Cero).
  { split.
    - split; [apply length_replicate|].
      apply Forall_replicate, length_replicate.
    - intros k. rewrite dot_comm. apply dot_ceros, columna_ceros. }
  revert H0. generalize (replicate dim (replicate dim Cero)).
  induction l as [|e l IH]; intros d [Hd H0]; simpl; [done|].
  apply IH.
  - intros e' He'. apply Hl. by right.
  - split; [by apply forma_estampa_referencia|].
    apply estampa_anula; try done.
    + rewrite List.Forall_forall in Hval. apply Hval, Hl. by left.
    + apply Hcer, Hl. by left.
Qed.

(** One source of the loop of [construirMatrizB]: the column of the
    source, until then zero, receives 1 and -1 in rows with the same
    coefficient, or a single entry in a row of coefficient 0. *)
Lemma incidir_paso (m j : nat) (d : list (list Cx)) (fuente : Elemento) :
  terminales_validos numNodes fuente ->
  nodoPositivo fuente <> nodoNegativo fuente ->
  (nodoPositivo fuente ∈ X <-> nodoNegativo fuente ∈ X) ->
  (j < m)%nat ->
  forma dim m d ->
  (forall k, dot coef (columna k d) = Cero) ->
  (forall k, (j <= k)%nat -> Forall (fun x => x = Cero) (columna k d)) ->
  exists d',
    incidir groundNode (mkMatrix dim m d) (Z.of_nat j, fuente) =
      ok (mkMatrix dim m d') /\
    forma dim m d' /\
    (forall k, dot coef (columna k d') = Cero) /\
    (forall k, (S j <= k)%nat -> Forall (fun x => x = Cero) (columna k d')).
Proof.
  intros Hval Hpn Hiff Hj Hd H0 Hz. pose proof Hval as [Hp Hn].
  unfold incidir.
  assert (Hcero : forall a, nth a (columna j d) Cero = Cero).
  { intros a. apply nth_ceros, Hz. done. }
  assert (Hresto : forall d' a v k, (S j <= k)%nat -> forma dim m d' ->
            columna k d' = columna k d ->
            Forall (fun x => x = Cero) (columna k (poner d' a j v))).
  { intros d' a v k Hk Hd' Heq. rewrite (columna_poner dim m) by done.
    destruct (decide (k = j)); [lia|]. rewrite Heq. apply Hz. lia. }
  destruct (decide (nodoPositivo fuente = groundNode)) as [Hpg|Hpg];
    [|destruct (decide (nodoNegativo fuente = groundNode)) as [Hng|Hng]].
  - (* the positive terminal is the reference node *)
    assert (Hng : nodoNegativo fuente <> groundNode) by congruence.
    destruct (indicador_nodo _ Hn Hng) as [Hi' Hc'].
    set (i := nodoAIndice (nodoPositivo fuente) groundNode).
    set (i' := nodoAIndice (nodoNegativo fuente) groundNode) in *.
    assert (Hi : (i < 0)%Z).
    { unfold i, nodoAIndice. rewrite Hpg, Z.eqb_refl. done. }
    rewrite (proj2 (Z.leb_gt 0 i)) by done. simpl.
    rewrite (proj2 (Z.leb_le 0 i')) by lia.
    rewrite establecerElemento_okZ by (done || lia).
    eexists. split; [done|]. split; [by apply forma_poner|]. split.
    + intros k. rewrite (combinacion_poner dim m) by (done || lia).
      rewrite H0, Hc', Hcero.
      rewrite bool_decide_eq_true_2 by (apply Hiff; by rewrite Hpg).
      destruct (decide _); ring.
    + intros k Hk. by apply Hresto.
  - (* the negative terminal is the reference node *)
    destruct (indicador_nodo _ Hp Hpg) as [Hi Hc].
    set (i := nodoAIndice (nodoPositivo fuente) groundNode) in *.
    set (i' := nodoAIndice (nodoNegativo fuente) groundNode).
    assert (Hi' : (i' < 0)%Z).
    { unfold i', nodoAIndice. rewrite Hng, Z.eqb_refl. done. }
    rewrite (proj2 (Z.leb_le 0 i)) by lia.
    rewrite establecerElemento_okZ by (done || lia). simpl.
    rewrite (proj2 (Z.leb_gt 0 i')) by done.
    eexists. split; [done|]. split; [by apply forma_poner|]. split.
    + intros k. rewrite (combinacion_poner dim m) by (done || lia).
      rewrite H0, Hc, Hcero.
      rewrite bool_decide_eq_true_2 by (apply Hiff; by rewrite Hng).
      destruct (decide _); ring.
    + intros k Hk. by apply Hresto.
  - (* neither terminal is the reference node *)
    destruct (indicador_nodo _ Hp Hpg) as [Hi _].
    destruct (indicador_nodo _ Hn Hng) as [Hi' _].
    pose proof (indicador_iguales fuente Hval Hpg Hng Hiff) as Hcc.
    assert (Hii : Z.to_nat (nodoAIndice (nodoPositivo fuente) groundNode) <>
                  Z.to_nat (nodoAIndice (nodoNegativo fuente) groundNode)).
    { intros Heq. apply Hpn.
      apply (nodoAIndice_inyectiva groundNode); try done. lia. }
    set (i := nodoAIndice (nodoPositivo fuente) groundNode) in *.
    set (i' := nodoAIndice (nodoNegativo fuente) groundNode) in *.
    rewrite (proj2 (Z.leb_le 0 i)) by lia.
    rewrite establecerElemento_okZ by (done || lia). simpl.
    rewrite (proj2 (Z.leb_le 0 i')) by lia.
    rewrite establecerElemento_okZ by (done || lia).
    pose proof (forma_poner dim m d (Z.to_nat i) j Uno Hd) as Hd1.
    eexists. split; [done|]. split; [by apply forma_poner|]. split.
    + intros k. rewrite (combinacion_poner dim m) by (done || lia).
      rewrite (combinacion_poner dim m) by (done || lia).
      rewrite (columna_poner dim m d _ j j) by done.
      destruct (decide (j = j)); [|done].
      rewrite (nth_lookup (<[_:=_]> _)), list_lookup_insert_ne by done.
      rewrite <- nth_lookup. rewrite H0, !Hcero, Hcc, menos_uno.
      destruct (decide _); ring.
    + intros k Hk. apply Hresto; [done|done|].
      rewrite (columna_poner dim m) by done.
      destruct (decide (k = j)); [lia|done].
Qed.

Lemma incidir_bucle (m : nat) (l : list Elemento) :
  Forall (fun fuente =>
            terminales_validos numNodes fuente /\
            nodoPositivo fuente <> nodoNegativo fuente /\
            (nodoPositivo fuente ∈ X <-> nodoNegativo fuente ∈ X)) l ->
  forall s d,
    (s + length l <= m)%nat ->
    forma dim m d ->
    (forall k, dot coef (columna k d) = Cero) ->
    (forall k, (s <= k)%nat -> Forall (fun x => x = Cero) (columna k d)) ->
    exists d',
      forOf (incidir groundNode) (numerados s l) (mkMatrix dim m d) =
        ok (mkMatrix dim m d') /\
      forma dim m d' /\
      (forall k, dot coef (columna k d') = Cero).
Proof.
  intros Hl.
  induction Hl as [|fuente l (Hval & Hpn & Hiff) _ IH];
    intros s d Hs Hd H0 Hz.
  - exists d. done.
  - change (numerados s (fuente :: l))
      with ((Z.of_nat s, fuente) :: numerados (S s) l).
    simpl in Hs. cbn [forOf].
    destruct (incidir_paso m s d fuente)
      as (d1 & -> & Hd1 & H1 & Hz1); try done; try lia.
    simpl. apply IH; try done. lia.
Qed.

Lemma construirMatrizB_anula elementos :
  cerrado elementos X ->
  Forall (elemento_valido numNodes) elementos ->
  exists dB,
    construirMatrizB elementos numNodes groundNode =
      ok (mkMatrix dim (length (List.filter (esTipo "V") elementos)) dB) /\
    forma dim (length (List.filter (esTipo "V") elementos)) dB /\
    forall k, dot coef (columna k dB) = Cero.
Proof.
  intros Hcer Hval. unfold construirMatrizB.
  set (l := List.filter (esTipo "V") elementos).
  assert (H0 : forall m, forma dim m (replicate dim (replicate m Cero)) /\
    forall k, dot coef (columna k (replicate dim (replicate m Cero))) = Cero).
  { intros m. split.
    - split; [apply length_replicate|].
      apply Forall_replicate, length_replicate.
    - intros k. rewrite dot_comm. apply dot_ceros, columna_ceros. }
  destruct (Nat.eqb_spec (length l) 0) as [Hm|Hm].
  - rewrite zeros_ok by lia. rewrite Hm. eexists. split; [done|].
    apply (H0 0%nat).
  - rewrite zeros_ok by lia. simpl. rewrite Nat2Z.id.
    destruct (H0 (length l)) as [Hd0 Hc0].
    apply (incidir_bucle (length l) l); try done.
    + apply List.Forall_forall. intros e [He _]%filter_In.
      rewrite List.Forall_forall in Hval.
      destruct (Hval e He) as (Ht & Hne & _). auto.
    + intros k _. apply columna_ceros.
Qed.

End Corte.

Lemma construirVectorI_ok elementos numNodes groundNode :
  (1 <= numNodes)%Z -> (0 <= groundNode < numNodes)%Z ->
  Forall (elemento_valido numNodes) elementos ->
  exists i, construirVectorI elementos numNodes groundNode = ok i /\
            rows i = Z.to_nat (numNodes - 1) /\ cols i = 1%nat.
Proof.
  intros Hn Hg Hval. unfold construirVectorI.
  rewrite zeros_ok by lia. simpl.
  apply (forOf_ok (fun M => rows M = Z.to_nat (numNodes - 1) /\
                            cols M = 1%nat)
           (elemento_valido numNodes)); [| |done].
  - intros M e [Hr Hc] ((Hp & Hq) & _). unfold inyectar.
    pose proof (nodoAIndice_rango _ _ _ Hp Hg) as Hi.
    pose proof (nodoAIndice_rango _ _ _ Hq Hg) as Hj.
    assert (H1 : exists M1,
      (if (0 <=? nodoAIndice (nodoPositivo e) groundNode)%Z
       then sumarElemento M (nodoAIndice (nodoPositivo e) groundNode) 0
              (RtoC (valor e))
       else ok M) = ok M1 /\ rows M1 = rows M /\ cols M1 = cols M).
    { destruct (Z.leb_spec 0 (nodoAIndice (nodoPositivo e) groundNode));
        [|by eauto]. apply sumarElemento_okZ; lia. }
    destruct H1 as (M1 & -> & Hr1 & Hc1). simpl.
    destruct (Z.leb_spec 0 (nodoAIndice (nodoNegativo e) groundNode)).
    + destruct (sumarElemento_okZ M1
                  (nodoAIndice (nodoNegativo e) groundNode) 0
                  (multiply (RtoC (- (1))) (RtoC (valor e))))
        as (M2 & -> & Hr2 & Hc2); try lia.
      exists M2. split; [done|]. split; congruence.
    + exists M1. split; [done|]. split; congruence.
  - apply List.Forall_forall. intros e [He _]%filter_In.
    rewrite List.Forall_forall in Hval. auto.
Qed.

Lemma construirVectorE_ok elementos :
  exists e, construirVectorE elementos = ok e /\
    rows e = length (List.filter (esTipo "V") elementos) /\ cols e = 1%nat.
Proof.
  unfold construirVectorE.
  set (l := List.filter (esTipo "V") elementos).
  destruct (Nat.eqb_spec (length l) 0) as [Hm|Hm].
  - rewrite Hm. by eexists.
  - rewrite zeros_ok by lia. simpl. rewrite Nat2Z.id.
    change (indexados l) with (numerados 0 l).
    assert (Hgen : forall (l' : list Elemento) s M,
      (s + length l' <= length l)%nat ->
      rows M = length l -> cols M = 1%nat ->
      exists e,
        forOf (fun e jf => set e (fst jf) 0 (RtoC (valor (snd jf))))
          (numerados s l') M = ok e /\
        rows e = length l /\ cols e = 1%nat).
    { induction l' as [|x l' IH]; intros s M Hs Hr Hc.
      - by exists M.
      - change (numerados s (x :: l'))
          with ((Z.of_nat s, x) :: numerados (S s) l').
        simpl in Hs. cbn [forOf fst snd].
        rewrite (set_ok M s 0) by lia. simpl. apply IH; simpl; done || lia. }
    apply Hgen; simpl; done || lia.
Qed.

(** *** The assembled system *)

Lemma columna_zip_app (n k : nat) (dG dB : list (list Cx)) :
  Forall (fun r => length r = n) dG -> length dG = length dB ->
  columna k (zip_with app dG dB) =
  if decide (k < n)%nat then columna k dG else columna (k - n) dB.
Proof.
  intros HG. revert dB.
  induction HG as [|r dG Hr _ IH]; intros [|r' dB] Hl; simpl in *;
    try discriminate.
  - by destruct (decide _).
  - rewrite IH by lia. destruct (decide (k < n)%nat).
    + by rewrite app_nth1 by lia.
    + by rewrite app_nth2, Hr by lia.
Qed.

Lemma ensamblar_anula (n m : nat) (c : list Cx) (dG dB : list (list Cx)) :
  forma n n dG -> forma n m dB -> length c = n ->
  (0 < n)%nat -> (0 < m)%nat ->
  ~ Forall (fun x => x = Cero) c ->
  (forall k, dot c (columna k dG) = Cero) ->
  (forall k, dot c (columna k dB) = Cero) ->
  exists C dA,
    construirMatrizC (mkMatrix n m dB) = ok C /\
    ensamblarMatrizA (mkMatrix n n dG) (mkMatrix n m dB) C
      (mkMatrix m m (replicate m (replicate m Cero))) =
      ok (mkMatrix (n + m) (n + m) dA) /\
    length dA = (n + m)%nat /\
    anula (n + m) (c ++ replicate m Cero) dA.
Proof.
  intros HfG HfB Hc Hn Hm Hnz HG HB.
  pose proof HfG as [HlG HrG]. pose proof HfB as [HlB HrB].
  unfold construirMatrizC. rewrite transpose_ok by done. simpl.
  set (dC := map (fun j => map (fun r => nth j r Cero) dB) (seq 0 m)).
  assert (HfC : forma m n dC).
  { split; [by unfold dC; rewrite length_map, length_seq|].
    apply Forall_map, Forall_forall. intros j _. simpl.
    by rewrite length_map. }
  pose proof (forma_ceros m m) as HfD.
  exists (mkMatrix m n dC). eexists. split; [done|].
  unfold ensamblarMatrizA.
  rewrite (concat_lado (mkMatrix n n dG) (mkMatrix n m dB)) by done.
  rewrite bind_ok.
  rewrite (concat_lado (mkMatrix m n dC) (mkMatrix m m _)) by done.
  rewrite bind_ok. cbn [rows cols data].
  rewrite concat_debajo; cbn [rows cols data]; try done; try lia.
  2:{ by apply forma_zip_app. }
  2:{ by apply forma_zip_app. }
  split; [done|]. split.
  - rewrite length_app, !length_zip_with, length_replicate.
    unfold dC. rewrite length_map, length_seq. lia.
  - split.
    + intros Hall. apply Hnz. by apply Forall_app in Hall as [? _].
    + intros k _. unfold columna at 1. rewrite map_app.
      rewrite dot_app.
      * fold (columna k (zip_with app dG dB)).
        rewrite (dot_ceros (replicate m Cero))
          by (apply Forall_replicate; done).
        rewrite (columna_zip_app n) by (done || lia).
        destruct (decide _); rewrite ?HG, ?HB; ring.
      * rewrite length_map, length_zip_with. lia.
Qed.

Lemma elemento_valido_estampable (numNodes : Z) (e : Elemento) :
  elemento_valido numNodes e -> estampable numNodes e.
Proof.
  intros (Ht & _ & Hv) Hp. split; [done|]. intros _ H0.
  specialize (Hv Hp). rewrite H0 in Hv. by apply Qclt_not_eq in Hv.
Qed.

(** The scan writes its warning when a node is cut off. *)
Lemma consola_advierte elementos numNodes groundNode f u :
  elementos <> [] ->
  circuito_valido elementos numNodes groundNode f ->
  (0 <= u < numNodes)%Z ->
  ~ alcanzable elementos groundNode u ->
  consola elementos numNodes groundNode f =
  ["Advertencia: Algunos nodos no están conectados a tierra"].
Proof.
  intros Hne (Hn & Hg & Hf & Hval) Hu Hunr. unfold consola.
  rewrite validar_ok by done.
  set (X := nodosConectados elementos groundNode).
  assert (Hrango : forall n, alcanzable elementos groundNode n ->
                     (0 <= n < numNodes)%Z).
  { rewrite List.Forall_forall in Hval.
    induction 1 as [|e He _ _|e He _ _]; [done| |];
      by destruct (Hval e He) as ((? & ?) & _). }
  assert (Hsub : X ⊆ list_to_set (seqZ 0 numNodes) ∖ {[u]}).
  { intros n Hn'. apply nodosConectados_alcanzable in Hn'.
    apply elem_of_difference. split.
    - apply elem_of_list_to_set, elem_of_seqZ. apply Hrango in Hn'. lia.
    - intros ->%elem_of_singleton. done. }
  apply subseteq_size in Hsub.
  rewrite size_difference in Hsub.
  - rewrite size_list_to_set, length_seqZ, size_singleton in Hsub
      by apply NoDup_seqZ.
    destruct (Z.ltb_spec (Z.of_nat (base.size X)) numNodes); [done|lia].
  - intros n ->%elem_of_singleton.
    apply elem_of_list_to_set, elem_of_seqZ. lia.
Qed.

(** C6. A node that no chain of elements joins to the reference node is
    not reported as such on a circuit without voltage source: on the
    current source and the resistor between nodes 1 and 0, in a circuit
    of three nodes, node 2 is cut off and [analizarCircuito] fails with the
    error of [math.transpose], the error of every circuit without voltage
    source, which is not the one of a singular system. *)
Theorem nodo_aislado_sin_diagnostico :
  circuito_valido sin_fuente_de_voltaje 3 0 0 /\
  ~ alcanzable sin_fuente_de_voltaje 0 2 /\
  analizarCircuito sin_fuente_de_voltaje 3 0 0 =
    fallo "Cannot transpose a 2D matrix with no columns (size: [2, 0])" /\
  includes "ingular"
    "Cannot transpose a 2D matrix with no columns (size: [2, 0])" = false.
Proof.
  split; [|split; [|split; reflexivity]].
  - split; [lia|]. split; [lia|]. split; [done|].
    repeat constructor; simpl; try lia; try discriminate.
  - intros H%nodosConectados_alcanzable. revert H.
    apply (bool_decide_eq_false_1
             (2%Z ∈ nodosConectados sin_fuente_de_voltaje 0)).
    by vm_compute.
Qed.

(** * Further properties of the engine and of its helpers *)

(** ** The impedance helpers *)







(** ** The helpers of [MatrixBuilder] *)

Lemma entrada_alter (n c : nat) (d : list (list Cx)) (g : Cx -> Cx)
    (a b a' b' : nat) :
  forma n c d -> (a' < n)%nat -> (b' < c)%nat ->
  nth b' (nth a' (alter (alter g b) a d) []) Cero =
  if decide (a' = a /\ b' = b) then g (nth b' (nth a' d []) Cero)
  else nth b' (nth a' d []) Cero.
Proof.
  intros [Hl Hr] Ha Hb.
  destruct (lookup_lt_is_Some_2 d a') as [r Hra]; [lia|].
  assert (Hlr : length r = c).
  { by apply (proj1 (Forall_lookup _ _) Hr a'). }
  destruct (lookup_lt_is_Some_2 r b') as [x Hx]; [lia|].
  rewrite (nth_lookup_Some _ _ _ _ Hra), (nth_lookup_Some _ _ _ _ Hx).
  destruct (decide (a' = a)) as [->|Hne].
  - rewrite (nth_lookup_Some _ _ _ (alter g b r))
      by (by rewrite list_lookup_alter_eq, Hra).
    destruct (decide (b' = b)) as [->|Hneb].
    + rewrite decide_True by done.
      apply nth_lookup_Some. by rewrite list_lookup_alter_eq, Hx.
    + rewrite decide_False by tauto.
      apply nth_lookup_Some. by rewrite list_lookup_alter_ne.
  - rewrite decide_False by tauto.
    rewrite (nth_lookup_Some _ _ _ r) by (by rewrite list_lookup_alter_ne).
    by apply nth_lookup_Some.
Qed.

Lemma entrada_poner (n c : nat) (d : list (list Cx)) (a b a' b' : nat)
    (v : Cx) :
  forma n c d -> (a' < n)%nat -> (b' < c)%nat ->
  nth b' (nth a' (poner d a b v) []) Cero =
  if decide (a' = a /\ b' = b) then v else nth b' (nth a' d []) Cero.
Proof.
  intros Hd Ha Hb. rewrite poner_alter. by apply (entrada_alter n c).
Qed.

Lemma obtenerElemento_ok (M : Matrix) (a b : nat) :
  (a < rows M)%nat -> (b < cols M)%nat ->
  obtenerElemento M (Z.of_nat a) (Z.of_nat b) = ok (entry M a b).
Proof.
  intros Ha Hb. unfold obtenerElemento, size. simpl.
  rewrite (proj2 (rango_falso _ _)) by lia.
  rewrite (proj2 (rango_falso _ _)) by lia.
  unfold get. replace (in_range M (Z.of_nat a) (Z.of_nat b)) with true.
  - by rewrite !Nat2Z.id.
  - symmetry. apply in_range_true. by exists a, b.
Qed.

Lemma obtenerElemento_igual (M M' : Matrix) (f c : Z) :
  rows M' = rows M -> cols M' = cols M ->
  (forall a b, f = Z.of_nat a -> c = Z.of_nat b ->
     (a < rows M)%nat -> (b < cols M)%nat ->
     entry M' a b = entry M a b) ->
  obtenerElemento M' f c = obtenerElemento M f c.
Proof.
  intros Hr Hc He. unfold obtenerElemento, size, get. rewrite Hr, Hc. simpl.
  destruct ((f <? 0) || _)%Z eqn:Hf; [done|].
  destruct ((c <? 0) || _)%Z eqn:Hcc; [done|].
  apply rango_falso in Hf, Hcc.
  assert (Hin : forall N, rows N = rows M -> cols N = cols M ->
            in_range N f c = true).
  { intros N HrN HcN. apply in_range_true.
    exists (Z.to_nat f), (Z.to_nat c). lia. }
  rewrite !Hin by done. f_equal. apply He; lia.
Qed.

(** X19. Writing an entry and reading it back: [establecerElemento] keeps the
    size of the matrix, the entry written reads as the value written and
    every other position reads as before. *)
Theorem establecerElemento_obtenerElemento (M M' : Matrix)
    (fila columna : Z) (v : Cx) :
  bien_formada M ->
  establecerElemento M fila columna v = ok M' ->
  size M' = size M /\ bien_formada M' /\
  obtenerElemento M' fila columna = ok v /\
  forall f c, (f, c) <> (fila, columna) ->
    obtenerElemento M' f c = obtenerElemento M f c.
Proof.
  intros HM H. unfold establecerElemento in H. simpl in H.
  destruct ((fila <? 0) || _)%Z; [discriminate|].
  destruct ((columna <? 0) || _)%Z; [discriminate|].
  apply set_inr in H as (a & b & -> & -> & Ha & Hb & ->).
  split; [done|]. split; [by apply forma_poner|]. split.
  - rewrite obtenerElemento_ok by done. unfold entry. simpl.
    rewrite (entrada_poner (rows M) (cols M)) by done.
    by rewrite decide_True.
  - intros f c Hne. apply obtenerElemento_igual; [done|done|].
    intros a' b' -> -> Ha' Hb'. unfold entry. simpl.
    rewrite (entrada_poner (rows M) (cols M)) by done.
    destruct (decide _) as [[-> ->]|]; done.
Qed.

Lemma establecerElemento_obtenerElemento_witness :
  exists M', establecerElemento (mkMatrix 1 2 [[Cero; Cero]]) 0 1 Uno = ok M' /\
    obtenerElemento M' 0 1 = ok Uno.
Proof.
  eexists. split; [reflexivity|].
  apply (establecerElemento_obtenerElemento (mkMatrix 1 2 [[Cero; Cero]])
           _ 0 1 Uno).
  - split; [reflexivity|]. by repeat constructor.
  - reflexivity.
Defined.

(** X20. Adding to an entry: [sumarElemento] keeps the size, the entry reads as
    its former value plus the value added and every other position reads
    as before. *)
Theorem sumarElemento_obtenerElemento (M M' : Matrix)
    (fila columna : Z) (v : Cx) :
  bien_formada M ->
  sumarElemento M fila columna v = ok M' ->
  size M' = size M /\ bien_formada M' /\
  (exists x, obtenerElemento M fila columna = ok x /\
             obtenerElemento M' fila columna = ok (x + v)%C) /\
  forall f c, (f, c) <> (fila, columna) ->
    obtenerElemento M' f c = obtenerElemento M f c.
Proof.
  intros HM H.
  apply sumarElemento_inr in H as (a & b & -> & -> & Ha & Hb & ->).
  split; [done|]. split; [by apply forma_poner|]. split.
  - exists (entry M a b). rewrite !obtenerElemento_ok by done.
    split; [done|]. unfold entry at 1. simpl.
    rewrite (entrada_poner (rows M) (cols M)) by done.
    by rewrite decide_True.
  - intros f c Hne. apply obtenerElemento_igual; [done|done|].
    intros a' b' -> -> Ha' Hb'. unfold entry at 1. simpl.
    rewrite (entrada_poner (rows M) (cols M)) by done.
    destruct (decide _) as [[-> ->]|]; done.
Qed.

Lemma sumarElemento_obtenerElemento_witness :
  exists M', sumarElemento (mkMatrix 1 2 [[Cero; Uno]]) 0 1 Uno = ok M' /\
    size M' = mkSize [1; 2]%Z.
Proof.
  eexists. split; [reflexivity|].
  apply (sumarElemento_obtenerElemento (mkMatrix 1 2 [[Cero; Uno]])
           _ 0 1 Uno).
  - split; [reflexivity|]. by repeat constructor.
  - reflexivity.
Defined.

(** X21. The three accessors test the row index first and the column index
    next, against the size of the matrix, and raise the same errors. *)
Theorem MatrixBuilder_rango (M : Matrix) (fila columna : Z) (v : Cx) :
  let dentro x n := (0 <= x < Z.of_nat n)%Z in
  let errorFila :=
    "Índice de fila " +:+ numero fila +:+ " fuera de rango [0, " +:+
    numero (Z.of_nat (rows M) - 1) +:+ "]" in
  let errorColumna :=
    "Índice de columna " +:+ numero columna +:+ " fuera de rango [0, " +:+
    numero (Z.of_nat (cols M) - 1) +:+ "]" in
  (~ dentro fila (rows M) ->
     obtenerElemento M fila columna = throw errorFila /\
     establecerElemento M fila columna v = throw errorFila /\
     sumarElemento M fila columna v = throw errorFila) /\
  (dentro fila (rows M) -> ~ dentro columna (cols M) ->
     obtenerElemento M fila columna = throw errorColumna /\
     establecerElemento M fila columna v = throw errorColumna /\
     sumarElemento M fila columna v = throw errorColumna) /\
  (dentro fila (rows M) -> dentro columna (cols M) ->
     (exists x, obtenerElemento M fila columna = ok x) /\
     (exists M', establecerElemento M fila columna v = ok M' /\
                 size M' = size M) /\
     (exists M', sumarElemento M fila columna v = ok M' /\
                 size M' = size M)).
Proof.
  intros dentro errorFila errorColumna. unfold dentro.
  unfold obtenerElemento, establecerElemento, sumarElemento, size. simpl.
  split; [|split].
  - intros Hf.
    destruct ((fila <? 0) || _)%Z eqn:Hr; [done|].
    apply rango_falso in Hr. lia.
  - intros Hf Hc. rewrite (proj2 (rango_falso _ _)) by done.
    destruct ((columna <? 0) || _)%Z eqn:Hr; [done|].
    apply rango_falso in Hr. lia.
  - intros Hf Hc. rewrite !(proj2 (rango_falso _ _)) by done.
    unfold get, set.
    replace (in_range M fila columna) with true.
    2:{ symmetry. apply in_range_true.
        exists (Z.to_nat fila), (Z.to_nat columna). lia. }
    simpl. replace (in_range M fila columna) with true.
    2:{ symmetry. apply in_range_true.
        exists (Z.to_nat fila), (Z.to_nat columna). lia. }
    split; [by eexists|]. split; by eexists.
Qed.

Lemma MatrixBuilder_rango_witness :
  obtenerElemento (mkMatrix 1 2 [[Cero; Uno]]) 3 0 =
  throw "Índice de fila 3 fuera de rango [0, 0]".
Proof.
  apply (MatrixBuilder_rango (mkMatrix 1 2 [[Cero; Uno]]) 3 0 Cero).
  simpl. lia.
Defined.

(** X22. [concatenarHorizontal] asks for as many rows on both sides and,
    when the matrices have a row, puts the second to the right of the
    first. Two matrices without rows pass its test and are refused by
    [math.concat]. *)
Theorem concatenarHorizontal_entradas (A B : Matrix) :
  bien_formada A -> bien_formada B ->
  (rows A <> rows B ->
     concatenarHorizontal A B =
     throw ("Las matrices deben tener el mismo número de filas para " +:+
            "concatenación horizontal (" +:+ numero (Z.of_nat (rows A)) +:+
            " vs " +:+ numero (Z.of_nat (rows B)) +:+ ")")) /\
  (rows A = rows B -> (0 < rows A)%nat ->
     exists M, concatenarHorizontal A B = ok M /\ bien_formada M /\
       rows M = rows A /\ cols M = (cols A + cols B)%nat /\
       forall i j, (i < rows A)%nat ->
         entry M i j =
         if decide (j < cols A)%nat then entry A i j
         else entry B i (j - cols A)) /\
  (rows A = 0%nat -> rows B = 0%nat ->
     exists msg, concatenarHorizontal A B = throw msg).
Proof.
  intros HA HB. unfold concatenarHorizontal, size. simpl.
  split; [|split].
  - intros Hne. destruct (Z.eqb_spec (Z.of_nat (rows A)) (Z.of_nat (rows B)));
      [lia|done].
  - intros Heq Hpos. rewrite (proj2 (Z.eqb_eq _ _)) by lia. simpl.
    by apply concat_derecha.
  - intros H0 H0'. rewrite (proj2 (Z.eqb_eq _ _)) by lia. simpl.
    eexists. apply concat_vacias_lado; (done || by destruct HA, HB).
Qed.

Lemma concatenarHorizontal_entradas_witness :
  exists M, concatenarHorizontal
              (mkMatrix 2 1 [[Uno]; [Cero]])
              (mkMatrix 2 2 [[Cero; Uno]; [Uno; Uno]]) = ok M /\
            bien_formada M /\ rows M = 2%nat /\ cols M = 3%nat.
Proof.
  destruct (concatenarHorizontal_entradas
              (mkMatrix 2 1 [[Uno]; [Cero]])
              (mkMatrix 2 2 [[Cero; Uno]; [Uno; Uno]]))
    as (_ & H & _).
  - split; [reflexivity|]. by repeat constructor.
  - split; [reflexivity|]. by repeat constructor.
  - destruct (H eq_refl ltac:(simpl; lia)) as (M & HM & Hbf & Hr & Hc & _).
    by exists M.
Defined.

(** X23. [concatenarVertical] asks for as many columns on both sides and,
    when both matrices have a row, puts the second below the first. A
    matrix without rows passes its test beside one that has a row and is
    refused by [math.concat]. *)
Theorem concatenarVertical_entradas (A B : Matrix) :
  bien_formada A -> bien_formada B ->
  (cols A <> cols B ->
     concatenarVertical A B =
     throw ("Las matrices deben tener el mismo número de columnas para " +:+
            "concatenación vertical (" +:+ numero (Z.of_nat (cols A)) +:+
            " vs " +:+ numero (Z.of_nat (cols B)) +:+ ")")) /\
  (cols A = cols B -> (0 < rows A)%nat -> (0 < rows B)%nat ->
     exists M, concatenarVertical A B = ok M /\ bien_formada M /\
       rows M = (rows A + rows B)%nat /\ cols M = cols A /\
       forall i j,
         entry M i j =
         if decide (i < rows A)%nat then entry A i j
         else entry B (i - rows A) j) /\
  (cols A = cols B -> (0 < rows A)%nat -> rows B = 0%nat ->
     concatenarVertical A B = throw "Dimension mismatch (2 != 1)") /\
  (cols A = cols B -> rows A = 0%nat -> (0 < rows B)%nat ->
     exists msg, concatenarVertical A B = throw msg).
Proof.
  intros HA HB. unfold concatenarVertical, size. simpl.
  split; [|split; [|split]].
  - intros Hne. destruct (Z.eqb_spec (Z.of_nat (cols A)) (Z.of_nat (cols B)));
      [lia|done].
  - intros Heq HpA HpB. rewrite (proj2 (Z.eqb_eq _ _)) by lia. simpl.
    by apply concat_abajo.
  - intros Heq HpA H0. rewrite (proj2 (Z.eqb_eq _ _)) by lia. simpl.
    apply concat_sobre_vacia; (done || by destruct HA, HB).
  - intros Heq H0 HpB. rewrite (proj2 (Z.eqb_eq _ _)) by lia. simpl.
    apply concat_sin_filas; try (by destruct HA, HB); [by left|].
    right. split; [done|lia].
Qed.

Lemma concatenarVertical_entradas_witness :
  exists M, concatenarVertical
              (mkMatrix 1 2 [[Uno; Cero]])
              (mkMatrix 2 2 [[Cero; Uno]; [Uno; Uno]]) = ok M /\
            bien_formada M /\ rows M = 3%nat /\ cols M = 2%nat.
Proof.
  destruct (concatenarVertical_entradas
              (mkMatrix 1 2 [[Uno; Cero]])
              (mkMatrix 2 2 [[Cero; Uno]; [Uno; Uno]]))
    as (_ & H & _).
  - split; [reflexivity|]. by repeat constructor.
  - split; [reflexivity|]. by repeat constructor.
  - destruct (H eq_refl ltac:(simpl; lia) ltac:(simpl; lia))
      as (M & HM & Hbf & Hr & Hc & _).
    by exists M.
Defined.

(** X24. [crearMatrizVacia] asks for positive dimensions; the matrix it returns
    has the dimensions asked for, which [obtenerDimensiones] reports, and
    reads 0 at every position. *)
Theorem crearMatrizVacia_ceros (filas columnas : Z) :
  ((filas <= 0)%Z \/ (columnas <= 0)%Z ->
     crearMatrizVacia filas columnas =
     throw "Las dimensiones de la matriz deben ser positivas") /\
  ((0 < filas)%Z -> (0 < columnas)%Z ->
     exists M, crearMatrizVacia filas columnas = ok M /\ bien_formada M /\
       obtenerDimensiones M = (filas, columnas) /\
       forall i j, (0 <= i < filas)%Z -> (0 <= j < columnas)%Z ->
         obtenerElemento M i j = ok Cero).
Proof.
  unfold crearMatrizVacia. split.
  - intros H. destruct (Z.leb_spec filas 0), (Z.leb_spec columnas 0);
      simpl; try done; lia.
  - intros Hf Hc.
    rewrite (proj2 (Z.leb_gt filas 0)), (proj2 (Z.leb_gt columnas 0)) by lia.
    simpl. rewrite zeros_ok by lia. eexists. split; [done|].
    split; [apply forma_ceros|]. split.
    + unfold obtenerDimensiones, size. simpl.
      destruct (Z.eqb_spec (Z.of_nat (Z.to_nat columnas)) 0); [lia|].
      f_equal; lia.
    + intros i j Hi Hj.
      rewrite <- (Z2Nat.id i), <- (Z2Nat.id j) by lia.
      rewrite obtenerElemento_ok by (simpl; lia).
      unfold entry. simpl. by rewrite entrada_ceros.
Qed.

Lemma crearMatrizVacia_ceros_witness :
  exists M, crearMatrizVacia 2 3 = ok M /\ obtenerDimensiones M = (2, 3)%Z.
Proof.
  destruct (crearMatrizVacia_ceros 2 3) as [_ H].
  destruct H as (M & HM & _ & Hd & _); [lia|lia|]. by exists M.
Defined.

(** ** The guards of [analizarCircuito] *)

Lemma analizarCircuito_validar elementos numNodes groundNode f msg :
  validar elementos numNodes groundNode f = throw msg ->
  analizarCircuito elementos numNodes groundNode f = fallo msg /\
  consola elementos numNodes groundNode f = [].
Proof.
  intros H. unfold analizarCircuito, analizarCircuito_try, consola.
  by rewrite H.
Qed.

(** X1. The guards of [analizarCircuito] are tried in this order: an empty
    list of elements, fewer than two nodes, a reference node that is not a
    node of the circuit, a negative frequency. The first that fails gives
    the error of the result, and nothing is written on the console. *)
Theorem analizarCircuito_guardas elementos numNodes groundNode f :
  let r := analizarCircuito elementos numNodes groundNode f in
  let c := consola elementos numNodes groundNode f in
  (elementos = [] ->
     r = fallo "No hay elementos en el circuito" /\ c = []) /\
  (elementos <> [] -> (numNodes < 2)%Z ->
     r = fallo "El circuito debe tener al menos 2 nodos (incluyendo tierra)"
     /\ c = []) /\
  (elementos <> [] -> (2 <= numNodes)%Z ->
   (groundNode < 0)%Z \/ (numNodes <= groundNode)%Z ->
     r = fallo ("Nodo de tierra inválido: " +:+ numero groundNode) /\
     c = []) /\
  (elementos <> [] -> (2 <= numNodes)%Z ->
   (0 <= groundNode < numNodes)%Z -> (f < 0)%Qc ->
     r = fallo "La frecuencia no puede ser negativa" /\ c = []).
Proof.
  intros r c. subst r c. split; [|split; [|split]].
  - intros ->. by apply analizarCircuito_validar.
  - intros Hne Hn. apply analizarCircuito_validar.
    destruct elementos as [|e0 l]; [done|]. unfold validar. simpl.
    by rewrite (proj2 (Z.ltb_lt numNodes 2)) by lia.
  - intros Hne Hn Hg. apply analizarCircuito_validar.
    destruct elementos as [|e0 l]; [done|]. unfold validar. simpl.
    rewrite (proj2 (Z.ltb_ge numNodes 2)) by lia. simpl.
    destruct (Z.ltb_spec groundNode 0), (Z.leb_spec numNodes groundNode);
      simpl; try done; lia.
  - intros Hne Hn Hg Hf. apply analizarCircuito_validar.
    destruct elementos as [|e0 l]; [done|]. unfold validar. simpl.
    rewrite (proj2 (Z.ltb_ge numNodes 2)) by lia. simpl.
    rewrite (proj2 (Z.ltb_ge groundNode 0)) by lia.
    rewrite (proj2 (Z.leb_gt numNodes groundNode)) by lia. simpl.
    by rewrite (proj2 (Qc_ltb_true f 0)).
Qed.

Lemma analizarCircuito_guardas_witness :
  analizarCircuito divisor 1 0 0 =
  fallo "El circuito debe tener al menos 2 nodos (incluyendo tierra)".
Proof.
  apply (analizarCircuito_guardas divisor 1 0 0); [discriminate|lia].
Defined.

(** ** The connectivity scan: meaning and termination *)

Lemma pasada_cerrado (l : list Elemento) (X : gset Z) (c : bool) :
  (forall e, In e l -> nodoPositivo e ∈ X <-> nodoNegativo e ∈ X) ->
  fold_left visitar l (X, c) = (X, c).
Proof.
  induction l as [|e l IH]; intros H; [done|].
  cbn [fold_left].
  replace (visitar (X, c) e) with (X, c); [apply IH; intros; apply H; by right|].
  unfold visitar. specialize (H e (or_introl eq_refl)).
  destruct (bool_decide_reflect (nodoPositivo e ∈ X)),
           (bool_decide_reflect (nodoNegativo e ∈ X)); simpl; tauto.
Qed.

Lemma mientras_combustible (elementos : list Elemento) (r r' : nat)
    (X : gset Z) :
  (faltan elementos X < r)%nat -> (faltan elementos X < r')%nat ->
  mientras r elementos X = mientras r' elementos X.
Proof.
  revert r' X. induction r as [|r IH]; intros [|r'] X Hr Hr'; try lia.
  simpl. unfold pasada.
  destruct (fold_left visitar elementos (X, false)) as [X' cambio] eqn:Hp.
  destruct cambio; [|done].
  pose proof (pasada_invariante elementos 0 elementos (fun e H => H)
                _ _ _ _ Hp) as (_ & _ & _ & Htrue & _).
  destruct (Htrue eq_refl) as [|Hlt]; [done|].
  apply IH; lia.
Qed.

(** X3. The loop [while (cambio)] stops: a round started from the set the scan
    computes changes nothing, and running the loop for more rounds than
    twice the number of elements gives that same set. *)
Theorem escaneo_termina (elementos : list Elemento) (groundNode : Z) :
  pasada elementos (nodosConectados elementos groundNode) =
    (nodosConectados elementos groundNode, false) /\
  forall rondas, (2 * length elementos < rondas)%nat ->
    mientras rondas elementos {[groundNode]} =
    nodosConectados elementos groundNode.
Proof.
  split.
  - apply pasada_cerrado. intros e He.
    by apply nodosConectados_cerrado.
  - intros rondas Hr. unfold nodosConectados.
    pose proof (faltan_cota elementos {[groundNode]}).
    apply mientras_combustible; lia.
Qed.

Lemma escaneo_termina_witness :
  mientras 7 divisor {[0%Z]} = nodosConectados divisor 0.
Proof. apply (escaneo_termina divisor 0). simpl. lia. Defined.

(** X2. The set of nodes the scan of [analizarCircuito] computes holds
    exactly the nodes joined to the reference node by a chain of elements,
    of any kind and in either direction. *)
Theorem escaneo_alcanzables (elementos : list Elemento) (groundNode u : Z) :
  u ∈ nodosConectados elementos groundNode <->
  alcanzable elementos groundNode u.
Proof. apply nodosConectados_alcanzable. Qed.

(** X4. On a circuit that passes the guards and whose terminals are all nodes
    of the circuit, the warning is written exactly when some node of the
    circuit is not joined to the reference node; nothing else is ever
    written. *)
Theorem advertencia_conectividad elementos numNodes groundNode f :
  elementos <> [] -> (2 <= numNodes)%Z -> (0 <= groundNode < numNodes)%Z ->
  (0 <= f)%Qc ->
  Forall (terminales_validos numNodes) elementos ->
  (consola elementos numNodes groundNode f =
     ["Advertencia: Algunos nodos no están conectados a tierra"] <->
   exists u, (0 <= u < numNodes)%Z /\ ~ alcanzable elementos groundNode u) /\
  (consola elementos numNodes groundNode f = [] <->
   forall u, (0 <= u < numNodes)%Z -> alcanzable elementos groundNode u).
Proof.
  intros Hne Hn Hg Hf Hval. unfold consola.
  rewrite validar_ok by done.
  set (X := nodosConectados elementos groundNode).
  set (S := list_to_set (seqZ 0 numNodes) : gset Z).
  assert (HS : forall n, n ∈ S <-> (0 <= n < numNodes)%Z).
  { intros n. unfold S. rewrite elem_of_list_to_set, elem_of_seqZ. lia. }
  assert (HsS : base.size S = Z.to_nat numNodes).
  { unfold S. rewrite size_list_to_set by apply NoDup_seqZ.
    by rewrite length_seqZ. }
  assert (Hsub : X ⊆ S).
  { intros n Hn'. apply nodosConectados_alcanzable in Hn'. apply HS.
    rewrite List.Forall_forall in Hval.
    induction Hn' as [|e He _ _|e He _ _]; [done| |];
      by destruct (Hval e He). }
  assert (Hcasos : (exists u, (0 <= u < numNodes)%Z /\
                      ~ alcanzable elementos groundNode u) /\
                   (Z.of_nat (base.size X) < numNodes)%Z \/
                   (forall u, (0 <= u < numNodes)%Z ->
                      alcanzable elementos groundNode u) /\
                   (numNodes <= Z.of_nat (base.size X))%Z).
  { destruct (decide (base.size (S ∖ X) = 0%nat)) as [H0|H0].
    - right. apply size_empty_inv in H0.
      assert (HXS : X ≡ S).
      { apply (anti_symm (⊆)); [done|]. intros x Hx.
        destruct (decide (x ∈ X)) as [|Hno]; [done|]. exfalso.
        apply (not_elem_of_empty (C:=gset Z) x). rewrite <- H0.
        by apply elem_of_difference. }
      split.
      + intros u Hu. apply nodosConectados_alcanzable. fold X.
        apply HXS, HS. done.
      + rewrite HXS, HsS. lia.
    - left. pose proof (size_difference S X Hsub) as Hd.
      split; [|lia].
      destruct (size_pos_elem_of (S ∖ X)) as [u Hu]; [lia|].
      apply elem_of_difference in Hu as [HuS HuX].
      exists u. split; [by apply HS|].
      intros Ha. apply HuX. by apply nodosConectados_alcanzable. }
  destruct Hcasos as [[(u & Hu & Hnu) Hlt]|[Hall Hge]].
  - rewrite (proj2 (Z.ltb_lt _ _)) by done. split; split; try done.
    + intros _. by exists u.
    + intros H. destruct Hnu. by apply H.
  - rewrite (proj2 (Z.ltb_ge _ _)) by done. split; split; try done.
    intros (u & Hu & Hnu). destruct Hnu. by apply Hall.
Qed.

Lemma advertencia_conectividad_witness :
  consola divisor 3 0 0 = [].
Proof.
  apply (advertencia_conectividad divisor 3 0 0);
    [discriminate|lia|lia|done| |].
  - repeat constructor; simpl; lia.
  - intros u Hu. apply nodosConectados_alcanzable.
    assert (Hc : (u = 0 \/ u = 1 \/ u = 2)%Z) by lia.
    destruct Hc as [Hc|[Hc|Hc]]; rewrite Hc;
      by apply (bool_decide_eq_true_1 (_ ∈ nodosConectados divisor 0)).
Defined.

(** ** The incidence block *)

Lemma establecerElemento_inr (M : Matrix) (i j : Z) (v : Cx) (M' : Matrix) :
  establecerElemento M i j v = inr M' ->
  exists a b, i = Z.of_nat a /\ j = Z.of_nat b /\
    (a < rows M)%nat /\ (b < cols M)%nat /\
    M' = mkMatrix (rows M) (cols M) (poner (data M) a b v).
Proof.
  unfold establecerElemento, size. simpl.
  destruct ((i <? 0) || _)%Z; [discriminate|].
  destruct ((j <? 0) || _)%Z; [discriminate|].
  apply set_inr.
Qed.

Lemma incidir_inr (groundNode : Z) (M M' : Matrix) (jf : Z * Elemento) :
  incidir groundNode M jf = inr M' ->
  M' = mkMatrix (rows M) (cols M) (incidir_datos groundNode (data M) jf).
Proof.
  destruct jf as [j fuente]. unfold incidir, incidir_datos. simpl.
  intros H. inv_bind H.
  assert (Ha' : a = mkMatrix (rows M) (cols M)
            (if (0 <=? nodoAIndice (nodoPositivo fuente) groundNode)%Z
             then poner (data M)
                    (Z.to_nat (nodoAIndice (nodoPositivo fuente) groundNode))
                    (Z.to_nat j) Uno
             else data M)).
  { destruct (0 <=? _)%Z.
    - apply establecerElemento_inr in Ha as (x & y & -> & -> & _ & _ & ->).
      by rewrite !Nat2Z.id.
    - injection Ha as <-. by destruct M. }
  subst a. simpl in H.
  destruct (0 <=? nodoAIndice (nodoNegativo fuente) groundNode)%Z.
  - apply establecerElemento_inr in H as (x & y & -> & -> & _ & _ & ->).
    simpl. by rewrite !Nat2Z.id.
  - by injection H as <-.
Qed.

Lemma incidir_datos_forma (n m : nat) (groundNode : Z) (d : list (list Cx))
    (jf : Z * Elemento) :
  forma n m d -> forma n m (incidir_datos groundNode d jf).
Proof.
  intros Hd. unfold incidir_datos.
  assert (forma n m
    (if (0 <=? nodoAIndice (nodoPositivo (snd jf)) groundNode)%Z
     then poner d (Z.to_nat (nodoAIndice (nodoPositivo (snd jf)) groundNode))
            (Z.to_nat (fst jf)) Uno
     else d)) by (destruct (0 <=? _)%Z; [by apply forma_poner|done]).
  destruct (0 <=? nodoAIndice (nodoNegativo _) _)%Z; [by apply forma_poner|done].
Qed.

Lemma incidir_datos_entrada (n m : nat) (groundNode : Z)
    (d : list (list Cx)) (s : nat) (fuente : Elemento) (i k : nat) :
  forma n m d -> (i < n)%nat -> (k < m)%nat ->
  nth k (nth i (incidir_datos groundNode d (Z.of_nat s, fuente)) []) Cero =
  if decide (k = s) then
    if decide (Z.of_nat i = nodoAIndice (nodoNegativo fuente) groundNode)
    then RtoC (- (1))
    else if decide (Z.of_nat i = nodoAIndice (nodoPositivo fuente) groundNode)
    then Uno
    else nth k (nth i d []) Cero
  else nth k (nth i d []) Cero.
Proof.
  intros Hd Hi Hk. unfold incidir_datos. simpl. rewrite Nat2Z.id.
  set (ip := nodoAIndice (nodoPositivo fuente) groundNode).
  set (iq := nodoAIndice (nodoNegativo fuente) groundNode).
  set (d1 := if (0 <=? ip)%Z then poner d (Z.to_nat ip) s Uno else d).
  assert (Hd1 : forma n m d1).
  { unfold d1. destruct (0 <=? ip)%Z; [by apply forma_poner|done]. }
  assert (H1 : nth k (nth i d1 []) Cero =
               if decide (k = s /\ Z.of_nat i = ip) then Uno
               else nth k (nth i d []) Cero).
  { unfold d1. destruct (Z.leb_spec 0 ip).
    - rewrite (entrada_poner n m) by done.
      destruct (decide (i = Z.to_nat ip /\ k = s)),
               (decide (k = s /\ Z.of_nat i = ip)); try done; lia.
    - rewrite decide_False by lia. done. }
  destruct (Z.leb_spec 0 iq).
  - rewrite (entrada_poner n m) by done. rewrite H1.
    destruct (decide (k = s)) as [->|].
    + destruct (decide (Z.of_nat i = iq)).
      * rewrite decide_True by lia. done.
      * rewrite decide_False by lia.
        destruct (decide (Z.of_nat i = ip)).
        -- by rewrite decide_True.
        -- rewrite decide_False by tauto. done.
    + rewrite !decide_False by tauto. done.
  - rewrite H1. destruct (decide (k = s)) as [->|].
    + rewrite (decide_False (P:=Z.of_nat i = iq)) by lia.
      destruct (decide (Z.of_nat i = ip)).
      * by rewrite decide_True.
      * rewrite decide_False by tauto. done.
    + rewrite decide_False by tauto. done.
Qed.

Lemma numerados_cons {A} (s : nat) (x : A) (l : list A) :
  numerados s (x :: l) = (Z.of_nat s, x) :: numerados (S s) l.
Proof. done. Qed.

Lemma incidir_datos_bucle (n m : nat) (groundNode : Z) (l : list Elemento) :
  forall (s : nat) (d : list (list Cx)),
  forma n m d ->
  (forall i k, (s <= k)%nat -> nth k (nth i d []) Cero = Cero) ->
  let d' := fold_left (incidir_datos groundNode) (numerados s l) d in
  forma n m d' /\
  (forall i k, (i < n)%nat -> (k < s)%nat -> (k < m)%nat ->
     nth k (nth i d' []) Cero = nth k (nth i d []) Cero) /\
  (forall i j fuente, (i < n)%nat -> (s + j < m)%nat ->
     l !! j = Some fuente ->
     nth (s + j) (nth i d' []) Cero = incidencia groundNode fuente i).
Proof.
  induction l as [|x l IH]; intros s d Hd Hz d'; subst d'.
  - simpl. split; [done|]. split; [done|]. intros i j fuente _ _ H. done.
  - rewrite numerados_cons. cbn [fold_left].
    set (d1 := incidir_datos groundNode d (Z.of_nat s, x)).
    assert (Hd1 : forma n m d1) by by apply incidir_datos_forma.
    destruct (IH (S s) d1 Hd1) as (Hf & Hant & Hcol).
    { intros i k Hk.
      destruct (decide (i < n)%nat) as [Hi|Hi];
        [destruct (decide (k < m)%nat) as [Hkm|Hkm]|].
      - unfold d1. rewrite (incidir_datos_entrada n m) by done.
        rewrite decide_False by lia. apply Hz. lia.
      - rewrite nth_overflow; [done|].
        rewrite (forma_fila n m) by done. lia.
      - rewrite (nth_overflow d1) by (destruct Hd1; lia). by destruct k. }
    split; [done|]. split.
    + intros i k Hi Hk Hkm. rewrite Hant by (done || lia).
      unfold d1. rewrite (incidir_datos_entrada n m) by done.
      rewrite decide_False by lia. done.
    + intros i [|j] fuente Hi Hj Hl.
      * injection Hl as ->. rewrite Nat.add_0_r in *.
        rewrite Hant by (done || lia). unfold d1.
        rewrite (incidir_datos_entrada n m) by done.
        rewrite decide_True by done. unfold incidencia.
        rewrite Hz by lia. done.
      * simpl in Hl. replace (s + S j)%nat with (S s + j)%nat by lia.
        apply Hcol; (done || lia).
Qed.

Lemma establecerElemento_devuelve (M : Matrix) (i j : Z) (v : Cx) :
  (0 <= i < Z.of_nat (rows M))%Z -> (0 <= j < Z.of_nat (cols M))%Z ->
  exists M', establecerElemento M i j v = ok M' /\
             rows M' = rows M /\ cols M' = cols M.
Proof.
  intros Hi Hj.
  rewrite <- (Z2Nat.id i), <- (Z2Nat.id j) by lia.
  rewrite establecerElemento_ok by lia. by eexists.
Qed.

Lemma Forall_numerados {A} (P : A -> Prop) (s m : nat) (l : list A) :
  Forall P l -> (s + length l <= m)%nat ->
  Forall (fun jf => (0 <= fst jf < Z.of_nat m)%Z /\ P (snd jf))
         (numerados s l).
Proof.
  intros Hl. revert s. induction Hl as [|x l Hx _ IH]; intros s Hs.
  - constructor.
  - rewrite numerados_cons. simpl in Hs. constructor.
    + simpl. split; [lia|done].
    + apply IH. lia.
Qed.

Lemma construirMatrizB_inr elementos numNodes groundNode B :
  construirMatrizB elementos numNodes groundNode = ok B ->
  bien_formada B /\
  rows B = Z.to_nat (numNodes - 1) /\
  cols B = length (List.filter (esTipo "V") elementos) /\
  forall i j fuente, (i < rows B)%nat ->
    List.filter (esTipo "V") elementos !! j = Some fuente ->
    entry B i j = incidencia groundNode fuente i.
Proof.
  unfold construirMatrizB. set (fuentes := List.filter (esTipo "V") elementos).
  intros H.
  destruct (Nat.eqb_spec (length fuentes) 0) as [Hm|Hm].
  + apply zeros_inr in H as (_ & _ & ->).
    split; [apply (forma_ceros _ 0)|]. split; [done|].
    split; [by rewrite Hm|].
    intros i j fuente _ Hj. apply lookup_lt_Some in Hj. lia.
  + inv_bind H. apply zeros_inr in Ha as (_ & _ & ->).
    apply (forOf_fold_left _ (incidir_datos groundNode)) in H;
      [|intros ? ? ?; apply incidir_inr].
    subst B. simpl. rewrite Nat2Z.id.
    destruct (incidir_datos_bucle (Z.to_nat (numNodes - 1))
                (length fuentes) groundNode fuentes 0
                (replicate (Z.to_nat (numNodes - 1))
                   (replicate (length fuentes) Cero)))
      as (Hf & _ & Hcol).
    { apply forma_ceros. }
    { intros i k _. apply entrada_ceros. }
    split; [done|]. split; [done|]. split; [done|].
    intros i j fuente Hi Hj. unfold entry. simpl.
    apply (Hcol i j fuente); [done| |done].
    apply lookup_lt_Some in Hj. simpl. lia.
Qed.

Lemma construirMatrizB_devuelve elementos numNodes groundNode :
  (1 <= numNodes)%Z -> (0 <= groundNode < numNodes)%Z ->
  Forall (terminales_validos numNodes) (List.filter (esTipo "V") elementos) ->
  exists B, construirMatrizB elementos numNodes groundNode = ok B.
Proof.
  unfold construirMatrizB. set (fuentes := List.filter (esTipo "V") elementos).
  intros Hn Hg Hval.
  destruct (Nat.eqb_spec (length fuentes) 0) as [Hm|Hm].
  + rewrite zeros_ok by lia. by eexists.
  + rewrite zeros_ok by lia. simpl.
    destruct (forOf_ok
      (fun M => rows M = Z.to_nat (numNodes - 1) /\
                cols M = length fuentes)
      (fun jf => (0 <= fst jf < Z.of_nat (length fuentes))%Z /\
                 terminales_validos numNodes (snd jf))
      (incidir groundNode) (indexados fuentes)) with
      (s := mkMatrix (Z.to_nat (numNodes - 1))
              (Z.to_nat (Z.of_nat (length fuentes)))
              (replicate (Z.to_nat (numNodes - 1))
                 (replicate (Z.to_nat (Z.of_nat (length fuentes))) Cero)))
      as (B & HB & _).
    * intros M [j fuente] [Hr Hc] [Hj [Hp Hq]]. simpl in *.
      unfold incidir.
      pose proof (nodoAIndice_rango _ _ _ Hp Hg) as Hi.
      pose proof (nodoAIndice_rango _ _ _ Hq Hg) as Hi'.
      assert (H1 : exists M1,
        (if (0 <=? nodoAIndice (nodoPositivo fuente) groundNode)%Z
         then establecerElemento M
                (nodoAIndice (nodoPositivo fuente) groundNode) j Uno
         else ok M) = ok M1 /\ rows M1 = rows M /\ cols M1 = cols M).
      { destruct (Z.leb_spec 0 (nodoAIndice (nodoPositivo fuente) groundNode));
          [|by eauto]. apply establecerElemento_devuelve; lia. }
      destruct H1 as (M1 & -> & Hr1 & Hc1). simpl.
      destruct (Z.leb_spec 0 (nodoAIndice (nodoNegativo fuente) groundNode)).
      -- destruct (establecerElemento_devuelve M1
                     (nodoAIndice (nodoNegativo fuente) groundNode) j
                     (RtoC (- (1)))) as (M2 & -> & Hr2 & Hc2); try lia.
         exists M2. split; [done|]. split; congruence.
      -- exists M1. split; [done|]. split; congruence.
    * change (indexados fuentes) with (numerados 0 fuentes).
      apply Forall_numerados; [done|simpl; lia].
    * simpl. by rewrite Nat2Z.id.
    * by exists B.
Qed.

(** X5. The incidence block. When [construirMatrizB] returns, its matrix has
    a row for each node but the reference node and a column for each
    voltage source, in the order of the list, and the column of a source
    holds +1 in the row of its positive terminal, -1 in the row of its
    negative terminal and 0 elsewhere. It does return when the terminals
    of the voltage sources are nodes of the circuit. *)
Theorem construirMatrizB_incidencia elementos numNodes groundNode :
  let fuentes := List.filter (esTipo "V") elementos in
  (forall B, construirMatrizB elementos numNodes groundNode = ok B ->
     bien_formada B /\
     rows B = Z.to_nat (numNodes - 1) /\ cols B = length fuentes /\
     forall i j fuente, (i < rows B)%nat -> fuentes !! j = Some fuente ->
       entry B i j = incidencia groundNode fuente i) /\
  ((1 <= numNodes)%Z -> (0 <= groundNode < numNodes)%Z ->
   Forall (terminales_validos numNodes) fuentes ->
   exists B, construirMatrizB elementos numNodes groundNode = ok B).
Proof.
  split; [apply construirMatrizB_inr|apply construirMatrizB_devuelve].
Qed.

Lemma construirMatrizB_incidencia_witness :
  exists B, construirMatrizB divisor 3 0 = ok B.
Proof.
  apply (construirMatrizB_incidencia divisor 3 0); [lia|lia|].
  repeat constructor; simpl; lia.
Defined.

Lemma fijar_datos_bucle (m : nat) (l : list Elemento) :
  forall (s : nat) (d : list (list Cx)),
  forma m 1 d ->
  let d' := fold_left fijar_datos (numerados s l) d in
  forma m 1 d' /\
  (forall k, (k < s)%nat -> (k < m)%nat ->
     nth 0 (nth k d' []) Cero = nth 0 (nth k d []) Cero) /\
  (forall j fuente, (s + j < m)%nat -> l !! j = Some fuente ->
     nth 0 (nth (s + j) d' []) Cero = RtoC (valor fuente)).
Proof.
  induction l as [|x l IH]; intros s d Hd d'; subst d'.
  - simpl. split; [done|]. split; [done|]. intros j fuente _ H. done.
  - rewrite numerados_cons. cbn [fold_left].
    set (d1 := fijar_datos d (Z.of_nat s, x)).
    assert (Hd1 : forma m 1 d1) by by apply forma_poner.
    destruct (IH (S s) d1 Hd1) as (Hf & Hant & Hcol).
    split; [done|]. split.
    + intros k Hk Hkm. rewrite Hant by lia. unfold d1, fijar_datos.
      rewrite (entrada_poner m 1) by (done || lia).
      rewrite decide_False; [done|]. simpl. lia.
    + intros [|j] fuente Hj Hl.
      * injection Hl as ->. rewrite Nat.add_0_r in *.
        rewrite Hant by lia. unfold d1, fijar_datos.
        rewrite (entrada_poner m 1) by (done || lia).
        rewrite decide_True; [done|]. simpl. lia.
      * simpl in Hl. replace (s + S j)%nat with (S s + j)%nat by lia.
        apply Hcol; (done || lia).
Qed.

Lemma construirVectorE_entradas (elementos : list Elemento) :
  exists e, construirVectorE elementos = ok e /\
    bien_formada e /\
    rows e = length (List.filter (esTipo "V") elementos) /\
    cols e = 1%nat /\
    forall j fuente,
      List.filter (esTipo "V") elementos !! j = Some fuente ->
      entry e j 0 = RtoC (valor fuente).
Proof.
  set (fuentes := List.filter (esTipo "V") elementos).
  destruct (construirVectorE_ok elementos) as (e & He & Hr & Hc).
  exists e. split; [done|]. fold fuentes in Hr.
  unfold construirVectorE in He. fold fuentes in He.
  destruct (Nat.eqb_spec (length fuentes) 0) as [Hm|Hm].
  - apply zeros_inr in He as (_ & _ & ->).
    split; [apply (forma_ceros 0 1)|]. split; [by rewrite Hm|].
    split; [done|]. intros j fuente Hj. apply lookup_lt_Some in Hj. lia.
  - inv_bind He. apply zeros_inr in Ha as (_ & _ & ->).
    apply (forOf_fold_left _ fijar_datos) in He.
    2:{ intros M [j f] M' H. simpl in H.
        apply set_inr in H as (x & y & -> & Hy & _ & _ & ->).
        unfold fijar_datos. simpl. rewrite Nat2Z.id.
        by replace y with 0%nat by lia. }
    subst e. simpl in *. rewrite Nat2Z.id in *.
    destruct (fijar_datos_bucle (length fuentes) fuentes 0
                (replicate (length fuentes) (replicate 1 Cero)))
      as (Hf & _ & Hcol); [apply forma_ceros|].
    split; [done|]. split; [done|]. split; [done|].
    intros j fuente Hj. unfold entry. simpl.
    apply (Hcol j fuente); [|done]. apply lookup_lt_Some in Hj. simpl. lia.
Qed.

(** X7. The vector of known voltages. [construirVectorE] always returns a
    column with a row for each voltage source, in the order of the list,
    that holds the value of the source. *)
Theorem construirVectorE_valores (elementos : list Elemento) :
  let fuentes := List.filter (esTipo "V") elementos in
  exists e, construirVectorE elementos = ok e /\
    bien_formada e /\ rows e = length fuentes /\ cols e = 1%nat /\
    forall j fuente, fuentes !! j = Some fuente ->
      entry e j 0 = RtoC (valor fuente).
Proof. apply construirVectorE_entradas. Qed.

(** *** The vector of known currents *)

Lemma entrada_sumar_en (n c : nat) (d : list (list Cx)) (i j : Z) (y : Cx)
    (a b : nat) :
  forma n c d -> (a < n)%nat -> (b < c)%nat ->
  nth b (nth a (sumar_en d i j y) []) Cero =
  if decide (Z.of_nat a = i /\ Z.of_nat b = j)
  then (nth b (nth a d []) Cero + y)%C
  else nth b (nth a d []) Cero.
Proof.
  intros Hd Ha Hb. unfold sumar_en.
  destruct (Z.leb_spec 0 i), (Z.leb_spec 0 j); simpl.
  - rewrite (entrada_alter n c) by done.
    destruct (decide (a = Z.to_nat i /\ b = Z.to_nat j)),
             (decide (Z.of_nat a = i /\ Z.of_nat b = j)); try done; lia.
  - rewrite decide_False by lia. done.
  - rewrite decide_False by lia. done.
  - rewrite decide_False by lia. done.
Qed.

Lemma forma_sumar (n c : nat) (d : list (list Cx)) (i j : Z) (y : Cx) :
  forma n c d -> forma n c (sumar_en d i j y).
Proof.
  intros Hd. unfold sumar_en. destruct (_ && _)%Z; [|done].
  by apply forma_alter.
Qed.

Lemma inyectar_inr (groundNode : Z) (M : Matrix) (fuente : Elemento)
    (M' : Matrix) :
  inyectar groundNode M fuente = inr M' ->
  M' = mkMatrix (rows M) (cols M)
         (sumar_en
            (sumar_en (data M)
               (nodoAIndice (nodoPositivo fuente) groundNode) 0
               (RtoC (valor fuente)))
            (nodoAIndice (nodoNegativo fuente) groundNode) 0
            (multiply (RtoC (- (1))) (RtoC (valor fuente)))).
Proof.
  unfold inyectar. intros H. inv_bind H.
  assert (Ha' : a = mkMatrix (rows M) (cols M)
            (sumar_en (data M)
               (nodoAIndice (nodoPositivo fuente) groundNode) 0
               (RtoC (valor fuente)))).
  { destruct (Z.leb_spec 0 (nodoAIndice (nodoPositivo fuente) groundNode)).
    - by apply sumarElemento_sumar_en in Ha.
    - injection Ha as <-.
      rewrite (proj1 (sumar_en_negativo _ _ _ _ (or_introl H0))).
      by destruct M. }
  subst a.
  destruct (Z.leb_spec 0 (nodoAIndice (nodoNegativo fuente) groundNode)).
  - by apply sumarElemento_sumar_en in H.
  - injection H as <-.
    by rewrite (proj1 (sumar_en_negativo _ _ _ _ (or_introl H0))).
Qed.

Lemma inyectar_bucle (n : nat) (groundNode : Z) (l : list Elemento) :
  forall d : list (list Cx),
  forma n 1 d ->
  let d' := fold_left
      (fun d fuente =>
         sumar_en
           (sumar_en d (nodoAIndice (nodoPositivo fuente) groundNode) 0
              (RtoC (valor fuente)))
           (nodoAIndice (nodoNegativo fuente) groundNode) 0
           (multiply (RtoC (- (1))) (RtoC (valor fuente)))) l d in
  forma n 1 d' /\
  forall k, (k < n)%nat ->
    nth 0 (nth k d' []) Cero =
    (nth 0 (nth k d []) Cero + suma (map (inyeccion groundNode k) l))%C.
Proof.
  induction l as [|x l IH]; intros d Hd d'; subst d'.
  - simpl. split; [done|]. intros k _. ring.
  - cbn [fold_left].
    set (d1 := sumar_en (sumar_en d _ 0 _) _ 0 _).
    assert (Hd1 : forma n 1 d1) by (unfold d1; by do 2 apply forma_sumar).
    destruct (IH d1 Hd1) as (Hf & Hent). split; [done|].
    intros k Hk. rewrite Hent by done. unfold d1.
    rewrite (entrada_sumar_en n 1) by (try apply forma_sumar; done || lia).
    rewrite (entrada_sumar_en n 1) by (done || lia).
    simpl. unfold inyeccion at 2, multiply.
    rewrite menos_uno.
    repeat case_decide; try (exfalso; simpl in *; tauto); ring.
Qed.

Lemma construirVectorI_entradas elementos numNodes groundNode i :
  construirVectorI elementos numNodes groundNode = ok i ->
  bien_formada i /\
  rows i = Z.to_nat (numNodes - 1) /\ cols i = 1%nat /\
  forall k, (k < rows i)%nat ->
    entry i k 0 =
    suma (map (inyeccion groundNode k) (List.filter (esTipo "I") elementos)).
Proof.
  unfold construirVectorI. set (fuentes := List.filter (esTipo "I") elementos).
  intros H. inv_bind H. apply zeros_inr in Ha as (_ & _ & ->).
  apply (forOf_fold_left _
           (fun d fuente =>
              sumar_en
                (sumar_en d (nodoAIndice (nodoPositivo fuente) groundNode) 0
                   (RtoC (valor fuente)))
                (nodoAIndice (nodoNegativo fuente) groundNode) 0
                (multiply (RtoC (- (1))) (RtoC (valor fuente))))
           _ (inyectar_inr groundNode)) in H.
  subst i. simpl.
  destruct (inyectar_bucle (Z.to_nat (numNodes - 1)) groundNode fuentes
              (replicate (Z.to_nat (numNodes - 1)) (replicate 1 Cero)))
    as (Hf & Hent); [apply forma_ceros|].
  split; [done|]. split; [done|]. split; [done|].
  intros k Hk. unfold entry. simpl. rewrite Hent by done.
  rewrite entrada_ceros. ring.
Qed.

Lemma construirVectorI_devuelve elementos numNodes groundNode :
  (1 <= numNodes)%Z -> (0 <= groundNode < numNodes)%Z ->
  Forall (terminales_validos numNodes) (List.filter (esTipo "I") elementos) ->
  exists i, construirVectorI elementos numNodes groundNode = ok i.
Proof.
  unfold construirVectorI. set (fuentes := List.filter (esTipo "I") elementos).
  intros Hn Hg Hval. rewrite zeros_ok by lia. simpl.
  destruct (forOf_ok
    (fun M => rows M = Z.to_nat (numNodes - 1) /\ cols M = 1%nat)
    (terminales_validos numNodes)
    (inyectar groundNode) fuentes) with
    (s := mkMatrix (Z.to_nat (numNodes - 1)) (Z.to_nat 1)
            (replicate (Z.to_nat (numNodes - 1))
               (replicate (Z.to_nat 1) Cero)))
    as (B & HB & _); try done; [|by exists B].
  intros M e [Hr Hc] [Hp Hq]. unfold inyectar.
  pose proof (nodoAIndice_rango _ _ _ Hp Hg) as Hi.
  pose proof (nodoAIndice_rango _ _ _ Hq Hg) as Hj.
  assert (H1 : exists M1,
    (if (0 <=? nodoAIndice (nodoPositivo e) groundNode)%Z
     then sumarElemento M (nodoAIndice (nodoPositivo e) groundNode) 0
            (RtoC (valor e))
     else ok M) = ok M1 /\ rows M1 = rows M /\ cols M1 = cols M).
  { destruct (Z.leb_spec 0 (nodoAIndice (nodoPositivo e) groundNode));
      [|by eauto]. apply sumarElemento_okZ; lia. }
  destruct H1 as (M1 & -> & Hr1 & Hc1). simpl.
  destruct (Z.leb_spec 0 (nodoAIndice (nodoNegativo e) groundNode)).
  + destruct (sumarElemento_okZ M1
                (nodoAIndice (nodoNegativo e) groundNode) 0
                (multiply (RtoC (- (1))) (RtoC (valor e))))
      as (M2 & -> & Hr2 & Hc2); try lia.
    exists M2. split; [done|]. split; congruence.
  + exists M1. split; [done|]. split; congruence.
Qed.

(** X6. The vector of known currents. When [construirVectorI] returns, its
    column has a row for each node but the reference node, and the row of
    a node holds the sum, over the current sources in the order of the
    list, of the value of each source entering at the node minus the value
    of each source leaving it. It does return when the terminals of the
    current sources are nodes of the circuit. *)
Theorem construirVectorI_inyecciones elementos numNodes groundNode :
  let fuentes := List.filter (esTipo "I") elementos in
  (forall i, construirVectorI elementos numNodes groundNode = ok i ->
     bien_formada i /\
     rows i = Z.to_nat (numNodes - 1) /\ cols i = 1%nat /\
     forall k, (k < rows i)%nat ->
       entry i k 0 = suma (map (inyeccion groundNode k) fuentes)) /\
  ((1 <= numNodes)%Z -> (0 <= groundNode < numNodes)%Z ->
   Forall (terminales_validos numNodes) fuentes ->
   exists i, construirVectorI elementos numNodes groundNode = ok i).
Proof.
  split; [apply construirVectorI_entradas|apply construirVectorI_devuelve].
Qed.

Lemma construirVectorI_inyecciones_witness :
  exists i, construirVectorI divisor_con_corriente 3 0 = ok i /\
    entry i 1 0 = RtoC (qc 1 1000).
Proof.
  destruct (construirVectorI_inyecciones divisor_con_corriente 3 0)
    as [Hent Hdev].
  destruct Hdev as [i Hi]; [lia|lia| |].
  { repeat constructor; simpl; lia. }
  exists i. split; [done|].
  destruct (Hent i Hi) as (_ & Hr & _ & He).
  rewrite He by (rewrite Hr; simpl; lia). by vm_compute.
Defined.

(** ** The assembled matrix *)

Lemma concat_lado_inr (A B M : Matrix) :
  length (data A) = rows A -> length (data B) = rows B ->
  concat A B 1 = ok M -> (0 < rows A)%nat /\ rows A = rows B.
Proof.
  intros HlA HlB. unfold concat. rewrite !dimensiones_filas by done.
  destruct (Nat.eqb_spec (rows A) 0) as [HA|HA],
           (Nat.eqb_spec (rows B) 0) as [HB|HB]; simpl; try discriminate.
  rewrite HlA, HlB.
  destruct (Nat.eqb_spec (rows A) (rows B)); [|discriminate].
  intros _. lia.
Qed.

Lemma concat_debajo_inr (A B M : Matrix) :
  bien_formada A -> bien_formada B ->
  (0 < rows A)%nat -> (0 < rows B)%nat ->
  concat A B 0 = ok M -> cols A = cols B.
Proof.
  intros [HlA HrA] [HlB HrB] HA HB. unfold concat.
  rewrite !dimensiones_filas by done.
  destruct (Nat.eqb_spec (rows A) 0) as [|_]; [lia|].
  destruct (Nat.eqb_spec (rows B) 0) as [|_]; [lia|]. simpl.
  destruct (data A) as [|r dA] eqn:EA; [simpl in HlA; lia|].
  destruct (data B) as [|r' dB] eqn:EB; [simpl in HlB; lia|].
  rewrite <- app_comm_cons. cbn [matrix].
  destruct (find _ _) as [x|] eqn:Hfind; [discriminate|]. intros _.
  pose proof (find_none _ _ Hfind r') as Hr'.
  rewrite negb_false_iff in Hr'.
  assert (Hin : In r' (r :: dA ++ r' :: dB))
    by (right; apply in_or_app; right; by left).
  apply Hr', Nat.eqb_eq in Hin.
  inversion HrA; inversion HrB; subst. congruence.
Qed.

(** What a matrix returned by [ensamblarMatrizA] tells of the blocks, and
    what it holds. *)
Lemma ensamblarMatrizA_partes (G B C D A : Matrix) :
  bien_formada G -> bien_formada B -> bien_formada C -> bien_formada D ->
  ensamblarMatrizA G B C D = ok A ->
  ((0 < rows G)%nat /\ rows G = rows B /\
   (0 < rows C)%nat /\ rows C = rows D /\
   (cols G + cols B = cols C + cols D)%nat) /\
  bien_formada A /\
  rows A = (rows G + rows C)%nat /\ cols A = (cols G + cols B)%nat /\
  forall i j, (i < rows A)%nat ->
    entry A i j =
    if decide (i < rows G)%nat then
      if decide (j < cols G)%nat then entry G i j
      else entry B i (j - cols G)
    else
      if decide (j < cols C)%nat then entry C (i - rows G) j
      else entry D (i - rows G) (j - cols C).
Proof.
  intros HG HB HC HD. unfold ensamblarMatrizA. intros H.
  inv_bind H. rename a into S, Ha into HS.
  inv_bind H. rename a into I, Ha into HI.
  pose proof HS as [HpG H1]%concat_lado_inr; try (by destruct HG, HB).
  pose proof HI as [HpC H2]%concat_lado_inr; try (by destruct HC, HD).
  destruct (concat_derecha G B HG HB H1 HpG)
    as (S' & HS' & HfS & HrS & HcS & HeS).
  rewrite HS in HS'. injection HS' as <-.
  destruct (concat_derecha C D HC HD H2 HpC)
    as (I' & HI' & HfI & HrI & HcI & HeI).
  rewrite HI in HI'. injection HI' as <-.
  pose proof H as H3%concat_debajo_inr; [|done|done|lia|lia].
  destruct (concat_abajo S I HfS HfI H3) as (A' & HA' & HfA & HrA & HcA & HeA);
    [lia|lia|].
  rewrite H in HA'. injection HA' as <-.
  split; [repeat split; (done || lia)|].
  split; [done|]. split; [lia|]. split; [lia|].
  intros i j Hi. rewrite HeA, HrS.
  destruct (decide (i < rows G)%nat).
  - by rewrite HeS.
  - rewrite HeI by lia. done.
Qed.

Lemma ensamblarMatrizA_devuelve (G B C D : Matrix) :
  bien_formada G -> bien_formada B -> bien_formada C -> bien_formada D ->
  (0 < rows G)%nat -> rows G = rows B ->
  (0 < rows C)%nat -> rows C = rows D ->
  (cols G + cols B = cols C + cols D)%nat ->
  exists A, ensamblarMatrizA G B C D = ok A.
Proof.
  intros HG HB HC HD HpG H1 HpC H2 H3. unfold ensamblarMatrizA.
  destruct (concat_derecha G B HG HB H1 HpG)
    as (S & -> & HfS & HrS & HcS & _).
  destruct (concat_derecha C D HC HD H2 HpC)
    as (I & -> & HfI & HrI & HcI & _).
  rewrite !bind_ok.
  destruct (concat_abajo S I HfS HfI) as (A & -> & _); [lia|lia|lia|].
  by exists A.
Qed.

Lemma ensamblarMatrizA_sin_filas (G B C D : Matrix) :
  bien_formada G -> bien_formada B -> bien_formada C -> bien_formada D ->
  rows G = 0%nat \/ rows B = 0%nat \/ rows C = 0%nat \/ rows D = 0%nat ->
  exists msg, ensamblarMatrizA G B C D = throw msg.
Proof.
  intros HG HB HC HD H0.
  destruct (ensamblarMatrizA G B C D) as [[msg]|A] eqn:HA; [by exists msg|].
  apply ensamblarMatrizA_partes in HA as ((? & ? & ? & ? & _) & _); try done.
  lia.
Qed.

(** X8. On blocks whose upper left and lower left ones have a row,
    [ensamblarMatrizA] returns exactly when the blocks fit: [G] and [B]
    have as many rows, [C] and [D] have as many rows, and the two bands
    are as wide. A block without rows makes it raise. The matrix it
    returns holds [G] and [B] above [C] and [D]. *)
Theorem ensamblarMatrizA_bloques (G B C D : Matrix) :
  bien_formada G -> bien_formada B -> bien_formada C -> bien_formada D ->
  ((0 < rows G)%nat -> (0 < rows C)%nat ->
   ((exists A, ensamblarMatrizA G B C D = ok A) <->
    rows G = rows B /\ rows C = rows D /\
    (cols G + cols B = cols C + cols D)%nat)) /\
  (rows G = 0%nat \/ rows B = 0%nat \/ rows C = 0%nat \/ rows D = 0%nat ->
   exists msg, ensamblarMatrizA G B C D = throw msg) /\
  forall A, ensamblarMatrizA G B C D = ok A ->
    bien_formada A /\
    rows A = (rows G + rows C)%nat /\ cols A = (cols G + cols B)%nat /\
    forall i j, (i < rows A)%nat ->
      entry A i j =
      if decide (i < rows G)%nat then
        if decide (j < cols G)%nat then entry G i j
        else entry B i (j - cols G)
      else
        if decide (j < cols C)%nat then entry C (i - rows G) j
        else entry D (i - rows G) (j - cols C).
Proof.
  intros HG HB HC HD. split; [|split].
  - intros HpG HpC. split.
    + intros [A HA].
      apply ensamblarMatrizA_partes in HA as ((_ & ? & _ & ? & ?) & _);
        done.
    + intros (H1 & H2 & H3). by apply ensamblarMatrizA_devuelve.
  - by apply ensamblarMatrizA_sin_filas.
  - intros A HA. by apply ensamblarMatrizA_partes in HA as (_ & ?).
Qed.

Lemma ensamblarMatrizA_bloques_witness :
  exists A,
    ensamblarMatrizA
      (mkMatrix 2 2 [[Uno; Cero]; [Cero; Uno]]) (mkMatrix 2 1 [[Uno]; [Cero]])
      (mkMatrix 1 2 [[Uno; Cero]]) (mkMatrix 1 1 [[Cero]]) = ok A.
Proof.
  destruct (ensamblarMatrizA_bloques
      (mkMatrix 2 2 [[Uno; Cero]; [Cero; Uno]]) (mkMatrix 2 1 [[Uno]; [Cero]])
      (mkMatrix 1 2 [[Uno; Cero]]) (mkMatrix 1 1 [[Cero]])) as [H _];
    try (split; (reflexivity || by repeat constructor)).
  apply H; simpl; lia.
Defined.

(** ** The linear solver: solutions *)

Lemma resolverSistema_filas (A z x : Matrix) :
  bien_formada A -> length (data z) = rows z ->
  resolverSistema A z = ok x ->
  rows x = rows A /\ cols x = 1%nat /\
  forall i, (i < rows A)%nat ->
    dot (nth i (data A) []) (columna 0 (data x)) = entry z i 0.
Proof.
  intros HA Hz.
  intros H. unfold resolverSistema in H.
  destruct (resolverSistema_try A z) as [e|x'] eqn:Htry.
  { repeat destruct (includes _ _); discriminate. }
  injection H as ->. rewrite resolverSistema_try_pruebas in Htry.
  do 2 inv_bind Htry.
  by apply lusolve_correcto in Htry.
Qed.

(** ** The parts of a successful analysis *)

(** The arrays of the matrices [math.concat] assembles. *)
Lemma ensamblarMatrizA_datos (G B C D A : Matrix) :
  bien_formada G -> bien_formada B -> bien_formada C -> bien_formada D ->
  ensamblarMatrizA G B C D = ok A ->
  A = mkMatrix (rows G + rows C) (cols G + cols B)
        (zip_with app (data G) (data B) ++ zip_with app (data C) (data D)).
Proof.
  intros HG HB HC HD HA.
  pose proof (ensamblarMatrizA_partes _ _ _ _ _ HG HB HC HD HA)
    as ((HpG & H1 & HpC & H2 & H3) & _).
  unfold ensamblarMatrizA in HA.
  rewrite (concat_lado G B), (concat_lado C D), !bind_ok in HA by done.
  rewrite concat_debajo in HA; cbn [rows cols data] in *; try done.
  - by injection HA as <-.
  - apply forma_zip_app; [done|]. by rewrite H1.
  - apply forma_zip_app; [done|]. by rewrite H2.
Qed.

Lemma ensamblarVectorZ_datos (i e z : Matrix) :
  bien_formada i -> bien_formada e -> (0 < rows i)%nat ->
  ensamblarVectorZ i e = ok z ->
  (0 < rows e)%nat /\ cols i = cols e /\
  z = mkMatrix (rows i + rows e) (cols i) (data i ++ data e).
Proof.
  intros Hi He Hp Hz. unfold ensamblarVectorZ in Hz.
  assert (Hpe : (0 < rows e)%nat).
  { destruct (Nat.eq_dec (rows e) 0) as [H0|]; [|lia].
    rewrite (concat_sobre_vacia i e 0) in Hz; try done;
      by destruct Hi, He. }
  pose proof (concat_debajo_inr _ _ _ Hi He Hp Hpe Hz) as Hc.
  rewrite concat_debajo in Hz by done. by injection Hz as <-.
Qed.

Lemma analizarCircuito_try_anatomia elementos numNodes groundNode f r :
  analizarCircuito_try elementos numNodes groundNode f = inr r ->
  exists G B C D A i e z x v0 d,
    validar elementos numNodes groundNode f = ok tt /\
    construirMatrizG elementos numNodes groundNode f = ok G /\
    construirMatrizB elementos numNodes groundNode = ok B /\
    construirMatrizC B = ok C /\
    construirMatrizD (length (List.filter (esTipo "V") elementos)) = ok D /\
    ensamblarMatrizA G B C D = ok A /\
    construirVectorI elementos numNodes groundNode = ok i /\
    construirVectorE elementos = ok e /\
    ensamblarVectorZ i e = ok z /\
    resolverSistema A z = ok x /\
    forOf (fun (voltajes : gmap Z Cx) i =>
             let* voltaje := get x i 0 in
             ok (<[indiceANodo i groundNode := voltaje]> voltajes))
          (map Z.of_nat (seq 0 (Z.to_nat (numNodes - 1)))) ∅ = ok v0 /\
    forOf (fun (corrientes : gmap string Cx) '(j, fuente) =>
             let* corriente := get x (numNodes - 1 + j)%Z 0 in
             ok (<[nombre fuente := corriente]> corrientes))
          (indexados (List.filter (esTipo "V") elementos)) ∅ =
      ok (corrientes r) /\
    exito r = true /\
    voltajes r = <[groundNode := Cero]> v0 /\
    matrices r = Some (mkMatrices A x z G B C D) /\
    det A = ok d /\
    exists inf, info r = Some inf /\ determinante inf = d /\
      tipoAnalisis inf =
        (if decide (f = 0%Qc) then "DC" else "AC")%string.
Proof.
  unfold analizarCircuito_try. intros H.
  inv_bind H. destruct a.
  repeat inv_bind H. injection H as <-. simpl.
  do 11 eexists. repeat split; eauto.
Qed.

Lemma analizarCircuito_exito elementos numNodes groundNode f :
  exito (analizarCircuito elementos numNodes groundNode f) = true ->
  analizarCircuito_try elementos numNodes groundNode f =
  inr (analizarCircuito elementos numNodes groundNode f).
Proof.
  unfold analizarCircuito.
  by destruct (analizarCircuito_try elementos numNodes groundNode f).
Qed.

Lemma resolverSistema_largo (A z x : Matrix) :
  bien_formada A -> length (data z) = rows z ->
  resolverSistema A z = ok x ->
  length (columna 0 (data x)) = rows A.
Proof.
  intros [HlA _] Hz H. unfold resolverSistema in H.
  destruct (resolverSistema_try A z) as [e|x'] eqn:Htry.
  { repeat destruct (includes _ _); discriminate. }
  injection H as ->. rewrite resolverSistema_try_pruebas in Htry.
  do 2 inv_bind Htry. rename Htry into Ha3.
  unfold lusolve in Ha3.
  destruct (Nat.eqb_spec (rows A) (cols A)) as [Hsq|]; [|discriminate].
  destruct (Nat.eqb_spec (rows z) (rows A)) as [Hb|]; [|discriminate].
  destruct (cols z =? 1)%nat; [|discriminate]. simpl in Ha3.
  destruct (solve_rows _ _) as [xs|] eqn:Hxs; [|discriminate].
  injection Ha3 as <-. simpl.
  apply solve_rows_correcto in Hxs as [Hlen _];
    [|rewrite length_zip_with; lia].
  by rewrite length_columna, length_map.
Qed.

(** The voltages the extraction loop collects. *)
Lemma voltajes_bucle (x : Matrix) (groundNode : Z) (l : list Z) :
  NoDup l ->
  forall acc v0 : gmap Z Cx,
  forOf (fun (voltajes : gmap Z Cx) i =>
           let* voltaje := get x i 0 in
           ok (<[indiceANodo i groundNode := voltaje]> voltajes))
        l acc = ok v0 ->
  (forall i, i ∈ l ->
     v0 !! indiceANodo i groundNode = Some (entry x (Z.to_nat i) 0)) /\
  (forall nodo, (forall i, i ∈ l -> indiceANodo i groundNode <> nodo) ->
     v0 !! nodo = acc !! nodo).
Proof.
  induction 1 as [|i l Hi Hnd IH]; intros acc v0 H; simpl in H.
  - injection H as <-. split; [|done]. intros i Hi. by apply elem_of_nil in Hi.
  - inv_bind H. inv_bind Ha. injection Ha as <-.
    unfold get in Ha0. destruct (in_range x i 0); [|discriminate].
    injection Ha0 as <-.
    apply IH in H as [Hin Hout]. split.
    + intros i' [->|Hi']%elem_of_cons; [|by apply Hin].
      rewrite Hout; [by rewrite lookup_insert_eq|].
      intros i' Hi' Heq. apply Hi.
      replace i with i'; [done|].
      destruct (nodoAIndice_indiceANodo groundNode i') as [_ <-].
      destruct (nodoAIndice_indiceANodo groundNode i) as [_ <-].
      by rewrite Heq.
    + intros nodo Hn. rewrite Hout.
      * rewrite lookup_insert_ne; [done|]. apply Hn. by left.
      * intros i' Hi'. apply Hn. by right.
Qed.

Lemma voltajes_resultado (numNodes groundNode : Z) (r : Resultado)
    (x : Matrix) (v0 : gmap Z Cx) :
  (0 <= groundNode < numNodes)%Z ->
  forOf (fun (voltajes : gmap Z Cx) i =>
           let* voltaje := get x i 0 in
           ok (<[indiceANodo i groundNode := voltaje]> voltajes))
        (map Z.of_nat (seq 0 (Z.to_nat (numNodes - 1)))) ∅ = ok v0 ->
  voltajes r = <[groundNode := Cero]> v0 ->
  forall nodo,
    voltajes r !! nodo =
    if decide (0 <= nodo < numNodes)%Z
    then Some (potencial (columna 0 (data x)) groundNode nodo)
    else None.
Proof.
  intros Hg Hv0 Hr nodo. rewrite Hr.
  apply voltajes_bucle in Hv0 as [Hin Hout].
  2:{ apply NoDup_fmap; [intros ? ?; apply Nat2Z.inj|apply NoDup_seq]. }
  unfold potencial.
  destruct (decide (nodo = groundNode)) as [->|Hne].
  { rewrite lookup_insert_eq. by rewrite decide_True by done. }
  rewrite lookup_insert_ne by done.
  destruct (decide (0 <= nodo < numNodes)%Z) as [Hn|Hn].
  - pose proof (nodoAIndice_rango _ _ _ Hn Hg) as Hi.
    assert (Hi0 : (0 <= nodoAIndice nodo groundNode)%Z).
    { unfold nodoAIndice in *.
      destruct (Z.eqb_spec nodo groundNode), (Z.ltb_spec nodo groundNode);
        lia. }
    rewrite <- (indiceANodo_nodoAIndice groundNode nodo) at 1 by done.
    rewrite Hin.
    + f_equal. unfold entry. by rewrite nth_columna.
    + apply list_elem_of_fmap.
      exists (Z.to_nat (nodoAIndice nodo groundNode)).
      split; [lia|]. apply elem_of_seq. lia.
  - rewrite Hout; [done|].
    intros i [a [-> Ha%elem_of_seq]]%list_elem_of_fmap Heq.
    apply Hn. unfold indiceANodo in Heq.
    destruct (Z.ltb_spec (Z.of_nat a) groundNode); lia.
Qed.

(** The equations the solution satisfies, block by block: the rows of the
    nodes and the rows of the voltage sources. *)
Lemma sistema_resuelto elementos numNodes groundNode f r :
  analizarCircuito_try elementos numNodes groundNode f = inr r ->
  exists (B i e x : Matrix),
    let n := Z.to_nat (numNodes - 1) in
    let m := length (List.filter (esTipo "V") elementos) in
    let dG := data (G_referencia elementos numNodes groundNode f) in
    let xs := columna 0 (data x) in
    (2 <= numNodes)%Z /\ (0 <= groundNode < numNodes)%Z /\
    construirMatrizB elementos numNodes groundNode = ok B /\
    construirVectorI elementos numNodes groundNode = ok i /\
    construirVectorE elementos = ok e /\
    length xs = (n + m)%nat /\
    (forall nodo,
       voltajes r !! nodo =
       if decide (0 <= nodo < numNodes)%Z
       then Some (potencial xs groundNode nodo) else None) /\
    forOf (fun (corrientes : gmap string Cx) '(j, fuente) =>
             let* corriente := get x (numNodes - 1 + j)%Z 0 in
             ok (<[nombre fuente := corriente]> corrientes))
          (indexados (List.filter (esTipo "V") elementos)) ∅ =
      ok (corrientes r) /\
    (forall k, (k < n)%nat ->
       (dot (nth k dG []) (take n xs) +
        dot (nth k (data B) []) (drop n xs))%C = entry i k 0) /\
    (forall j, (j < m)%nat ->
       dot (columna j (data B)) (take n xs) = entry e j 0).
Proof.
  intros H.
  apply analizarCircuito_try_anatomia in H
    as (G & B & C & D & A & i & e & z & x & v0 & d0 & Hval & HG & HB & HC &
        HD & HA & Hi & He & Hz & Hx & Hv0 & Hcor & _ & Hvol & _).
  exists B, i, e, x. intros n m dG xs.
  apply validar_inr in Hval as (_ & Hn & Hg & _).
  apply construirMatrizG_inr in HG as [_ ->].
  pose proof (G_referencia_forma elementos numNodes groundNode f) as HfG.
  subst dG. unfold G_referencia in *. simpl in HfG. simpl.
  remember (fold_left (estampa_referencia groundNode f)
              (List.filter es_pasivo elementos) _) as dG eqn:HdG.
  fold n in HfG. clear HdG.
  pose proof (construirMatrizB_inr _ _ _ _ HB) as (HfB & HrB & HcB & _).
  fold n in HrB. fold m in HcB.
  apply zeros_inr in HD as (_ & _ & ->). rewrite Nat2Z.id in HA. fold m in HA.
  pose proof (construirVectorI_entradas _ _ _ _ Hi) as (Hfi & Hri & Hci & _).
  fold n in Hri.
  destruct (construirVectorE_entradas elementos)
    as (e' & He' & Hfe & Hre & Hce & _).
  rewrite He in He'. injection He' as <-. fold m in Hre.
  (* the assembled matrix and vector *)
  unfold construirMatrizC in HC.
  pose proof (transpose_bien_formada _ _ HC HfB) as (HfC & HrC & HcC).
  apply transpose_inr in HC as [Hm ->]. rewrite HcB in Hm.
  apply ensamblarMatrizA_datos in HA;
    [|done|done|done|apply forma_ceros].
  cbn [rows cols data] in HA. rewrite ?HrB, ?HcB in HA. subst A.
  apply ensamblarVectorZ_datos in Hz as (_ & _ & ->);
    [|done|done|rewrite Hri; unfold n; lia].
  rewrite Hri, Hre, Hci in Hx.
  set (A := mkMatrix _ _ _) in Hx. set (z := mkMatrix _ _ _) in Hx.
  assert (HfA : bien_formada A).
  { apply (forma_app n m (n + m)).
    - apply forma_zip_app; [done|]. by rewrite <- HrB, <- HcB.
    - apply forma_zip_app.
      + split; [by rewrite length_map, length_seq|].
        apply Forall_map, Forall_forall. intros j _. simpl.
        rewrite length_map. destruct HfB as [-> _]. done.
      + apply forma_ceros. }
  assert (Hlz : length (data z) = rows z).
  { simpl. rewrite length_app. destruct Hfi as [-> _], Hfe as [-> _]. lia. }
  pose proof (resolverSistema_largo _ _ _ HfA Hlz Hx) as Hlx.
  apply resolverSistema_filas in Hx as (_ & _ & Hfilas); [|done|done].
  fold xs in Hlx, Hfilas. simpl in Hlx, Hfilas.
  assert (HlG : length dG = n) by (by destruct HfG).
  assert (HlB : length (data B) = n) by (destruct HfB; congruence).
  assert (Hxs : xs = take n xs ++ drop n xs) by (by rewrite take_drop).
  split; [done|]. split; [done|]. split; [done|]. split; [done|].
  split; [done|]. split; [done|].
  split; [by apply (voltajes_resultado numNodes groundNode r x v0)|].
  split; [done|]. split.
  - intros k Hk. specialize (Hfilas k ltac:(lia)).
    rewrite app_nth1 in Hfilas by (rewrite length_zip_with, HlG, HlB; lia).
    rewrite nth_zip_app in Hfilas by lia.
    rewrite Hxs, dot_app in Hfilas.
    2:{ rewrite (forma_fila n n) by done. rewrite length_take. lia. }
    rewrite Hfilas. unfold entry, z. simpl.
    rewrite app_nth1; [done|]. destruct Hfi as [-> _]. lia.
  - intros j Hj. specialize (Hfilas (n + j)%nat ltac:(lia)).
    rewrite app_nth2 in Hfilas by (rewrite length_zip_with, HlG, HlB; lia).
    rewrite length_zip_with, HlG, HlB, Nat.min_id in Hfilas.
    replace (n + j - n)%nat with j in Hfilas by lia.
    rewrite nth_zip_app in Hfilas
      by (by rewrite length_map, length_seq, length_replicate).
    rewrite (nth_map_seq (fun j => map (fun r => nth j r Cero) (data B)))
      in Hfilas by done.
    fold (columna j (data B)) in Hfilas.
    rewrite Hxs, dot_app in Hfilas.
    2:{ rewrite length_columna, length_take. lia. }
    rewrite (dot_ceros (nth j _ _)) in Hfilas.
    2:{ rewrite (nth_lookup_Some _ _ _ (replicate m Cero))
          by (by apply lookup_replicate_2).
        by apply Forall_replicate. }
    assert (Hz0 : entry z (n + j) 0 = entry e j 0).
    { unfold entry, z. simpl. rewrite app_nth2; destruct Hfi as [-> _];
        [|lia]. by replace (n + j - rows i)%nat with j by lia. }
    rewrite <- Hz0, <- Hfilas. ring.
Qed.

(** ** Sums and products of rows *)

Lemma dot_delta (i : nat) (c : Cx) (len : nat) :
  forall (s : nat) (v : list Cx),
  dot (map (fun a => if decide (a = i) then c else Cero) (seq s len)) v =
  if decide (s <= i < s + len)%nat then (c * nth (i - s) v Cero)%C else Cero.
Proof.
  induction len as [|len IH]; intros s v; simpl.
  - rewrite decide_False by lia. done.
  - destruct v as [|x v].
    + destruct (decide _); [|done]. destruct (i - s)%nat; simpl; ring.
    + rewrite IH. destruct (decide (s = i)) as [->|Hne].
      * rewrite Nat.sub_diag, decide_False, decide_True by lia. simpl. ring.
      * destruct (decide (S s <= i < S s + len)%nat).
        -- rewrite decide_True by lia.
           replace (i - s)%nat with (S (i - S s)) by lia. simpl. ring.
        -- rewrite decide_False by lia. ring.
Qed.



Lemma nth_take_menor {A} (n i : nat) (l : list A) (d : A) :
  (i < n)%nat -> nth i (take n l) d = nth i l d.
Proof. intros Hi. by rewrite !nth_lookup, lookup_take_lt. Qed.

(** ** Terminals and rows *)


Lemma nodo_de_fila (numNodes groundNode nodo : Z) :
  (0 <= groundNode < numNodes)%Z -> (0 <= nodo < numNodes)%Z ->
  nodo <> groundNode ->
  let k := Z.to_nat (nodoAIndice nodo groundNode) in
  (k < Z.to_nat (numNodes - 1))%nat /\
  indiceANodo (Z.of_nat k) groundNode = nodo.
Proof.
  intros Hg Hn Hne k. subst k.
  pose proof (nodoAIndice_rango _ _ _ Hn Hg) as Hi.
  assert (Hi0 : (0 <= nodoAIndice nodo groundNode)%Z).
  { unfold nodoAIndice in *.
    destruct (Z.eqb_spec nodo groundNode), (Z.ltb_spec nodo groundNode); lia. }
  split; [lia|]. rewrite Z2Nat.id by done.
  by apply indiceANodo_nodoAIndice.
Qed.



(** The column of a voltage source times the node voltages is the
    potential of its positive terminal minus that of its negative
    terminal. *)
Lemma dot_incidencia (numNodes groundNode : Z) (s : Elemento)
    (v : list Cx) :
  (0 <= groundNode < numNodes)%Z ->
  terminales_validos numNodes s ->
  nodoPositivo s <> nodoNegativo s ->
  dot (map (incidencia groundNode s) (seq 0 (Z.to_nat (numNodes - 1)))) v =
  (potencial v groundNode (nodoPositivo s) -
   potencial v groundNode (nodoNegativo s))%C.
Proof.
  intros Hg [Hp Hq] Hpq.
  set (ip := nodoAIndice (nodoPositivo s) groundNode).
  set (iq := nodoAIndice (nodoNegativo s) groundNode).
  pose proof (nodoAIndice_rango _ _ _ Hp Hg) as Hip.
  pose proof (nodoAIndice_rango _ _ _ Hq Hg) as Hiq.
  fold ip in Hip. fold iq in Hiq.
  assert (Hgp : nodoPositivo s = groundNode <-> (ip < 0)%Z).
  { unfold ip, nodoAIndice.
    destruct (Z.eqb_spec (nodoPositivo s) groundNode),
      (Z.ltb_spec (nodoPositivo s) groundNode); lia. }
  assert (Hgq : nodoNegativo s = groundNode <-> (iq < 0)%Z).
  { unfold iq, nodoAIndice.
    destruct (Z.eqb_spec (nodoNegativo s) groundNode),
      (Z.ltb_spec (nodoNegativo s) groundNode); lia. }
  assert (Hne : ip <> iq \/ (ip < 0)%Z).
  { destruct (decide (ip < 0)%Z); [by right|left].
    destruct (decide (iq < 0)%Z); [lia|]. intros Heq. apply Hpq.
    apply (nodoAIndice_inyectiva groundNode); tauto. }
  rewrite (map_ext _
    (fun a => ((if decide (a = Z.to_nat ip) then
                  (if decide (0 <= ip)%Z then Uno else Cero) else Cero) -
               Uno * (if decide (a = Z.to_nat iq) then
                  (if decide (0 <= iq)%Z then Uno else Cero) else Cero))%C)).
  2:{ intros a. unfold incidencia. fold ip iq. rewrite menos_uno.
      repeat case_decide; try lia; ring. }
  rewrite dot_map_lin_l, !dot_delta. unfold potencial. fold ip iq.
  rewrite !Nat.sub_0_r.
  repeat case_decide; try lia; try tauto; try ring.
  all: exfalso; tauto || lia.
Qed.

Lemma columna_incidencia (B : Matrix) (groundNode : Z) (s : Elemento)
    (j : nat) :
  bien_formada B ->
  (forall i, (i < rows B)%nat -> entry B i j = incidencia groundNode s i) ->
  columna j (data B) = map (incidencia groundNode s) (seq 0 (rows B)).
Proof.
  intros [Hl _] He. apply list_eq. intros i.
  unfold columna. rewrite !list_lookup_fmap.
  destruct (decide (i < rows B)%nat) as [Hi|Hi].
  - rewrite lookup_seq_lt by done. simpl. rewrite <- He by done.
    destruct (lookup_lt_is_Some_2 (data B) i) as [r Hr]; [lia|].
    rewrite Hr. simpl. unfold entry.
    by rewrite (nth_lookup_Some _ _ _ _ Hr).
  - rewrite lookup_seq_ge by lia.
    rewrite (proj2 (lookup_ge_None _ _)) by lia. done.
Qed.

Lemma voltaje_potencial (numNodes groundNode : Z) (r : Resultado)
    (xs : list Cx) (nodo : Z) :
  (0 <= groundNode < numNodes)%Z -> (0 <= nodo < numNodes)%Z ->
  (forall nodo,
     voltajes r !! nodo =
     if decide (0 <= nodo < numNodes)%Z
     then Some (potencial xs groundNode nodo) else None) ->
  voltaje r nodo =
  potencial (take (Z.to_nat (numNodes - 1)) xs) groundNode nodo.
Proof.
  intros Hg Hn Hv. unfold voltaje. rewrite Hv, decide_True by done. simpl.
  unfold potencial. destruct (decide (nodo = groundNode)) as [|Hne]; [done|].
  destruct (nodo_de_fila _ _ _ Hg Hn Hne) as [Hk _].
  by rewrite nth_take_menor.
Qed.

(** X11. On every circuit that [analizarCircuito] solves, a voltage source
    whose terminals are two distinct nodes of the circuit holds its value
    between them: the voltage of its positive terminal minus the voltage
    of its negative terminal is the value of the source. *)
Theorem fuente_de_voltaje_impuesta elementos numNodes groundNode f s :
  let r := analizarCircuito elementos numNodes groundNode f in
  exito r = true ->
  In s elementos -> tipo s = "V"%string ->
  terminales_validos numNodes s ->
  nodoPositivo s <> nodoNegativo s ->
  (voltaje r (nodoPositivo s) - voltaje r (nodoNegativo s))%C =
  RtoC (valor s).
Proof.
  intros r Hex Hin Hs Hval Hpq.
  apply analizarCircuito_exito in Hex. fold r in Hex.
  apply sistema_resuelto in Hex
    as (B & i & e & x & Hn & Hg & HB & _ & He & _ & Hvol & _ & _ & Hfuentes).
  set (n := Z.to_nat (numNodes - 1)) in *.
  set (fuentes := List.filter (esTipo "V") elementos) in *.
  set (xs := columna 0 (data x)) in *.
  assert (Hsf : s ∈ fuentes).
  { apply list_elem_of_In, filter_In. split; [done|].
    unfold esTipo. by rewrite Hs. }
  apply list_elem_of_lookup_1 in Hsf as [j Hj].
  pose proof (lookup_lt_Some _ _ _ Hj) as Hjm.
  apply construirMatrizB_inr in HB as (HfB & HrB & _ & HeB).
  destruct (construirVectorE_entradas elementos)
    as (e' & He' & _ & _ & _ & Hee).
  rewrite He in He'. injection He' as <-.
  destruct Hval as [Hp Hq].
  rewrite (voltaje_potencial numNodes groundNode r xs) by done.
  rewrite (voltaje_potencial numNodes groundNode r xs) by done.
  rewrite <- (Hee j s Hj), <- (Hfuentes j Hjm).
  rewrite (columna_incidencia B groundNode s j HfB)
    by (intros a Ha; by apply HeB).
  rewrite HrB. symmetry. by apply (dot_incidencia numNodes).
Qed.

Lemma fuente_de_voltaje_impuesta_witness :
  (voltaje (analizarCircuito divisor 3 0 0) 1 -
   voltaje (analizarCircuito divisor 3 0 0) 0)%C = RtoC (qc 10 1).
Proof.
  apply (fuente_de_voltaje_impuesta divisor 3 0 0
           (mkElemento "V" "V1" 1 0 (qc 10 1))).
  - by vm_compute.
  - by left.
  - reflexivity.
  - split; simpl; lia.
  - simpl. lia.
Defined.

(** ** The rows of the conductance block *)





(** ** The currents of the voltage sources *)






(** ** Elements the engine does not know *)

Lemma filter_sin (p : Elemento -> bool) (l1 l2 : list Elemento)
    (e : Elemento) :
  p e = false -> List.filter p (l1 ++ e :: l2) = List.filter p (l1 ++ l2).
Proof.
  intros He. rewrite !List.filter_app. simpl. by rewrite He.
Qed.

(** X15. An element whose kind is none of R, C, L, V and I changes nothing in
    the result: the analysis of a circuit that holds it is the analysis
    of the circuit without it. *)
Theorem elemento_desconocido_ignorado (l1 l2 : list Elemento) (e : Elemento)
    (numNodes groundNode : Z) (f : Qc) :
  tipo_conocido e = false -> l1 ++ l2 <> [] ->
  analizarCircuito (l1 ++ e :: l2) numNodes groundNode f =
  analizarCircuito (l1 ++ l2) numNodes groundNode f.
Proof.
  unfold tipo_conocido. intros He Hne.
  repeat (apply orb_false_iff in He as [He ?]).
  assert (HV : validar (l1 ++ e :: l2) numNodes groundNode f =
               validar (l1 ++ l2) numNodes groundNode f).
  { unfold validar. destruct (l1 ++ l2) eqn:H12; [done|].
    destruct (l1 ++ e :: l2) eqn:H1e2; [by destruct l1|]. done. }
  unfold analizarCircuito, analizarCircuito_try.
  unfold construirMatrizG, construirMatrizB, construirVectorI,
    construirVectorE.
  rewrite HV.
  rewrite !(filter_sin _ l1 l2 e) by (done || by rewrite ?orb_false_iff).
  done.
Qed.

Lemma elemento_desconocido_ignorado_witness :
  analizarCircuito (divisor ++ [mkElemento "r" "R9" 1 2 1]) 3 0 0 =
  analizarCircuito divisor 3 0 0.
Proof.
  rewrite <- (app_nil_r divisor) at 2.
  by apply (elemento_desconocido_ignorado divisor []).
Defined.

(** ** Terminals that are not nodes of the circuit *)

Lemma forOf_inr_elem {A S} (P : S -> Prop) (body : S -> A -> Exc S)
    (l : list A) :
  (forall s a s', P s -> body s a = inr s' -> P s') ->
  forall s s', P s -> forOf body l s = inr s' ->
  forall a, In a l -> exists s1 s2, P s1 /\ body s1 a = inr s2.
Proof.
  intros Hbody. induction l as [|x l IH]; intros s s' Hs H a Ha; [done|].
  simpl in H. inv_bind H. destruct Ha as [->|Ha].
  - by exists s, a0.
  - eapply IH; [|exact H|exact Ha]. by eapply Hbody.
Qed.

Lemma indice_en_rango (numNodes groundNode t : Z) (n : nat) :
  n = Z.to_nat (numNodes - 1) -> (0 <= groundNode < numNodes)%Z ->
  (nodoAIndice t groundNode < 0)%Z \/
  (nodoAIndice t groundNode < Z.of_nat n)%Z ->
  (t < numNodes)%Z.
Proof.
  intros -> Hg. unfold nodoAIndice.
  destruct (Z.eqb_spec t groundNode), (Z.ltb_spec t groundNode); lia.
Qed.

Lemma sumarElemento_rango (M M' : Matrix) (i j : Z) (v : Cx) :
  sumarElemento M i j v = inr M' ->
  (i < Z.of_nat (rows M))%Z /\ rows M' = rows M /\ cols M' = cols M.
Proof.
  intros H. apply sumarElemento_inr in H as (a & b & -> & -> & ? & ? & ->).
  simpl. lia.
Qed.

Lemma establecerElemento_rango (M M' : Matrix) (i j : Z) (v : Cx) :
  establecerElemento M i j v = inr M' ->
  (i < Z.of_nat (rows M))%Z /\ rows M' = rows M /\ cols M' = cols M.
Proof.
  intros H. apply establecerElemento_inr in H
    as (a & b & -> & -> & ? & ? & ->).
  simpl. lia.
Qed.

Lemma estampar_rango (groundNode : Z) (f omega : Qc) (M M' : Matrix)
    (e : Elemento) :
  estampar groundNode f omega M e = inr M' ->
  (rows M' = rows M /\ cols M' = cols M) /\
  ((nodoAIndice (nodoPositivo e) groundNode < 0)%Z \/
   (nodoAIndice (nodoPositivo e) groundNode < Z.of_nat (rows M))%Z) /\
  ((nodoAIndice (nodoNegativo e) groundNode < 0)%Z \/
   (nodoAIndice (nodoNegativo e) groundNode < Z.of_nat (rows M))%Z).
Proof.
  unfold estampar. intros H. inv_bind H. inv_bind H. inv_bind H.
  set (i := nodoAIndice (nodoPositivo e) groundNode) in *.
  set (j := nodoAIndice (nodoNegativo e) groundNode) in *.
  assert (H1 : rows a0 = rows M /\ cols a0 = cols M /\
               ((i < 0)%Z \/ (i < Z.of_nat (rows M))%Z)).
  { destruct (Z.leb_spec 0 i).
    - apply sumarElemento_rango in Ha0. tauto.
    - injection Ha0 as <-. auto. }
  destruct H1 as (Hr1 & Hc1 & Hi).
  assert (H2 : rows a1 = rows M /\ cols a1 = cols M /\
               ((j < 0)%Z \/ (j < Z.of_nat (rows M))%Z)).
  { destruct (Z.leb_spec 0 j).
    - apply sumarElemento_rango in Ha1. rewrite Hr1, Hc1 in Ha1. tauto.
    - injection Ha1 as <-. auto. }
  destruct H2 as (Hr2 & Hc2 & Hj).
  split; [|done].
  destruct ((0 <=? i) && (0 <=? j))%Z.
  - inv_bind H.
    apply sumarElemento_rango in Ha2 as (_ & Hr3 & Hc3).
    apply sumarElemento_rango in H as (_ & Hr4 & Hc4).
    split; congruence.
  - injection H as <-. done.
Qed.

Lemma incidir_rango (groundNode : Z) (M M' : Matrix) (jf : Z * Elemento) :
  incidir groundNode M jf = inr M' ->
  (rows M' = rows M /\ cols M' = cols M) /\
  ((nodoAIndice (nodoPositivo (snd jf)) groundNode < 0)%Z \/
   (nodoAIndice (nodoPositivo (snd jf)) groundNode < Z.of_nat (rows M))%Z) /\
  ((nodoAIndice (nodoNegativo (snd jf)) groundNode < 0)%Z \/
   (nodoAIndice (nodoNegativo (snd jf)) groundNode < Z.of_nat (rows M))%Z).
Proof.
  destruct jf as [j0 fuente]. unfold incidir. simpl. intros H. inv_bind H.
  set (i := nodoAIndice (nodoPositivo fuente) groundNode) in *.
  set (j := nodoAIndice (nodoNegativo fuente) groundNode) in *.
  assert (H1 : rows a = rows M /\ cols a = cols M /\
               ((i < 0)%Z \/ (i < Z.of_nat (rows M))%Z)).
  { destruct (Z.leb_spec 0 i).
    - apply establecerElemento_rango in Ha. tauto.
    - injection Ha as <-. auto. }
  destruct H1 as (Hr1 & Hc1 & Hi).
  destruct (Z.leb_spec 0 j).
  - apply establecerElemento_rango in H. rewrite Hr1, Hc1 in H.
    repeat split; try tauto; lia.
  - injection H as <-. auto.
Qed.

Lemma inyectar_rango (groundNode : Z) (M M' : Matrix) (fuente : Elemento) :
  inyectar groundNode M fuente = inr M' ->
  (rows M' = rows M /\ cols M' = cols M) /\
  ((nodoAIndice (nodoPositivo fuente) groundNode < 0)%Z \/
   (nodoAIndice (nodoPositivo fuente) groundNode < Z.of_nat (rows M))%Z) /\
  ((nodoAIndice (nodoNegativo fuente) groundNode < 0)%Z \/
   (nodoAIndice (nodoNegativo fuente) groundNode < Z.of_nat (rows M))%Z).
Proof.
  unfold inyectar. intros H. inv_bind H.
  set (i := nodoAIndice (nodoPositivo fuente) groundNode) in *.
  set (j := nodoAIndice (nodoNegativo fuente) groundNode) in *.
  assert (H1 : rows a = rows M /\ cols a = cols M /\
               ((i < 0)%Z \/ (i < Z.of_nat (rows M))%Z)).
  { destruct (Z.leb_spec 0 i).
    - apply sumarElemento_rango in Ha. tauto.
    - injection Ha as <-. auto. }
  destruct H1 as (Hr1 & Hc1 & Hi).
  destruct (Z.leb_spec 0 j).
  - apply sumarElemento_rango in H. rewrite Hr1, Hc1 in H.
    repeat split; try tauto; lia.
  - injection H as <-. auto.
Qed.

Lemma In_indexados {A} (l : list A) (a : A) :
  In a l -> exists j, In (j, a) (indexados l).
Proof.
  unfold indexados. generalize 0%nat.
  induction l as [|x l IH]; intros s Ha; [done|].
  destruct Ha as [->|Ha].
  - exists (Z.of_nat s). by left.
  - destruct (IH (S s) Ha) as [j Hj]. exists j. by right.
Qed.

(** The terminals of the elements of a circuit that [analizarCircuito]
    solves are below the number of nodes. *)
Lemma terminales_acotados elementos numNodes groundNode f r e :
  analizarCircuito_try elementos numNodes groundNode f = inr r ->
  In e elementos -> tipo_conocido e = true ->
  (nodoPositivo e < numNodes)%Z /\ (nodoNegativo e < numNodes)%Z.
Proof.
  intros H He Ht.
  apply analizarCircuito_try_anatomia in H
    as (G & B & C & D & A & i & e0 & z & x & v0 & d0 & Hval & HG & HB & _ &
        _ & _ & Hi & _).
  apply validar_inr in Hval as (_ & Hn & Hg & _).
  set (n := Z.to_nat (numNodes - 1)).
  assert (Hfin : forall M : Matrix, rows M = n ->
    (nodoAIndice (nodoPositivo e) groundNode < 0)%Z \/
    (nodoAIndice (nodoPositivo e) groundNode < Z.of_nat (rows M))%Z ->
    (nodoAIndice (nodoNegativo e) groundNode < 0)%Z \/
    (nodoAIndice (nodoNegativo e) groundNode < Z.of_nat (rows M))%Z ->
    (nodoPositivo e < numNodes)%Z /\ (nodoNegativo e < numNodes)%Z).
  { intros M HM Hp Hq. rewrite HM in Hp, Hq.
    split; by eapply (indice_en_rango numNodes groundNode _ n). }
  unfold tipo_conocido in Ht.
  destruct (esTipo "R" e || esTipo "C" e || esTipo "L" e) eqn:Hpas;
    [|destruct (esTipo "V" e) eqn:HV].
  - unfold construirMatrizG in HG. inv_bind HG.
    apply zeros_inr in Ha as (_ & _ & ->).
    apply (forOf_inr_elem (fun M => rows M = n)) with (a := e) in HG
      as (M1 & M2 & HM1 & Hest); [| |done|by apply filter_In].
    2:{ intros s a s' Hs Hb. apply estampar_rango in Hb as [[Hr _] _].
        congruence. }
    apply estampar_rango in Hest as (_ & Hp & Hq). by apply (Hfin M1).
  - unfold construirMatrizB in HB.
    set (fuentes := List.filter (esTipo "V") elementos) in *.
    assert (Hef : In e fuentes) by (apply filter_In; by split).
    destruct (Nat.eqb_spec (length fuentes) 0) as [Hm|Hm].
    { by destruct fuentes. }
    inv_bind HB. apply zeros_inr in Ha as (_ & _ & ->).
    destruct (In_indexados fuentes e Hef) as [j Hj].
    apply (forOf_inr_elem (fun M => rows M = n)) with (a := (j, e)) in HB
      as (M1 & M2 & HM1 & Hinc); [| |done|done].
    2:{ intros s a s' Hs Hb. apply incidir_rango in Hb as [[Hr _] _].
        congruence. }
    apply incidir_rango in Hinc as (_ & Hp & Hq). by apply (Hfin M1).
  - simpl in Ht.
    unfold construirVectorI in Hi. inv_bind Hi.
    apply zeros_inr in Ha as (_ & _ & ->).
    apply (forOf_inr_elem (fun M => rows M = n)) with (a := e) in Hi
      as (M1 & M2 & HM1 & Hiny); [| |done|by apply filter_In].
    2:{ intros s a s' Hs Hb. apply inyectar_rango in Hb as [[Hr _] _].
        congruence. }
    apply inyectar_rango in Hiny as (_ & Hp & Hq). by apply (Hfin M1).
Qed.

(** X16. A circuit with an element of a known kind one of whose terminals is
    numbered [numNodes] or more is never solved: [analizarCircuito]
    returns a failure. *)
Theorem terminal_fuera_de_rango elementos numNodes groundNode f e :
  In e elementos -> tipo_conocido e = true ->
  (numNodes <= nodoPositivo e)%Z \/ (numNodes <= nodoNegativo e)%Z ->
  exito (analizarCircuito elementos numNodes groundNode f) = false.
Proof.
  intros He Ht Hfuera.
  destruct (exito _) eqn:Hex; [|done].
  apply analizarCircuito_exito in Hex.
  apply (terminales_acotados _ _ _ _ _ e) in Hex; [lia|done|done].
Qed.

Lemma terminal_fuera_de_rango_witness :
  exito (analizarCircuito (divisor ++ [mkElemento "R" "R3" 1 7 1]) 3 0 0)
  = false.
Proof.
  apply (terminal_fuera_de_rango _ 3 0 0 (mkElemento "R" "R3" 1 7 1)).
  - apply in_or_app. right. by left.
  - reflexivity.
  - right. simpl. lia.
Defined.

(** ** The shape of a result *)





(** ** Symmetry *)

Lemma estampa_simetrica (n : nat) (groundNode : Z) (f : Qc)
    (d : list (list Cx)) (e : Elemento) :
  forma n n d ->
  (forall a b, (a < n)%nat -> (b < n)%nat ->
     nth b (nth a d []) Cero = nth a (nth b d []) Cero) ->
  forall a b, (a < n)%nat -> (b < n)%nat ->
    nth b (nth a (estampa_referencia groundNode f d e) []) Cero =
    nth a (nth b (estampa_referencia groundNode f d e) []) Cero.
Proof.
  intros Hd Hsym a b Ha Hb. unfold estampa_referencia.
  set (y := conductancia_referencia e f).
  set (i := nodoAIndice (nodoPositivo e) groundNode).
  set (j := nodoAIndice (nodoNegativo e) groundNode).
  destruct (presente (nodoPositivo e) groundNode),
           (presente (nodoNegativo e) groundNode); simpl;
    rewrite <- ?sumar_menos;
    rewrite ?(entrada_sumar_en n n) by (repeat apply forma_sumar; done);
    rewrite (Hsym a b) by done;
    repeat case_decide; destruct_and?; try (exfalso; lia); ring.
Qed.

Lemma G_referencia_simetrica elementos numNodes groundNode f (a b : nat) :
  (a < Z.to_nat (numNodes - 1))%nat -> (b < Z.to_nat (numNodes - 1))%nat ->
  entry (G_referencia elementos numNodes groundNode f) a b =
  entry (G_referencia elementos numNodes groundNode f) b a.
Proof.
  unfold G_referencia, entry. simpl.
  set (n := Z.to_nat (numNodes - 1)).
  generalize (List.filter es_pasivo elementos). intros l.
  assert (H0 : forma n n (replicate n (replicate n Cero)) /\
               forall a b, (a < n)%nat -> (b < n)%nat ->
                 nth b (nth a (replicate n (replicate n Cero)) []) Cero =
                 nth a (nth b (replicate n (replicate n Cero)) []) Cero).
  { split; [apply forma_ceros|]. intros. by rewrite !entrada_ceros. }
  revert H0 a b. generalize (replicate n (replicate n Cero)).
  induction l as [|e l IH]; intros d [Hd Hsym] a b Ha Hb; simpl.
  - by apply Hsym.
  - apply IH; [|done|done]. split; [by apply forma_estampa_referencia|].
    by apply estampa_simetrica.
Qed.

(** X13. The matrix of the system that [analizarCircuito] solves is
    symmetric. *)
Theorem sistema_simetrico elementos numNodes groundNode f :
  let r := analizarCircuito elementos numNodes groundNode f in
  exito r = true ->
  exists M, matrices r = Some M /\
    forall i j, (i < rows (m_A M))%nat -> (j < rows (m_A M))%nat ->
      entry (m_A M) i j = entry (m_A M) j i.
Proof.
  intros r Hex. apply analizarCircuito_exito in Hex. fold r in Hex.
  apply analizarCircuito_try_anatomia in Hex
    as (G & B & C & D & A & i & e & z & x & v0 & d & Hval & HG & HB & HC &
        HD & HA & _ & _ & _ & _ & _ & _ & _ & _ & Hmat & _).
  eexists. split; [exact Hmat|]. simpl.
  apply construirMatrizG_inr in HG as [_ ->].
  pose proof (G_referencia_forma elementos numNodes groundNode f) as HfG.
  pose proof (G_referencia_simetrica elementos numNodes groundNode f) as Hsim.
  apply construirMatrizB_inr in HB as (HfB & HrB & HcB & _).
  apply zeros_inr in HD as (_ & _ & ->). rewrite Nat2Z.id in HA.
  unfold construirMatrizC in HC.
  pose proof (transpose_bien_formada _ _ HC HfB) as (HfC & HrC & HcC).
  apply ensamblarMatrizA_partes in HA as (_ & _ & HrA & HcA & HeA);
    [|done|done|done|apply forma_ceros].
  simpl in *. set (n := Z.to_nat (numNodes - 1)) in *.
  set (m := length (List.filter (esTipo "V") elementos)) in *.
  intros a b Ha Hb. rewrite !HeA by done.
  rewrite ?HcC, ?HrB. fold n. repeat case_decide; try lia.
  - by apply Hsim.
  - symmetry. apply (entrada_transpose B C); [done|lia].
  - apply (entrada_transpose B C); [done|lia].
  - unfold entry. simpl. by rewrite !entrada_ceros.
Qed.

Lemma sistema_simetrico_witness :
  exists M, matrices (analizarCircuito divisor 3 0 0) = Some M /\
    entry (m_A M) 0 2 = entry (m_A M) 2 0.
Proof.
  destruct (sistema_simetrico divisor 3 0 0) as (M & HM & Hs);
    [by vm_compute|].
  exists M. split; [done|].
  assert (HA : rows (m_A M) = 3%nat).
  { vm_compute in HM. injection HM as <-. reflexivity. }
  apply Hs; rewrite HA; lia.
Defined.

(** ** Terminals with a negative number *)

Lemma bind_ext {A B} (c : Exc A) (k k' : A -> Exc B) :
  (forall a, k a = k' a) -> bind c k = bind c k'.
Proof. intros H. destruct c; simpl; [done|apply H]. Qed.

Lemma bind_ext_ok {A B} (c : Exc A) (k k' : A -> Exc B) :
  (forall a, c = inr a -> k a = k' a) -> bind c k = bind c k'.
Proof. intros H. destruct c; simpl; [done|by apply H]. Qed.

Lemma forOf_ext {A S} (body body' : S -> A -> Exc S) (l : list A) (s : S) :
  (forall s a, body s a = body' s a) -> forOf body l s = forOf body' l s.
Proof.
  intros H. revert s. induction l as [|a l IH]; intros s; simpl; [done|].
  rewrite H. by apply bind_ext.
Qed.

Lemma forOf_map {A A' S} (h : A -> A') (body : S -> A' -> Exc S)
    (l : list A) (s : S) :
  forOf body (map h l) s = forOf (fun s a => body s (h a)) l s.
Proof.
  revert s. induction l as [|a l IH]; intros s; simpl; [done|].
  by apply bind_ext.
Qed.

Lemma filter_map_mismo {A} (p : A -> bool) (h : A -> A) (l : list A) :
  (forall a, p (h a) = p a) ->
  List.filter p (map h l) = map h (List.filter p l).
Proof.
  intros H. induction l as [|a l IH]; simpl; [done|].
  rewrite H. destruct (p a); simpl; by rewrite IH.
Qed.

Lemma indexados_map {A} (h : A -> A) (l : list A) :
  indexados (map h l) = map (fun jf => (fst jf, h (snd jf))) (indexados l).
Proof.
  unfold indexados. rewrite length_map. generalize 0%nat.
  induction l as [|a l IH]; intros s; simpl; [done|]. by rewrite IH.
Qed.

Lemma nodoAIndice_a_tierra (groundNode t : Z) :
  (0 <= groundNode)%Z ->
  let t' := if (t <? 0)%Z then groundNode else t in
  ((0 <=? nodoAIndice t' groundNode)%Z = (0 <=? nodoAIndice t groundNode)%Z) /\
  ((0 <= nodoAIndice t groundNode)%Z ->
   nodoAIndice t' groundNode = nodoAIndice t groundNode).
Proof.
  intros Hg t'. subst t'. destruct (Z.ltb_spec t 0); [|done].
  unfold nodoAIndice. rewrite Z.eqb_refl.
  destruct (Z.eqb_spec t groundNode), (Z.ltb_spec t groundNode); lia.
Qed.

Lemma estampar_a_tierra (groundNode : Z) (f omega : Qc) (M : Matrix)
    (e : Elemento) :
  (0 <= groundNode)%Z ->
  estampar groundNode f omega M (a_tierra groundNode e) =
  estampar groundNode f omega M e.
Proof.
  intros Hg. unfold estampar.
  change (conductanciaDe (a_tierra groundNode e) f omega)
    with (conductanciaDe e f omega).
  apply bind_ext. intros y. cbn [a_tierra nodoPositivo nodoNegativo].
  destruct (nodoAIndice_a_tierra groundNode (nodoPositivo e) Hg) as [Hb Hi].
  destruct (nodoAIndice_a_tierra groundNode (nodoNegativo e) Hg) as [Hb' Hj].
  cbv zeta in *. rewrite Hb, Hb'.
  destruct (Z.leb_spec 0 (nodoAIndice (nodoPositivo e) groundNode)) as [H0|H0];
    [rewrite (Hi H0)|];
  (destruct (Z.leb_spec 0 (nodoAIndice (nodoNegativo e) groundNode))
     as [H1|H1]; [rewrite (Hj H1)|]); done.
Qed.

Lemma incidir_a_tierra (groundNode : Z) (M : Matrix) (jf : Z * Elemento) :
  (0 <= groundNode)%Z ->
  incidir groundNode M (fst jf, a_tierra groundNode (snd jf)) =
  incidir groundNode M jf.
Proof.
  intros Hg. destruct jf as [j e]. unfold incidir.
  cbn [fst snd a_tierra nodoPositivo nodoNegativo].
  destruct (nodoAIndice_a_tierra groundNode (nodoPositivo e) Hg) as [Hb Hi].
  destruct (nodoAIndice_a_tierra groundNode (nodoNegativo e) Hg) as [Hb' Hj].
  cbv zeta in *. rewrite Hb, Hb'.
  destruct (Z.leb_spec 0 (nodoAIndice (nodoPositivo e) groundNode)) as [H0|H0];
    [rewrite (Hi H0)|];
  (destruct (Z.leb_spec 0 (nodoAIndice (nodoNegativo e) groundNode))
     as [H1|H1]; [rewrite (Hj H1)|]); done.
Qed.

Lemma inyectar_a_tierra (groundNode : Z) (M : Matrix) (e : Elemento) :
  (0 <= groundNode)%Z ->
  inyectar groundNode M (a_tierra groundNode e) = inyectar groundNode M e.
Proof.
  intros Hg. unfold inyectar.
  cbn [a_tierra nodoPositivo nodoNegativo valor].
  destruct (nodoAIndice_a_tierra groundNode (nodoPositivo e) Hg) as [Hb Hi].
  destruct (nodoAIndice_a_tierra groundNode (nodoNegativo e) Hg) as [Hb' Hj].
  cbv zeta in *. rewrite Hb, Hb'.
  destruct (Z.leb_spec 0 (nodoAIndice (nodoPositivo e) groundNode)) as [H0|H0];
    [rewrite (Hi H0)|];
  (destruct (Z.leb_spec 0 (nodoAIndice (nodoNegativo e) groundNode))
     as [H1|H1]; [rewrite (Hj H1)|]); done.
Qed.

(** X17. The engine takes a terminal with a negative number for the reference
    node: it raises no error, and the result is the one of the circuit in
    which those terminals are the reference node. *)
Theorem terminal_negativo_a_tierra elementos numNodes groundNode f :
  analizarCircuito (map (a_tierra groundNode) elementos)
    numNodes groundNode f =
  analizarCircuito elementos numNodes groundNode f.
Proof.
  set (h := a_tierra groundNode).
  assert (HV : validar (map h elementos) numNodes groundNode f =
               validar elementos numNodes groundNode f).
  { unfold validar. by rewrite length_map. }
  unfold analizarCircuito.
  replace (analizarCircuito_try (map h elementos) numNodes groundNode f)
    with (analizarCircuito_try elementos numNodes groundNode f); [done|].
  symmetry.
  - unfold analizarCircuito_try. rewrite HV.
    apply bind_ext_ok. intros u Hval.
    apply validar_inr in Hval as (_ & _ & Hg & _).
    assert (Hg0 : (0 <= groundNode)%Z) by lia.
    assert (Hfil : forall p : Elemento -> bool,
              (forall a, p (h a) = p a) ->
              List.filter p (map h elementos) =
              map h (List.filter p elementos)).
    { intros p Hp. by apply filter_map_mismo. }
    assert (HG : construirMatrizG (map h elementos) numNodes groundNode f =
                 construirMatrizG elementos numNodes groundNode f).
    { unfold construirMatrizG. apply bind_ext. intros G0. cbv zeta.
      rewrite Hfil by done. rewrite forOf_map. apply forOf_ext.
      intros s a. by apply estampar_a_tierra. }
    assert (HB : construirMatrizB (map h elementos) numNodes groundNode =
                 construirMatrizB elementos numNodes groundNode).
    { unfold construirMatrizB. cbv zeta. rewrite Hfil by done.
      rewrite length_map. destruct (_ =? 0)%nat; [done|].
      apply bind_ext. intros B0. rewrite indexados_map, forOf_map.
      apply forOf_ext. intros s a. by apply incidir_a_tierra. }
    assert (HI : construirVectorI (map h elementos) numNodes groundNode =
                 construirVectorI elementos numNodes groundNode).
    { unfold construirVectorI. apply bind_ext. intros i0. cbv zeta.
      rewrite Hfil by done. rewrite forOf_map. apply forOf_ext.
      intros s a. by apply inyectar_a_tierra. }
    assert (HE : construirVectorE (map h elementos) =
                 construirVectorE elementos).
    { unfold construirVectorE. cbv zeta. rewrite Hfil by done.
      rewrite length_map. destruct (_ =? 0)%nat; [done|].
      apply bind_ext. intros e0. rewrite indexados_map, forOf_map.
      by apply forOf_ext. }
    cbv zeta. rewrite HG, HB, HI, HE.
    rewrite !Hfil by done. rewrite !length_map.
    do 9 (apply bind_ext; intros ?).
    apply bind_ext. intros v.
    rewrite indexados_map, forOf_map.
    f_equal. apply forOf_ext. by intros s [j e].
Qed.

(** ** Direct current *)

Lemma real_RtoC (q : Qc) : es_real (RtoC q).
Proof. done. Qed.

Lemma real_add (a b : Cx) : es_real a -> es_real b -> es_real (a + b)%C.
Proof. unfold es_real. simpl. intros -> ->. ring. Qed.

Lemma real_sub (a b : Cx) : es_real a -> es_real b -> es_real (a - b)%C.
Proof. unfold es_real. simpl. intros -> ->. ring. Qed.

Lemma real_mul (a b : Cx) : es_real a -> es_real b -> es_real (a * b)%C.
Proof. unfold es_real. simpl. intros -> ->. ring. Qed.

Lemma real_div (a b : Cx) : es_real a -> es_real b -> es_real (a / b)%C.
Proof.
  unfold es_real, Cdiv, Cinv. simpl. intros -> ->.
  unfold Qcdiv. ring.
Qed.

Lemma real_nth (r : list Cx) (k : nat) :
  Forall es_real r -> es_real (nth k r Cero).
Proof.
  intros H. rewrite nth_lookup. destruct (r !! k) as [x|] eqn:Hx; [|done].
  by apply (proj1 (Forall_lookup _ _) H k).
Qed.

Lemma real_fila (d : list (list Cx)) (k : nat) :
  datos_reales d -> Forall es_real (nth k d []).
Proof.
  intros H. rewrite nth_lookup. destruct (d !! k) as [r|] eqn:Hr;
    [|constructor].
  by apply (proj1 (Forall_lookup _ _) H k).
Qed.

Lemma real_dot (u v : list Cx) :
  Forall es_real u -> Forall es_real v -> es_real (dot u v).
Proof.
  intros Hu. revert v. induction Hu as [|a u Ha _ IH]; intros v Hv; [done|].
  destruct Hv as [|b v Hb Hv]; [done|]. simpl.
  apply real_add; [by apply real_mul|by apply IH].
Qed.

Lemma real_suma (l : list Cx) : Forall es_real l -> es_real (suma l).
Proof.
  induction 1 as [|a l Ha _ IH]; [done|]. simpl. by apply real_add.
Qed.

Lemma real_elim (w : nat) (p r : list Cx) :
  Forall es_real p -> Forall es_real r -> Forall es_real (elim w p r).
Proof.
  intros Hp Hr. unfold elim. apply Forall_map, Forall_forall. intros k _.
  simpl. unfold hd0.
  apply real_sub; [by apply real_nth|].
  apply real_mul; [|by apply real_nth].
  apply real_div; by apply real_nth.
Qed.

Lemma real_delete (k : nat) (d : list (list Cx)) :
  datos_reales d -> datos_reales (delete k d).
Proof.
  apply Forall_delete.
Qed.

Lemma solve_rows_real (n : nat) :
  forall (rs : list (list Cx)) (xs : list Cx),
  datos_reales rs -> solve_rows n rs = Some xs -> Forall es_real xs.
Proof.
  induction n as [|n IH]; intros rs xs Hrs H.
  - injection H as <-. constructor.
  - cbn [solve_rows] in H.
    destruct (pivote rs) as [[k v]|]; [|discriminate].
    destruct (decide (v = 0%Qc)); [discriminate|].
    set (p := nth k rs []) in *.
    assert (Hp : Forall es_real p) by (by apply real_fila).
    destruct (solve_rows n _) as [ys|] eqn:Hys; [|discriminate].
    injection H as <-.
    apply IH in Hys.
    2:{ apply Forall_map. eapply Forall_impl; [by apply real_delete|].
        intros r Hr. simpl. by apply real_elim. }
    constructor; [|done].
    apply real_div; [|by apply real_nth].
    apply real_sub; [by apply real_nth|].
    apply real_dot; [|done].
    apply Forall_map, Forall_forall. intros j _. simpl. by apply real_nth.
Qed.

Lemma lusolve_real (A b x : Matrix) :
  datos_reales (data A) -> datos_reales (data b) ->
  lusolve A b = ok x ->
  Forall es_real (columna 0 (data x)).
Proof.
  intros HA Hb. unfold lusolve.
  destruct (negb _); [discriminate|]. destruct (negb _); [discriminate|].
  destruct (solve_rows _ _) as [xs|] eqn:Hxs; [|discriminate].
  intros [= <-]. simpl.
  apply solve_rows_real in Hxs.
  - unfold columna. rewrite map_map. simpl. by rewrite map_id.
  - apply Forall_lookup. intros i r Hr.
    apply lookup_zip_with_Some in Hr as (a & z & -> & Ha & Hz).
    apply Forall_app. split.
    + by apply (proj1 (Forall_lookup _ _) HA i).
    + constructor; [|done]. unfold hd0. apply real_nth.
      by apply (proj1 (Forall_lookup _ _) Hb i).
Qed.

Lemma resolverSistema_lusolve (A z x : Matrix) :
  resolverSistema A z = ok x -> lusolve A z = ok x.
Proof.
  intros H. unfold resolverSistema in H.
  destruct (resolverSistema_try A z) as [e|x'] eqn:Htry.
  { repeat destruct (includes _ _); discriminate. }
  injection H as ->. unfold resolverSistema_try in Htry.
  do 6 inv_bind Htry. by injection Htry as <-.
Qed.

Lemma datos_de_entradas (M : Matrix) :
  bien_formada M ->
  (forall i j, (i < rows M)%nat -> (j < cols M)%nat ->
     es_real (entry M i j)) ->
  datos_reales (data M).
Proof.
  intros [Hl Hr] He. apply Forall_lookup. intros i r Hi.
  apply Forall_lookup. intros j y Hj.
  pose proof (lookup_lt_Some _ _ _ Hi) as Hi'.
  pose proof (lookup_lt_Some _ _ _ Hj) as Hj'.
  rewrite (proj1 (Forall_lookup _ _) Hr i r Hi) in Hj'.
  specialize (He i j ltac:(lia) Hj'). unfold entry in He.
  by rewrite (nth_lookup_Some _ _ _ _ Hi), (nth_lookup_Some _ _ _ _ Hj) in He.
Qed.

Lemma conductancia_referencia_real (e : Elemento) :
  es_real (conductancia_referencia e 0).
Proof.
  unfold conductancia_referencia.
  repeat match goal with
         | |- context [if ?b then _ else _] => destruct b
         end; done.
Qed.

Lemma estampa_real (n : nat) (groundNode : Z) (d : list (list Cx))
    (e : Elemento) :
  forma n n d ->
  (forall a b, (a < n)%nat -> (b < n)%nat ->
     es_real (nth b (nth a d []) Cero)) ->
  forall a b, (a < n)%nat -> (b < n)%nat ->
    es_real (nth b (nth a (estampa_referencia groundNode 0 d e) []) Cero).
Proof.
  intros Hd Hre a b Ha Hb. unfold estampa_referencia.
  pose proof (conductancia_referencia_real e) as Hy.
  set (y := conductancia_referencia e 0) in *.
  assert (Hmy : es_real (multiply (RtoC (- (1))) y))
    by (by apply real_mul).
  destruct (presente (nodoPositivo e) groundNode),
           (presente (nodoNegativo e) groundNode); simpl;
    rewrite <- ?sumar_menos;
    rewrite ?(entrada_sumar_en n n) by (repeat apply forma_sumar; done);
    repeat case_decide; repeat apply real_add; auto.
Qed.

Lemma G_referencia_real elementos numNodes groundNode :
  datos_reales (data (G_referencia elementos numNodes groundNode 0)).
Proof.
  apply datos_de_entradas; [apply G_referencia_forma|].
  unfold G_referencia, entry. simpl.
  set (n := Z.to_nat (numNodes - 1)).
  generalize (List.filter es_pasivo elementos). intros l.
  assert (H0 : forma n n (replicate n (replicate n Cero)) /\
               forall a b, (a < n)%nat -> (b < n)%nat ->
                 es_real (nth b (nth a (replicate n (replicate n Cero)) [])
                            Cero)).
  { split; [apply forma_ceros|]. intros. by rewrite entrada_ceros. }
  revert H0. generalize (replicate n (replicate n Cero)).
  induction l as [|e l IH]; intros d [Hd Hre] a b Ha Hb; simpl.
  - by apply Hre.
  - apply IH; [|done|done]. split; [by apply forma_estampa_referencia|].
    by apply estampa_real.
Qed.

Lemma incidencia_real (groundNode : Z) (s : Elemento) (i : nat) :
  es_real (incidencia groundNode s i).
Proof. unfold incidencia. by repeat case_decide. Qed.

Lemma inyeccion_real (groundNode : Z) (k : nat) (s : Elemento) :
  es_real (inyeccion groundNode k s).
Proof. unfold inyeccion. apply real_sub; by case_decide. Qed.

Lemma corrientes_reales (x : Matrix) (numNodes : Z)
    (l : list (Z * Elemento)) :
  (forall i, es_real (entry x i 0)) ->
  forall (acc c : gmap string Cx),
  (forall nom v, acc !! nom = Some v -> es_real v) ->
  forOf (fun (corrientes : gmap string Cx) '(j, fuente) =>
           let* corriente := get x (numNodes - 1 + j)%Z 0 in
           ok (<[nombre fuente := corriente]> corrientes))
        l acc = ok c ->
  forall nom v, c !! nom = Some v -> es_real v.
Proof.
  intros Hx. induction l as [|[j fuente] l IH]; intros acc c Hacc H.
  - simpl in H. by injection H as <-.
  - cbn [forOf] in H. inv_bind H. inv_bind Ha. injection Ha as <-.
    unfold get in Ha0. destruct (in_range x _ 0); [|discriminate].
    injection Ha0 as <-. revert H. apply IH.
    intros nom v. destruct (decide (nom = nombre fuente)) as [->|Hne].
    + rewrite lookup_insert_eq. intros [= <-]. apply Hx.
    + rewrite lookup_insert_ne by done. apply Hacc.
Qed.

(** X14. Direct current. At frequency 0 every voltage and every current of a
    successful result is a real number. *)
Theorem corriente_continua_real elementos numNodes groundNode :
  let r := analizarCircuito elementos numNodes groundNode 0 in
  exito r = true ->
  (forall nodo v, voltajes r !! nodo = Some v -> im v = 0%Qc) /\
  (forall nom c, corrientes r !! nom = Some c -> im c = 0%Qc).
Proof.
  intros r Hex. apply analizarCircuito_exito in Hex. fold r in Hex.
  apply analizarCircuito_try_anatomia in Hex
    as (G & B & C & D & A & i & e & z & x & v0 & d & Hval & HG & HB & HC &
        HD & HA & Hi & He & Hz & Hx & Hv0 & Hcor & _ & Hvr & _).
  apply validar_inr in Hval as (_ & Hn & Hg & _).
  pose proof (voltajes_resultado numNodes groundNode r x v0 Hg Hv0 Hvr)
    as Hvol.
  assert (Hxs : Forall es_real (columna 0 (data x))).
  { apply resolverSistema_lusolve in Hx.
    apply construirMatrizG_inr in HG as [_ ->].
    pose proof (G_referencia_forma elementos numNodes groundNode 0) as HfG.
    pose proof (G_referencia_real elementos numNodes groundNode) as HrG.
    apply construirMatrizB_inr in HB as (HfB & HrB & HcB & HeB).
    apply zeros_inr in HD as (_ & _ & ->). rewrite Nat2Z.id in HA.
    apply construirVectorI_entradas in Hi as (Hfi & Hri & Hci & Hei).
    destruct (construirVectorE_entradas elementos)
      as (e' & He' & Hfe & Hre & Hce & Hee).
    rewrite He in He'. injection He' as <-.
    unfold construirMatrizC in HC.
    pose proof (transpose_bien_formada _ _ HC HfB) as (HfC & HrC & HcC).
    apply (lusolve_real A z); [| |done].
    - pose proof HA as HA'.
      apply ensamblarMatrizA_partes in HA' as (_ & HfA & HrA & HcA & HeA);
        [|done|done|done|apply forma_ceros].
      apply datos_de_entradas; [done|]. intros a b Ha Hb.
      rewrite HeA by done. simpl in *.
      repeat case_decide.
      + unfold entry.
        apply real_nth, real_fila. done.
      + destruct (lookup_lt_is_Some_2
                    (List.filter (esTipo "V") elementos)
                    (b - Z.to_nat (numNodes - 1))) as [s Hs]; [lia|].
        rewrite (HeB _ _ s) by (done || lia). apply incidencia_real.
      + destruct (lookup_lt_is_Some_2
                    (List.filter (esTipo "V") elementos)
                    (a - Z.to_nat (numNodes - 1))) as [s Hs]; [lia|].
        rewrite (entrada_transpose B C) by (done || lia).
        rewrite (HeB _ _ s) by (done || lia). apply incidencia_real.
      + unfold entry. simpl. by rewrite entrada_ceros.
    - unfold ensamblarVectorZ in Hz.
      pose proof Hz as (Hpe & _ & _)%ensamblarVectorZ_datos;
        [|done|done|rewrite Hri; lia].
      destruct (concat_abajo i e Hfi Hfe) as (z' & Hz' & Hfz & Hrz & Hcz & Hez);
        [congruence|rewrite Hri; lia|done|].
      rewrite Hz in Hz'. injection Hz' as <-.
      apply datos_de_entradas; [done|]. intros a b Ha Hb.
      rewrite Hez. assert (b = 0%nat) as -> by lia.
      case_decide.
      + rewrite Hei by done. apply real_suma, Forall_map, Forall_forall.
        intros s _. apply inyeccion_real.
      + destruct (lookup_lt_is_Some_2
                    (List.filter (esTipo "V") elementos)
                    (a - rows i)) as [s Hs]; [lia|].
        rewrite (Hee _ s Hs). apply real_RtoC. }
  split.
  - intros nodo v. rewrite Hvol. case_decide; [|done]. intros [= <-].
    unfold potencial. case_decide; [done|]. by apply real_nth.
  - assert (Hex : forall k, es_real (entry x k 0)).
    { intros k. unfold entry. rewrite <- nth_columna. by apply real_nth. }
    eapply (corrientes_reales x numNodes _ Hex ∅); [|exact Hcor].
    intros ? ?. by rewrite lookup_empty.
Qed.

Lemma corriente_continua_real_witness :
  im (voltaje (analizarCircuito divisor 3 0 0) 2) = 0%Qc.
Proof.
  destruct (corriente_continua_real divisor 3 0) as [Hv _];
    [by vm_compute|].
  unfold voltaje.
  destruct (voltajes (analizarCircuito divisor 3 0 0) !! 2%Z) as [v|] eqn:E;
    simpl; [exact (Hv 2%Z v E) | reflexivity].
Defined.

(** ** A cut-off node, over exact scalars *)

(** Over the exact scalars of this development, a node that no chain of
    elements joins to the reference node makes the determinant of the
    system vanish: on a circuit of the data model with a voltage source,
    [analizarCircuito] then fails with the error of a singular system,
    the one that lists the likely causes. The program compares with
    1e-10 the determinant [math.det] computes in doubles, which rounding
    can leave on either side; and without voltage source the call stops
    before the determinant. *)
Lemma nodo_aislado_determinante elementos numNodes groundNode f u :
  List.filter (esTipo "V") elementos <> [] ->
  circuito_valido elementos numNodes groundNode f ->
  (0 <= u < numNodes)%Z ->
  ~ alcanzable elementos groundNode u ->
  analizarCircuito elementos numNodes groundNode f =
  fallo ("Error al resolver sistema MNA: " +:+ mensajeSingular) /\
  consola elementos numNodes groundNode f =
  ["Advertencia: Algunos nodos no están conectados a tierra"].
Proof.
  intros HV Hcv Hu Hunr.
  assert (Hne : elementos <> []) by (by intros ->).
  split; [|by apply (consola_advierte _ _ _ f u)].
  destruct Hcv as (Hn & Hg & Hf & Hval).
  set (X := nodosConectados elementos groundNode).
  set (n := Z.to_nat (numNodes - 1)).
  set (m := length (List.filter (esTipo "V") elementos)).
  assert (Hm : (0 < m)%nat).
  { unfold m. destruct (List.filter _ _); [done|simpl; lia]. }
  assert (HgX : groundNode ∈ X)
    by (apply nodosConectados_alcanzable; constructor).
  assert (HuX : u ∉ X).
  { intros H. by apply Hunr, nodosConectados_alcanzable. }
  pose proof (nodosConectados_cerrado elementos groundNode) as Hcer.
  fold X in Hcer.
  assert (Hter : Forall (terminales_validos numNodes) elementos).
  { eapply Forall_impl; [exact Hval|]. by intros e [? _]. }
  (* the blocks *)
  assert (HG : construirMatrizG elementos numNodes groundNode f =
               ok (G_referencia elementos numNodes groundNode f)).
  { apply construirMatrizG_ok; [lia|done|].
    eapply Forall_impl; [exact Hval|]. apply elemento_valido_estampable. }
  destruct (construirMatrizB_anula X groundNode numNodes Hg HgX elementos)
    as (dB & HB & HfB & HcB); try done.
  fold n m in HB, HfB, HcB.
  pose proof (G_referencia_forma elementos numNodes groundNode f) as HfG.
  pose proof (G_referencia_anula X groundNode numNodes Hg HgX elementos f
                Hcer Hter) as HcG.
  fold n in HfG, HcG.
  destruct (ensamblar_anula n m (indicador X groundNode n)
              (data (G_referencia elementos numNodes groundNode f)) dB)
    as (C & dA & HC & HA & HlA & Han); try done.
  { unfold indicador. by rewrite length_map, length_seq. }
  { unfold n. lia. }
  { by apply (indicador_no_nulo X groundNode numNodes Hg HgX u). }
  destruct (construirVectorI_ok elementos numNodes groundNode)
    as (i & Hi & Hri & Hci); try done; [lia|].
  pose proof (construirVectorI_entradas _ _ _ _ Hi) as (Hfi & _).
  destruct (construirVectorE_entradas elementos)
    as (e & He & Hfe & Hre & Hce & _).
  fold n in Hri. fold m in Hre.
  (* the call *)
  unfold analizarCircuito, analizarCircuito_try.
  rewrite validar_ok by (done || lia).
  rewrite bind_ok, HG, bind_ok, HB, bind_ok, HC, bind_ok.
  unfold construirMatrizD. fold m. rewrite zeros_ok by lia.
  rewrite bind_ok, Nat2Z.id.
  replace (G_referencia elementos numNodes groundNode f)
    with (mkMatrix n n
            (data (G_referencia elementos numNodes groundNode f)))
    by done.
  rewrite HA, bind_ok, Hi, bind_ok, He, bind_ok.
  unfold ensamblarVectorZ.
  rewrite concat_debajo by (done || lia || congruence).
  rewrite bind_ok.
  rewrite (resolverSistema_singular _ _ Cero); [done| |reflexivity].
  apply (det_singular _ (indicador X groundNode n ++ replicate m Cero));
    simpl; try done.
  rewrite length_app, length_replicate. unfold indicador.
  by rewrite length_map, length_seq.
Qed.

Example circuito_aislado_singular :
  analizarCircuito circuito_aislado 3 0 0 =
  fallo ("Error al resolver sistema MNA: " +:+ mensajeSingular).
Proof.
  apply (nodo_aislado_determinante circuito_aislado 3 0 0 2).
  - discriminate.
  - split; [lia|]. split; [lia|]. split; [done|].
    repeat constructor; simpl; try lia; try discriminate.
  - lia.
  - intros H%nodosConectados_alcanzable. revert H.
    apply (bool_decide_eq_false_1 (2%Z ∈ nodosConectados circuito_aislado 0)).
    by vm_compute.
Qed.
